(** * A shallow embedding of the consistent-hashing ring of [consistent.go]

    The Go package keeps a map from 32-bit positions to member names
    ([circle]), the set of members, their replica counts, a sorted slice of
    the positions and a member counter.  Every method of the package is
    translated below, in the order of the source file, and the properties
    of the ring are proved about these translations. *)

From stdpp Require Import gmap strings list fin_maps sorting.
From Stdlib Require Import ZArith DecimalString.

Open Scope Z_scope.

(** ** Machine integers *)

(** Go's [int] and [int64] on a 64-bit platform: two's complement
    wrap-around of a mathematical integer. *)
Definition wrap64 (x : Z) : Z := (x + 2 ^ 63) mod 2 ^ 64 - 2 ^ 63.

(** Go's [uint32]. *)
Definition wrap32 (x : Z) : Z := x mod 2 ^ 32.

(** ** Outcomes of a call

    A call either returns or stops with a runtime panic (integer division
    by zero, index out of range, [make] with a negative capacity). *)
Inductive outcome (A : Type) : Type :=
  | Ret (a : A)
  | Panic.
Arguments Ret {A} a.
Arguments Panic {A}.

#[global] Instance outcome_ret : MRet outcome := fun A a => Ret a.
#[global] Instance outcome_bind : MBind outcome := fun A B f x =>
  match x with
  | Ret a => f a
  | Panic => Panic
  end.

(** A [for _, x := range xs] loop whose body may panic. *)
Fixpoint forM {A S : Type} (body : S -> A -> outcome S) (s : S) (xs : list A)
  : outcome S :=
  match xs with
  | [] => Ret s
  | x :: xs' => s' ← body s x; forM body s' xs'
  end.

(** [var ErrEmptyCircle = errors.New("empty circle")]; a Go [error] value
    is [None] for [nil]. *)
Inductive error : Type := ErrEmptyCircle.

(** ** What the Go runtime leaves open

    The order in which [range] walks a map, and the capacity [append]
    picks when a slice has to grow, are not fixed by the language.  The
    development is parametric in them. *)
Class GoRuntime : Type := {
  (** keys of [circle] in the order of [for k := range c.circle] *)
  rangeCircle : gmap Z string -> list Z;
  rangeCircle_perm : forall m, rangeCircle m ≡ₚ (map_to_list m).*1;
  (** keys of [members] in the order of [for k := range c.members] *)
  rangeMembers : gmap string bool -> list string;
  rangeMembers_perm : forall m, rangeMembers m ≡ₚ (map_to_list m).*1;
  (** [growslice oldcap needed]: the capacity after [append] outgrows
      the backing array *)
  growslice : Z -> Z -> Z
}.

(** One admissible runtime: maps are walked in key order and a slice
    doubles when it is full. *)
Definition refRuntime : GoRuntime := {|
  rangeCircle := fun m => (map_to_list m).*1;
  rangeCircle_perm := fun m => reflexivity _;
  rangeMembers := fun m => (map_to_list m).*1;
  rangeMembers_perm := fun m => reflexivity _;
  growslice := fun old needed => Z.max needed (2 * old)
|}.

(** A second one, walking maps backwards and growing a slice by one. *)
Definition revRuntime : GoRuntime := {|
  rangeCircle := fun m => reverse (map_to_list m).*1;
  rangeCircle_perm := fun m => reverse_Permutation _;
  rangeMembers := fun m => reverse (map_to_list m).*1;
  rangeMembers_perm := fun m => reverse_Permutation _;
  growslice := fun old needed => needed
|}.

(** ** Slices of [uint32]: [type uints []uint32] *)

Record uints : Type := {
  data : list Z;   (* the elements x[0..len) *)
  cap : Z          (* cap(x) *)
}.

(** The zero value of a slice, [nil]. *)
Definition nil_uints : uints := {| data := []; cap := 0 |}.

(** [x[:0]]: no elements, same backing array. *)
Definition reslice0 (x : uints) : uints := {| data := []; cap := cap x |}.

Definition len (x : uints) : nat := length (data x).

(** [append(x, k)] *)
Definition append `{rt : GoRuntime} (x : uints) (k : Z) : uints :=
  {| data := data x ++ [k];
     cap := if decide (Z.of_nat (len x) < cap x) then cap x
            else growslice (cap x) (Z.of_nat (len x) + 1) |}.

(** [sort.Sort(x)].  The elements are integers compared with [<], so the
    sorted arrangement of a slice is unique and any sorting algorithm
    computes it; merge sort stands for the library's. *)
Definition Sort (x : uints) : uints :=
  {| data := merge_sort Z.le (data x); cap := cap x |}.

(** [x[i]], panicking when [i] is out of range. *)
Definition index (x : uints) (i : nat) : outcome Z :=
  match data x !! i with
  | Some v => Ret v
  | None => Panic
  end.

(** [func (x uints) Len() int] *)
Definition Len (x : uints) : Z := Z.of_nat (len x).

(** [func (x uints) Less(i, j int) bool] *)
Definition Less (x : uints) (i j : nat) : outcome bool :=
  xi ← index x i; xj ← index x j; Ret (bool_decide (xi < xj)).

(** [func (x uints) Swap(i, j int)]: in [x[i], x[j] = x[j], x[i]] both
    elements are read before [x[i]] and then [x[j]] are written; the
    slice shares its backing array with the caller's, so the exchange is
    seen through the value the method was called on. *)
Definition Swap (x : uints) (i j : nat) : outcome uints :=
  xj ← index x j; xi ← index x i;
  Ret {| data := <[j := xi]> (<[i := xj]> (data x)); cap := cap x |}.

(** What [sort.Sort] can do to a slice: it changes it through [Swap]
    only. *)
Inductive swaps : uints -> uints -> Prop :=
  | swaps_refl x : swaps x x
  | swaps_step x i j x' x'' :
      Swap x i j = Ret x' -> swaps x' x'' -> swaps x x''.

(** ** Hash functions *)

Definition bytes (s : string) : list Z :=
  (fun a => Z.of_N (Ascii.N_of_ascii a)) <$> String.list_ascii_of_string s.

(** [crc32.ChecksumIEEE]: the reflected CRC-32 with polynomial
    [0xedb88320], bit by bit. *)
Definition crc32_bit (crc : Z) : Z :=
  if Z.testbit crc 0 then Z.lxor (Z.shiftr crc 1) 0xedb88320
  else Z.shiftr crc 1.

Definition crc32_byte (crc b : Z) : Z := Nat.iter 8 crc32_bit (Z.lxor crc b).

Definition ChecksumIEEE (bs : list Z) : Z :=
  Z.lxor (foldl crc32_byte 0xffffffff bs) 0xffffffff.

(** [fnv.New32a]: 32-bit FNV-1a. *)
Definition fnv32a_byte (h b : Z) : Z := wrap32 (Z.lxor h b * 16777619).

Definition Sum32a (bs : list Z) : Z := foldl fnv32a_byte 2166136261 bs.

(** [copy(dst, src)] on byte arrays. *)
Definition copy (dst src : list Z) : list Z :=
  take (length dst) src ++ drop (length src) dst.

(** [type Hasher interface { HashFunc(key string) uint32 }] *)
Record Hasher : Type := { HashFunc : string -> Z }.

(** ** The ring *)

Record Config : Type := {
  DefaultNumberOfReplicas : Z;
  UseFnv : bool;
  CustomHasher : option Hasher
}.

(** [type Consistent struct].  The [scratch] field is never read (the
    hash function declares a local of the same name) and the lock has no
    content in a sequential run; both are left out. *)
Record Consistent : Type := {
  circle : gmap Z string;
  members : gmap string bool;
  membersReplicas : gmap string Z;
  sortedHashes : uints;
  defaultNumberOfReplicas : Z;
  count : Z;
  customHasher : option Hasher;
  useFnv : bool
}.

Definition set_circle (c : Consistent) (v : gmap Z string) : Consistent :=
  {| circle := v; members := members c;
     membersReplicas := membersReplicas c; sortedHashes := sortedHashes c;
     defaultNumberOfReplicas := defaultNumberOfReplicas c; count := count c;
     customHasher := customHasher c; useFnv := useFnv c |}.

Definition set_members (c : Consistent) (v : gmap string bool) : Consistent :=
  {| circle := circle c; members := v;
     membersReplicas := membersReplicas c; sortedHashes := sortedHashes c;
     defaultNumberOfReplicas := defaultNumberOfReplicas c; count := count c;
     customHasher := customHasher c; useFnv := useFnv c |}.

Definition set_membersReplicas (c : Consistent) (v : gmap string Z)
  : Consistent :=
  {| circle := circle c; members := members c;
     membersReplicas := v; sortedHashes := sortedHashes c;
     defaultNumberOfReplicas := defaultNumberOfReplicas c; count := count c;
     customHasher := customHasher c; useFnv := useFnv c |}.

Definition set_sortedHashes (c : Consistent) (v : uints) : Consistent :=
  {| circle := circle c; members := members c;
     membersReplicas := membersReplicas c; sortedHashes := v;
     defaultNumberOfReplicas := defaultNumberOfReplicas c; count := count c;
     customHasher := customHasher c; useFnv := useFnv c |}.

Definition set_count (c : Consistent) (v : Z) : Consistent :=
  {| circle := circle c; members := members c;
     membersReplicas := membersReplicas c; sortedHashes := sortedHashes c;
     defaultNumberOfReplicas := defaultNumberOfReplicas c; count := v;
     customHasher := customHasher c; useFnv := useFnv c |}.

(** [func New(conf Config) *Consistent] *)
Definition New (conf : Config) : Consistent :=
  {| defaultNumberOfReplicas :=
       if decide (DefaultNumberOfReplicas conf = 0) then 43
       else DefaultNumberOfReplicas conf;
     useFnv := UseFnv conf;
     customHasher := CustomHasher conf;
     circle := ∅;
     members := ∅;
     membersReplicas := ∅;
     sortedHashes := nil_uints;
     count := 0 |}.

(** [strconv.Itoa] *)
Definition Itoa (i : Z) : string := NilZero.string_of_int (Z.to_int i).

(** [func (c *Consistent) eltKey(elt string, idx int) string] *)
Definition eltKey (elt : string) (idx : Z) : string := Itoa idx +:+ elt.

(** [func (c *Consistent) hashKeyCRC32(key string) uint32] *)
Definition hashKeyCRC32 (key : string) : Z :=
  let n := length (bytes key) in
  if decide (n < 64)%nat then
    let scratch := copy (replicate 64 0) (bytes key) in
    ChecksumIEEE (take n scratch)
  else ChecksumIEEE (bytes key).

(** [func (c *Consistent) hashKeyFnv(key string) uint32] *)
Definition hashKeyFnv (key : string) : Z := Sum32a (bytes key).

(** [func (c *Consistent) hashKey(key string) uint32] *)
Definition hashKey (c : Consistent) (key : string) : Z :=
  match customHasher c with
  | Some h => HashFunc h key
  | None => if useFnv c then hashKeyFnv key else hashKeyCRC32 key
  end.

(** [func (c *Consistent) updateSortedHashes()].  The quotient is Go's
    truncated division and panics when the divisor is zero; the product
    [defaultNumberOfReplicas*4] wraps around like any [int]. *)
Definition updateSortedHashes `{rt : GoRuntime} (c : Consistent)
  : outcome Consistent :=
  let hashes := reslice0 (sortedHashes c) in
  let d := wrap64 (defaultNumberOfReplicas c * 4) in
  if decide (d = 0) then Panic
  else
    let hashes :=
      if decide (Z.quot (cap (sortedHashes c)) d > Z.of_nat (size (circle c)))
      then nil_uints else hashes in
    let hashes := foldl append hashes (rangeCircle (circle c)) in
    Ret (set_sortedHashes c (Sort hashes)).

(** [func (c *Consistent) add(elt string, numberOfReplicas int)] *)
Definition add `{rt : GoRuntime} (c : Consistent) (elt : string)
    (numberOfReplicas : Z) : outcome Consistent :=
  let c := foldl (fun c i =>
                    set_circle c (<[hashKey c (eltKey elt i) := elt]> (circle c)))
                 c (seqZ 0 numberOfReplicas) in
  let c := set_members c (<[elt := true]> (members c)) in
  let c := set_membersReplicas c
             (<[elt := numberOfReplicas]> (membersReplicas c)) in
  c ← updateSortedHashes c;
  Ret (set_count c (wrap64 (count c + 1))).

(** [func (c *Consistent) Add(elt string, numbersOfReplicas ...int)] *)
Definition Add `{rt : GoRuntime} (c : Consistent) (elt : string)
    (numbersOfReplicas : list Z) : outcome Consistent :=
  match members c !! elt with
  | Some _ => Ret c
  | None =>
      let numberOfReplicas :=
        match numbersOfReplicas with
        | r :: _ => r
        | [] => defaultNumberOfReplicas c
        end in
      add c elt numberOfReplicas
  end.

(** [func (c *Consistent) remove(elt string, numberOfReplicas int)] *)
Definition remove `{rt : GoRuntime} (c : Consistent) (elt : string)
    (numberOfReplicas : Z) : outcome Consistent :=
  let c := foldl (fun c i =>
                    set_circle c (delete (hashKey c (eltKey elt i)) (circle c)))
                 c (seqZ 0 numberOfReplicas) in
  let c := set_members c (delete elt (members c)) in
  let c := set_membersReplicas c (delete elt (membersReplicas c)) in
  c ← updateSortedHashes c;
  Ret (set_count c (wrap64 (count c - 1))).

(** [func (c *Consistent) Remove(elt string) bool] *)
Definition Remove `{rt : GoRuntime} (c : Consistent) (elt : string)
  : outcome (Consistent * bool) :=
  match members c !! elt with
  | None => Ret (c, false)
  | Some _ =>
      match membersReplicas c !! elt with
      | None => Ret (c, false)
      | Some numberOfReplicas =>
          c ← remove c elt numberOfReplicas; Ret (c, true)
      end
  end.

(** The inner loop of [Set]: is [k] one of [elts]? *)
Fixpoint found_in (k : string) (elts : list string) : bool :=
  match elts with
  | [] => false
  | v :: elts' => if decide (k = v) then true else found_in k elts'
  end.

(** [func (c *Consistent) Set(elts []string)], named [Set_] because [Set]
    is a sort of the logic.  The first loop ranges over
    the member map while deleting the key at hand, which Go allows: every
    key present at the start is visited once. *)
Definition Set_ `{rt : GoRuntime} (c : Consistent) (elts : list string)
  : outcome Consistent :=
  c ← forM (fun c k =>
              if found_in k elts then Ret c
              else match membersReplicas c !! k with
                   | Some v => remove c k v
                   | None => Ret c
                   end)
           c (rangeMembers (members c));
  forM (fun c v =>
          match members c !! v with
          | Some _ => Ret c
          | None => add c v (defaultNumberOfReplicas c)
          end)
       c elts.

Record SetElt : Type := { Elt : string; NumberOfReplicas : Z }.

(** [func (c *Consistent) SetWithReplicas(elts []SetElt)] *)
Definition SetWithReplicas `{rt : GoRuntime} (c : Consistent) (elts : list SetElt)
  : outcome Consistent :=
  c ← forM (fun c k =>
              if found_in k (Elt <$> elts) then Ret c
              else match membersReplicas c !! k with
                   | Some v => remove c k v
                   | None => Ret c
                   end)
           c (rangeMembers (members c));
  forM (fun c v =>
          match members c !! Elt v with
          | Some _ => Ret c
          | None =>
              let n := if decide (NumberOfReplicas v = 0)
                       then defaultNumberOfReplicas c
                       else NumberOfReplicas v in
              add c (Elt v) n
          end)
       c elts.

(** [func (c *Consistent) Members() []string] *)
Definition Members `{rt : GoRuntime} (c : Consistent) : list string :=
  rangeMembers (members c).

(** [func (c *Consistent) MemberReplicas() map[string]int]: a fresh map
    with the same entries. *)
Definition MemberReplicas (c : Consistent) : gmap string Z :=
  list_to_map (map_to_list (membersReplicas c)).

(** [sort.Search(n, f)]: the library's binary search.  Each round shrinks
    [j - i], so [n] rounds are more than the loop ever runs. *)
Fixpoint Search_loop (rounds : nat) (f : nat -> bool) (i j : nat) : nat :=
  match rounds with
  | O => i
  | S rounds' =>
      if decide (i < j)%nat then
        let h := ((i + j) / 2)%nat in
        if negb (f h) then Search_loop rounds' f (h + 1)%nat j
        else Search_loop rounds' f i h
      else i
  end.

Definition Search (n : nat) (f : nat -> bool) : nat := Search_loop n f 0%nat n.

(** [func (c *Consistent) search(key uint32) (i int)].  [sort.Search] only
    probes indices below [len(c.sortedHashes)], so the read in [f] is in
    range. *)
Definition search (c : Consistent) (key : Z) : nat :=
  let f := fun x : nat =>
    match data (sortedHashes c) !! x with
    | Some v => bool_decide (v > key)
    | None => false
    end in
  let i := Search (len (sortedHashes c)) f in
  if decide (len (sortedHashes c) <= i)%nat then 0%nat else i.

(** [c.circle[h]]: the zero value for a missing key. *)
Definition owner (c : Consistent) (h : Z) : string :=
  default "" (circle c !! h).

(** [func (c *Consistent) Get(name string) (string, error)] *)
Definition Get (c : Consistent) (name : string)
  : outcome (string * option error) :=
  if decide (size (circle c) = 0%nat) then Ret ("", Some ErrEmptyCircle)
  else
    let key := hashKey c name in
    let i := search c key in
    h ← index (sortedHashes c) i;
    Ret (owner c h, None).

(** The [for i = start + 1; i != start; i++] loop of [GetTwo].  The loop
    need not end, so it runs on fuel: [None] means the fuel ran out, and
    a call that yields [None] for every amount of fuel never returns.
    The result is the value of [b] when the loop is left. *)
Fixpoint GetTwo_loop (fuel : nat) (c : Consistent) (a : string)
    (start i : nat) (b : string) : option (outcome string) :=
  match fuel with
  | O => None
  | S fuel' =>
      if decide (i = start) then Some (Ret b)
      else
        let i := if decide (len (sortedHashes c) <= i)%nat then 0%nat else i in
        match index (sortedHashes c) i with
        | Panic => Some Panic
        | Ret h =>
            let b := owner c h in
            if decide (b <> a) then Some (Ret b)
            else GetTwo_loop fuel' c a start (i + 1)%nat b
        end
  end.

(** [func (c *Consistent) GetTwo(name string) (string, string, error)] *)
Definition GetTwo (fuel : nat) (c : Consistent) (name : string)
  : option (outcome (string * string * option error)) :=
  if decide (size (circle c) = 0%nat)
  then Some (Ret ("", "", Some ErrEmptyCircle))
  else
    let key := hashKey c name in
    let i := search c key in
    match index (sortedHashes c) i with
    | Panic => Some Panic
    | Ret h =>
        let a := owner c h in
        if decide (count c = 1) then Some (Ret (a, "", None))
        else
          let start := i in
          match GetTwo_loop fuel c a start (start + 1)%nat "" with
          | None => None
          | Some Panic => Some Panic
          | Some (Ret b) => Some (Ret (a, b, None))
          end
    end.

(** [func sliceContainsMember(set []string, member string) bool] *)
Fixpoint sliceContainsMember (set : list string) (member : string) : bool :=
  match set with
  | [] => false
  | m :: set' => if decide (m = member) then true
                 else sliceContainsMember set' member
  end.

(** The loop of [GetN], on fuel like the one of [GetTwo]; the result is
    [res] when the loop is left. *)
Fixpoint GetN_loop (fuel : nat) (c : Consistent) (n : Z)
    (start i : nat) (res : list string) : option (outcome (list string)) :=
  match fuel with
  | O => None
  | S fuel' =>
      if decide (i = start) then Some (Ret res)
      else
        let i := if decide (len (sortedHashes c) <= i)%nat then 0%nat else i in
        match index (sortedHashes c) i with
        | Panic => Some Panic
        | Ret h =>
            let elem := owner c h in
            let res := if sliceContainsMember res elem then res
                       else res ++ [elem] in
            if decide (Z.of_nat (length res) = n) then Some (Ret res)
            else GetN_loop fuel' c n start (i + 1)%nat res
        end
  end.

(** [func (c *Consistent) GetN(name string, n int) ([]string, error)].
    [make([]string, 0, n)] panics when [n] is negative. *)
Definition GetN (fuel : nat) (c : Consistent) (name : string) (n : Z)
  : option (outcome (list string * option error)) :=
  if decide (size (circle c) = 0%nat) then Some (Ret ([], Some ErrEmptyCircle))
  else
    let n := if decide (count c < n) then count c else n in
    let key := hashKey c name in
    let i := search c key in
    let start := i in
    if decide (n < 0) then Some Panic
    else
      match index (sortedHashes c) i with
      | Panic => Some Panic
      | Ret h =>
          let elem := owner c h in
          let res := [] ++ [elem] in
          if decide (Z.of_nat (length res) = n) then Some (Ret (res, None))
          else
            match GetN_loop fuel c n start (start + 1)%nat res with
            | None => None
            | Some Panic => Some Panic
            | Some (Ret res) => Some (Ret (res, None))
            end
      end.

(** ** Histories of a ring

    A ring is made by [New] and changed by the four exported mutators
    only; [reachable c] says that [c] is the state after some sequence of
    calls, each of which returned. *)
Inductive op : Type :=
  | OpAdd (elt : string) (numbersOfReplicas : list Z)
  | OpRemove (elt : string)
  | OpSet (elts : list string)
  | OpSetWithReplicas (elts : list SetElt).

Definition step `{rt : GoRuntime} (c : Consistent) (o : op) : outcome Consistent :=
  match o with
  | OpAdd elt rs => Add c elt rs
  | OpRemove elt => r ← Remove c elt; Ret (fst r)
  | OpSet elts => Set_ c elts
  | OpSetWithReplicas elts => SetWithReplicas c elts
  end.

(** A sequence of calls from a given state. *)
Definition run `{rt : GoRuntime} (c : Consistent) (ops : list op)
  : outcome Consistent := forM step c ops.

Inductive reachable `{rt : GoRuntime} : Consistent -> Prop :=
  | reachable_New conf : reachable (New conf)
  | reachable_step c o c' :
      reachable c -> step c o = Ret c' -> reachable c'.

(** * Vocabulary of the properties *)

(** The replica hashes of a member: [hash(i ++ elt)] for [0 <= i < r]. *)
Definition replicaHashes (c : Consistent) (elt : string) (r : Z) : list Z :=
  (fun i => hashKey c (eltKey elt i)) <$> seqZ 0 r.

(** The keys of the position map in ascending order. *)
Definition sorted_keys (m : gmap Z string) : list Z :=
  merge_sort Z.le (map_to_list m).*1.

(** [p] is the position that serves [key]: the least stored position
    strictly above [key], or the least stored position of all when none
    is above. *)
Definition successor (m : gmap Z string) (key p : Z) : Prop :=
  is_Some (m !! p) /\
  ((key < p /\ forall q, is_Some (m !! q) -> key < q -> p <= q) \/
   ((forall q, is_Some (m !! q) -> q <= key) /\
    forall q, is_Some (m !! q) -> p <= q)).

(** The invariant of the ring between two calls. *)
Record ring_inv (c : Consistent) : Prop := {
  inv_sorted : data (sortedHashes c) = sorted_keys (circle c);
  inv_replicas : dom (members c) = dom (membersReplicas c);
  inv_count : count c = wrap64 (Z.of_nat (size (members c)));
  inv_owner : forall h m, circle c !! h = Some m ->
      exists r, membersReplicas c !! m = Some r /\ h ∈ replicaHashes c m r
}.

(** A member that the first loop removes: visited, not among the
    requested names, and holding a replica count. *)
Definition pruned (c : Consistent) (names ks : list string) (m : string)
  : Prop :=
  (m ∈ ks) /\ (m ∉ names) /\ is_Some (membersReplicas c !! m).

(** The hash configuration of a ring: it is fixed by [New]. *)
Definition same_config (c c' : Consistent) : Prop :=
  defaultNumberOfReplicas c' = defaultNumberOfReplicas c /\
  customHasher c' = customHasher c /\ useFnv c' = useFnv c.

(** Two states that differ at most in the capacity of the sorted slice:
    no exported method can tell them apart. *)
Definition obs_eq (c1 c2 : Consistent) : Prop :=
  circle c1 = circle c2 /\ members c1 = members c2 /\
  membersReplicas c1 = membersReplicas c2 /\
  data (sortedHashes c1) = data (sortedHashes c2) /\
  count c1 = count c2 /\
  defaultNumberOfReplicas c1 = defaultNumberOfReplicas c2 /\
  customHasher c1 = customHasher c2 /\ useFnv c1 = useFnv c2.

(** Two calls that both panic, or both return and in states that cannot
    be told apart. *)
Definition same_outcome (o1 o2 : outcome Consistent) : Prop :=
  match o1, o2 with
  | Ret c1, Ret c2 => obs_eq c1 c2
  | Panic, Panic => True
  | _, _ => False
  end.

(** The stored positions in ring order, starting at index [s]. *)
Definition ring_from (c : Consistent) (s : nat) : list Z :=
  drop s (data (sortedHashes c)) ++ take s (data (sortedHashes c)).

(** The members met on a walk, each kept at its first visit. *)
Definition first_visits (walk : list string) : list string :=
  foldl (fun res elem => if sliceContainsMember res elem then res
                         else res ++ [elem]) [] walk.

(** The value of the loop variable of [GetTwo] and [GetN] when the loop
    condition is tested for the [j]-th time ([j >= 1]), on a slice of
    length [L] and a walk that starts at index [s]: it runs from [s + 1]
    to [L], is reset to [0] inside the body and counts on from [1]. *)
Definition loop_var (L s j : nat) : nat :=
  if decide (s + j <= L)%nat then (s + j)%nat else (s + j - L)%nat.

(** What the loop of [GetN] collects from the owners that are still to be
    visited, if it runs through them. *)
Fixpoint collect (n : Z) (res walk : list string) : list string :=
  match walk with
  | [] => res
  | elem :: walk' =>
      let res := if sliceContainsMember res elem then res else res ++ [elem] in
      if decide (Z.of_nat (length res) = n) then res else collect n res walk'
  end.

(** The ring after a sequence of calls on a fresh ring (the fresh ring
    itself if one of the calls panics). *)
Definition ring_of `{rt : GoRuntime} (conf : Config) (ops : list op) : Consistent :=
  match run (New conf) ops with
  | Ret c => c
  | Panic => New conf
  end.

(** The default configuration, [Config{}]: CRC-32 and 43 replicas. *)
Definition conf0 : Config :=
  {| DefaultNumberOfReplicas := 0; UseFnv := false; CustomHasher := None |}.

(** *** Example rings, under the reference runtime *)

(** Two members on the default configuration. *)
Definition ring_ab : Consistent :=
  @ring_of refRuntime conf0 [OpAdd "a" [2]; OpAdd "bb" [3]].

(** CRC-32 maps [i ++ "plumless"] and [i ++ "buckeroo"] to the same
    position for every index [i]: two members whose replicas collide. *)
Definition ring_collide : Consistent :=
  @ring_of refRuntime conf0 [OpAdd "plumless" [1]; OpAdd "buckeroo" [1]].

(** The same two members and a third one, each with one replica. *)
Definition ring_collide3 : Consistent :=
  @ring_of refRuntime conf0
    [OpAdd "plumless" [1]; OpAdd "buckeroo" [1]; OpAdd "b" [1]].

(** Three members with two replicas each and no collision. *)
Definition ring_abc : Consistent :=
  @ring_of refRuntime conf0 [OpAdd "A" [2]; OpAdd "B" [2]; OpAdd "C" [2]].

(** A member without positions beside a member with two positions. *)
Definition ring_x0aa : Consistent :=
  @ring_of refRuntime conf0 [OpAdd "x" [0]; OpAdd "a" [2]].

(** A member without positions beside a member with one position. *)
Definition ring_x0a : Consistent :=
  @ring_of refRuntime conf0 [OpAdd "x" [0]; OpAdd "a" [1]].

(** A default replica count whose fourfold wraps round to zero. *)
Definition conf_zero_divisor : Config :=
  {| DefaultNumberOfReplicas := 2 ^ 62; UseFnv := false; CustomHasher := None |}.

(** A replica count of one by default: the index rebuild gives back its
    storage as soon as it holds four times more than is needed. *)
Definition conf1 : Config :=
  {| DefaultNumberOfReplicas := 1; UseFnv := false; CustomHasher := None |}.

(** Closes a decidable statement about a concrete ring by evaluation. *)
Ltac by_evaluation := refine (bool_decide_unpack _ _); vm_compute; exact I.

(** Closes [size (circle c) <> 0] and the like on a concrete ring. *)
Ltac by_inequality := vm_compute; discriminate.

(** A call leaves the members that stay as they are: a stored replica
    count is kept unless the member is gone, and a name that was a member
    owns no position it did not own before. *)
Definition kept_as_is (c c' : Consistent) : Prop :=
  (forall m r, membersReplicas c !! m = Some r ->
     membersReplicas c' !! m = Some r \/
     (members c' !! m = None /\ membersReplicas c' !! m = None)) /\
  (forall h m, is_Some (members c !! m) -> circle c' !! h = Some m ->
     circle c !! h = Some m).

(** No call panics on a division by zero in the index rebuild. *)
Definition divisor_ok (c : Consistent) : Prop :=
  wrap64 (defaultNumberOfReplicas c * 4) <> 0.

(** * Facts about the model *)

(** ** The index rebuild *)

Section index_rebuild.
Context `{rt : GoRuntime}.

Lemma data_foldl_append (x : uints) (ks : list Z) :
  data (foldl append x ks) = data x ++ ks.
Proof.
  revert x. induction ks as [|k ks IH]; intros x; simpl.
  - by rewrite app_nil_r.
  - rewrite IH. simpl. by rewrite <- app_assoc.
Qed.

Lemma merge_sort_perm_eq (l1 l2 : list Z) :
  l1 ≡ₚ l2 -> merge_sort Z.le l1 = merge_sort Z.le l2.
Proof.
  intros Hp. apply (Sorted_unique Z.le).
  - apply Sorted_merge_sort; apply _.
  - apply Sorted_merge_sort; apply _.
  - by rewrite !merge_sort_Permutation.
Qed.

(** The rebuild either panics on a zero divisor or stores exactly the
    sorted keys, whichever way the old storage is handled. *)
Lemma updateSortedHashes_Ret c c' :
  updateSortedHashes c = Ret c' ->
  divisor_ok c /\
  data (sortedHashes c') = sorted_keys (circle c) /\
  circle c' = circle c /\ members c' = members c /\
  membersReplicas c' = membersReplicas c /\ count c' = count c /\
  defaultNumberOfReplicas c' = defaultNumberOfReplicas c /\
  customHasher c' = customHasher c /\ useFnv c' = useFnv c.
Proof.
  unfold updateSortedHashes, divisor_ok.
  destruct (decide (wrap64 (defaultNumberOfReplicas c * 4) = 0)) as [|Hd];
    [discriminate|].
  intros [= <-]. split; [done|]. simpl. split; [|done].
  rewrite data_foldl_append. unfold sorted_keys.
  apply merge_sort_perm_eq.
  case_decide; simpl; apply rangeCircle_perm.
Qed.

Lemma updateSortedHashes_total c :
  divisor_ok c -> exists c', updateSortedHashes c = Ret c'.
Proof.
  unfold updateSortedHashes, divisor_ok. intros Hd.
  destruct (decide (wrap64 (defaultNumberOfReplicas c * 4) = 0));
    [done|eauto].
Qed.

Lemma updateSortedHashes_Panic c :
  ~ divisor_ok c -> updateSortedHashes c = Panic.
Proof.
  unfold updateSortedHashes, divisor_ok. intros Hd.
  destruct (decide (wrap64 (defaultNumberOfReplicas c * 4) = 0)); [done|].
  by destruct Hd.
Qed.
End index_rebuild.

(** Facts about the sorted key list. *)
Lemma sorted_keys_perm (m : gmap Z string) :
  sorted_keys m ≡ₚ (map_to_list m).*1.
Proof. apply merge_sort_Permutation. Qed.

Lemma elem_of_sorted_keys (m : gmap Z string) (h : Z) :
  h ∈ sorted_keys m <-> is_Some (m !! h).
Proof.
  rewrite sorted_keys_perm. rewrite list_elem_of_fmap. split.
  - intros [[k v] [-> Hin]]. apply elem_of_map_to_list in Hin. eauto.
  - intros [v Hv]. exists (h, v). split; [done|]. by apply elem_of_map_to_list.
Qed.

Lemma NoDup_sorted_keys (m : gmap Z string) : NoDup (sorted_keys m).
Proof. rewrite sorted_keys_perm. apply NoDup_fst_map_to_list. Qed.

Lemma length_sorted_keys (m : gmap Z string) :
  length (sorted_keys m) = size m.
Proof.
  rewrite sorted_keys_perm, length_fmap. by rewrite length_map_to_list.
Qed.

Lemma Sorted_le_sorted_keys (m : gmap Z string) :
  StronglySorted Z.le (sorted_keys m).
Proof. apply StronglySorted_merge_sort; apply _. Qed.

Lemma StronglySorted_le_lt (l : list Z) :
  StronglySorted Z.le l -> NoDup l -> StronglySorted Z.lt l.
Proof.
  induction 1 as [|x l Hs IH Hall]; intros Hnd; [constructor|].
  apply NoDup_cons in Hnd as [Hx Hnd]. constructor; [by apply IH|].
  rewrite Forall_forall in Hall |- *. intros y Hy.
  specialize (Hall y Hy). assert (x <> y) by (intros ->; done). lia.
Qed.

Lemma Sorted_lt_sorted_keys (m : gmap Z string) :
  StronglySorted Z.lt (sorted_keys m).
Proof.
  apply StronglySorted_le_lt;
    [apply Sorted_le_sorted_keys | apply NoDup_sorted_keys].
Qed.

Lemma sorted_keys_empty : sorted_keys ∅ = [].
Proof. unfold sorted_keys. by rewrite map_to_list_empty. Qed.

Lemma sorted_keys_nil_inv (m : gmap Z string) : sorted_keys m = [] -> m = ∅.
Proof.
  intros H. apply map_size_empty_inv. by rewrite <- length_sorted_keys, H.
Qed.

(** ** Machine arithmetic *)

Lemma wrap64_small (x : Z) : - 2 ^ 63 <= x < 2 ^ 63 -> wrap64 x = x.
Proof. intros Hx. unfold wrap64. rewrite Z.mod_small; lia. Qed.

Lemma wrap64_add_l (a b : Z) : wrap64 (wrap64 a + b) = wrap64 (a + b).
Proof.
  unfold wrap64. f_equal.
  replace ((a + 2 ^ 63) mod 2 ^ 64 - 2 ^ 63 + b + 2 ^ 63)
    with ((a + 2 ^ 63) mod 2 ^ 64 + b) by lia.
  rewrite Zplus_mod_idemp_l. f_equal. lia.
Qed.

(** ** The two position loops *)

Lemma same_config_refl c : same_config c c.
Proof. by repeat split. Qed.

Lemma same_config_trans c1 c2 c3 :
  same_config c1 c2 -> same_config c2 c3 -> same_config c1 c3.
Proof. unfold same_config. intros (?&?&?) (?&?&?). repeat split; congruence. Qed.

Lemma hashKey_same c c' key : same_config c c' -> hashKey c' key = hashKey c key.
Proof. intros (_&Hh&Hf). unfold hashKey. by rewrite Hh, Hf. Qed.

Lemma replicaHashes_same c c' elt r :
  same_config c c' -> replicaHashes c' elt r = replicaHashes c elt r.
Proof.
  intros Hs. unfold replicaHashes. apply list_fmap_ext.
  intros _ i _. by apply hashKey_same.
Qed.

Lemma divisor_ok_same c c' : same_config c c' -> divisor_ok c -> divisor_ok c'.
Proof. intros (Hd&_&_). unfold divisor_ok. by rewrite Hd. Qed.

Lemma elem_of_replicaHashes c elt r h :
  h ∈ replicaHashes c elt r <->
  exists i, 0 <= i < r /\ h = hashKey c (Itoa i +:+ elt).
Proof.
  unfold replicaHashes, eltKey. rewrite list_elem_of_fmap. split.
  - intros (i&->&Hi). apply elem_of_seqZ in Hi. exists i. split; [lia|done].
  - intros (i&Hi&->). exists i. split; [done|]. apply elem_of_seqZ. lia.
Qed.

Lemma replicaHashes_nonpos c elt r : r <= 0 -> replicaHashes c elt r = [].
Proof. intros Hr. unfold replicaHashes. by rewrite seqZ_nil. Qed.

Lemma insert_loop c elt (l : list Z) :
  foldl (fun c i =>
           set_circle c (<[hashKey c (eltKey elt i) := elt]> (circle c))) c l =
  set_circle c
    (foldl (fun m i => <[hashKey c (eltKey elt i) := elt]> m) (circle c) l).
Proof.
  revert c. induction l as [|i l IH]; intros c; cbn [foldl].
  - by destruct c.
  - rewrite IH. reflexivity.
Qed.

Lemma delete_loop c elt (l : list Z) :
  foldl (fun c i =>
           set_circle c (delete (hashKey c (eltKey elt i)) (circle c))) c l =
  set_circle c
    (foldl (fun m i => delete (hashKey c (eltKey elt i)) m) (circle c) l).
Proof.
  revert c. induction l as [|i l IH]; intros c; cbn [foldl].
  - by destruct c.
  - rewrite IH. reflexivity.
Qed.

Lemma lookup_foldl_insert (f : Z -> Z) (elt : string) (l : list Z)
    (m : gmap Z string) (h : Z) :
  foldl (fun m i => <[f i := elt]> m) m l !! h =
  if decide (h ∈ f <$> l) then Some elt else m !! h.
Proof.
  revert m. induction l as [|i l IH]; intros m; cbn [foldl].
  - rewrite decide_False; [done|]. rewrite fmap_nil. apply not_elem_of_nil.
  - rewrite IH, fmap_cons.
    destruct (decide (h ∈ f <$> l)) as [Hl|Hl].
    + rewrite decide_True; [done|]. by apply list_elem_of_further.
    + destruct (decide (h = f i)) as [->|Hne].
      * rewrite lookup_insert_eq, decide_True; [done|]. apply list_elem_of_here.
      * rewrite lookup_insert_ne by done. rewrite decide_False; [done|].
        intros [->|Hin]%elem_of_cons; done.
Qed.

Lemma lookup_foldl_delete (f : Z -> Z) (l : list Z)
    (m : gmap Z string) (h : Z) :
  foldl (fun m i => delete (f i) m) m l !! h =
  if decide (h ∈ f <$> l) then None else m !! h.
Proof.
  revert m. induction l as [|i l IH]; intros m; cbn [foldl].
  - rewrite decide_False; [done|]. rewrite fmap_nil. apply not_elem_of_nil.
  - rewrite IH, fmap_cons.
    destruct (decide (h ∈ f <$> l)) as [Hl|Hl].
    + rewrite decide_True; [done|]. by apply list_elem_of_further.
    + destruct (decide (h = f i)) as [->|Hne].
      * rewrite lookup_delete_eq, decide_True; [done|]. apply list_elem_of_here.
      * rewrite lookup_delete_ne by done. rewrite decide_False; [done|].
        intros [->|Hin]%elem_of_cons; done.
Qed.

(** ** [add] and [remove] *)

Section add_remove.
Context `{rt : GoRuntime}.

Lemma add_Ret c elt r c' :
  add c elt r = Ret c' ->
  divisor_ok c /\
  (forall h, circle c' !! h =
     if decide (h ∈ replicaHashes c elt r) then Some elt else circle c !! h) /\
  members c' = <[elt := true]> (members c) /\
  membersReplicas c' = <[elt := r]> (membersReplicas c) /\
  data (sortedHashes c') = sorted_keys (circle c') /\
  count c' = wrap64 (count c + 1) /\
  same_config c c'.
Proof.
  unfold add. rewrite insert_loop.
  destruct (updateSortedHashes _) as [c1|] eqn:Hu; [|discriminate].
  apply updateSortedHashes_Ret in Hu
    as (Hd&Hs&Hc&Hm&Hr&Hn&Hdef&Hh&Hf).
  cbn in Hd, Hs, Hc, Hm, Hr, Hn, Hdef, Hh, Hf.
  intros [= <-]. cbn. split_and!; try done.
  - intros h. rewrite Hc. apply lookup_foldl_insert.
  - by rewrite Hs, Hc.
  - by rewrite Hn.
Qed.

Lemma add_total c elt r : divisor_ok c -> exists c', add c elt r = Ret c'.
Proof.
  intros Hd. unfold add. rewrite insert_loop.
  destruct (updateSortedHashes_total
    (set_membersReplicas
       (set_members
          (set_circle c
             (foldl (fun m i => <[hashKey c (eltKey elt i):=elt]> m)
                (circle c) (seqZ 0 r)))
          (<[elt:=true]> (members c)))
       (<[elt:=r]> (membersReplicas c)))) as [c1 Hc1]; [exact Hd|].
  cbn in Hc1 |- *. rewrite Hc1. cbn. eauto.
Qed.

Lemma remove_Ret c elt r c' :
  remove c elt r = Ret c' ->
  divisor_ok c /\
  (forall h, circle c' !! h =
     if decide (h ∈ replicaHashes c elt r) then None else circle c !! h) /\
  members c' = delete elt (members c) /\
  membersReplicas c' = delete elt (membersReplicas c) /\
  data (sortedHashes c') = sorted_keys (circle c') /\
  count c' = wrap64 (count c - 1) /\
  same_config c c'.
Proof.
  unfold remove. rewrite delete_loop.
  destruct (updateSortedHashes _) as [c1|] eqn:Hu; [|discriminate].
  apply updateSortedHashes_Ret in Hu
    as (Hd&Hs&Hc&Hm&Hr&Hn&Hdef&Hh&Hf).
  cbn in Hd, Hs, Hc, Hm, Hr, Hn, Hdef, Hh, Hf.
  intros [= <-]. cbn. split_and!; try done.
  - intros h. rewrite Hc. apply lookup_foldl_delete.
  - by rewrite Hs, Hc.
  - by rewrite Hn.
Qed.

Lemma remove_total c elt r : divisor_ok c -> exists c', remove c elt r = Ret c'.
Proof.
  intros Hd. unfold remove. rewrite delete_loop.
  destruct (updateSortedHashes_total
    (set_membersReplicas
       (set_members
          (set_circle c
             (foldl (fun m i => delete (hashKey c (eltKey elt i)) m)
                (circle c) (seqZ 0 r)))
          (delete elt (members c)))
       (delete elt (membersReplicas c)))) as [c1 Hc1]; [exact Hd|].
  cbn in Hc1 |- *. rewrite Hc1. cbn. eauto.
Qed.
End add_remove.

(** ** The invariant is kept by every mutation *)

Section invariant.
Context `{rt : GoRuntime}.

Lemma New_inv conf : ring_inv (New conf).
Proof.
  split; cbn.
  - by rewrite sorted_keys_empty.
  - by rewrite !dom_empty_L.
  - by rewrite map_size_empty.
  - intros h m Hh. by rewrite lookup_empty in Hh.
Qed.

Lemma inv_member_replicas c elt :
  ring_inv c -> members c !! elt = None <-> membersReplicas c !! elt = None.
Proof.
  intros Hinv. rewrite <- !not_elem_of_dom. by rewrite (inv_replicas c Hinv).
Qed.

Lemma add_inv c elt r c' :
  ring_inv c -> members c !! elt = None -> add c elt r = Ret c' -> ring_inv c'.
Proof.
  intros Hinv Hfresh (Hd&Hc&Hm&Hr&Hs&Hn&Hcfg)%add_Ret. split.
  - done.
  - rewrite Hm, Hr, !dom_insert_L. by rewrite (inv_replicas c Hinv).
  - rewrite Hn, Hm, (inv_count c Hinv), wrap64_add_l.
    rewrite map_size_insert_None by done. f_equal. lia.
  - intros h m Hh. rewrite Hc in Hh. rewrite Hr.
    destruct (decide (h ∈ replicaHashes c elt r)) as [Hin|Hin].
    + injection Hh as <-. exists r. rewrite lookup_insert_eq.
      by rewrite (replicaHashes_same c c').
    + destruct (inv_owner c Hinv h m Hh) as (r0&Hr0&Hin0).
      exists r0. rewrite (replicaHashes_same c c') by done.
      split; [|done]. rewrite lookup_insert_ne; [done|].
      intros <-. apply (inv_member_replicas c elt Hinv) in Hfresh. congruence.
Qed.

Lemma remove_inv c elt r c' :
  ring_inv c -> membersReplicas c !! elt = Some r ->
  remove c elt r = Ret c' -> ring_inv c'.
Proof.
  intros Hinv Hold (Hd&Hc&Hm&Hr&Hs&Hn&Hcfg)%remove_Ret.
  assert (is_Some (members c !! elt)) as [b Hb].
  { apply elem_of_dom. rewrite (inv_replicas c Hinv). apply elem_of_dom. eauto. }
  split.
  - done.
  - rewrite Hm, Hr, !dom_delete_L. by rewrite (inv_replicas c Hinv).
  - rewrite Hn, Hm, (inv_count c Hinv).
    replace (wrap64 (Z.of_nat (size (members c))) - 1)
      with (wrap64 (Z.of_nat (size (members c))) + -1) by lia.
    rewrite wrap64_add_l. rewrite map_size_delete, Hb.
    assert (size (members c) <> 0%nat).
    { intros H0%map_size_empty_inv. rewrite H0 in Hb. by rewrite lookup_empty in Hb. }
    f_equal. lia.
  - intros h m Hh. rewrite Hc in Hh. rewrite Hr.
    destruct (decide (h ∈ replicaHashes c elt r)) as [Hin|Hin]; [done|].
    destruct (inv_owner c Hinv h m Hh) as (r0&Hr0&Hin0).
    exists r0. rewrite (replicaHashes_same c c') by done.
    split; [|done]. rewrite lookup_delete_ne; [done|].
    intros <-. congruence.
Qed.

Lemma Add_inv c elt rs c' : ring_inv c -> Add c elt rs = Ret c' -> ring_inv c'.
Proof.
  intros Hinv. unfold Add. destruct (members c !! elt) eqn:Hm.
  - by intros [= <-].
  - by apply add_inv.
Qed.

Lemma Remove_inv c elt c' b :
  ring_inv c -> Remove c elt = Ret (c', b) -> ring_inv c'.
Proof.
  intros Hinv. unfold Remove. destruct (members c !! elt) eqn:Hm.
  - destruct (membersReplicas c !! elt) as [r|] eqn:Hr.
    + destruct (remove c elt r) as [c1|] eqn:Hrem; [|discriminate].
      intros [= <- <-]. by eapply remove_inv.
    + by intros [= <- <-].
  - by intros [= <- <-].
Qed.
End invariant.

(** ** The two loops of [Set] and [SetWithReplicas] *)

Lemma found_in_true k elts : found_in k elts = true <-> k ∈ elts.
Proof.
  induction elts as [|v elts IH]; cbn.
  - split; [done|]. by intros ?%elem_of_nil.
  - case_decide as Hk.
    + subst. split; [intros _; apply list_elem_of_here|done].
    + rewrite IH. split; [apply list_elem_of_further|].
      intros [?|?]%elem_of_cons; done.
Qed.

Lemma found_in_false k elts : found_in k elts = false <-> k ∉ elts.
Proof.
  rewrite <- found_in_true. destruct (found_in k elts); split; try done.
Qed.

Section set_loops.
Context `{rt : GoRuntime}.

Lemma prune_loop (names ks : list string) c c' :
  ring_inv c ->
  forM (fun c k =>
          if found_in k names then Ret c
          else match membersReplicas c !! k with
               | Some v => remove c k v
               | None => Ret c
               end) c ks = Ret c' ->
  ring_inv c' /\ same_config c c' /\
  (forall m, pruned c names ks m ->
     members c' !! m = None /\ membersReplicas c' !! m = None) /\
  (forall m, ~ pruned c names ks m ->
     members c' !! m = members c !! m /\
     membersReplicas c' !! m = membersReplicas c !! m) /\
  (forall h o, circle c' !! h = Some o -> circle c !! h = Some o) /\
  (forall h,
     (forall m r, pruned c names ks m -> membersReplicas c !! m = Some r ->
                  h ∉ replicaHashes c m r) ->
     circle c' !! h = circle c !! h) /\
  (forall h m r, pruned c names ks m -> membersReplicas c !! m = Some r ->
     h ∈ replicaHashes c m r -> circle c' !! h = None).
Proof.
  revert c. induction ks as [|k ks IH]; intros c Hinv; cbn [forM].
  - intros [= <-]. split_and!; try done.
    + intros m (Hin&_). by apply elem_of_nil in Hin.
    + intros h m r (Hin&_). by apply elem_of_nil in Hin.
  - destruct (found_in k names) eqn:Hfound; cbn.
    { intros Hloop.
      destruct (IH c Hinv Hloop) as (Hi&Hcfg&Hg&Hk&Hsub&Hkeep&Hgone).
      apply found_in_true in Hfound.
      assert (forall m, pruned c names (k :: ks) m <-> pruned c names ks m) as Heq.
      { intros m. unfold pruned. rewrite elem_of_cons. split; [|tauto].
        intros ([->|?]&?&?); done. }
      split_and!; try done.
      - intros m Hm. by apply Hg, Heq.
      - intros m Hm. apply Hk. by rewrite <- Heq.
      - intros h Hh. apply Hkeep. intros m r Hm. apply Hh. by apply Heq.
      - intros h m r Hm. apply Hgone. by apply Heq. }
    apply found_in_false in Hfound.
    destruct (membersReplicas c !! k) as [v|] eqn:Hv; cbn.
    2:{ intros Hloop.
      destruct (IH c Hinv Hloop) as (Hi&Hcfg&Hg&Hk&Hsub&Hkeep&Hgone).
      assert (forall m, pruned c names (k :: ks) m <-> pruned c names ks m) as Heq.
      { intros m. unfold pruned. rewrite elem_of_cons. split; [|tauto].
        intros ([->|?]&?&Hs); [|done]. rewrite Hv in Hs. by destruct Hs. }
      split_and!; try done.
      - intros m Hm. by apply Hg, Heq.
      - intros m Hm. apply Hk. by rewrite <- Heq.
      - intros h Hh. apply Hkeep. intros m r Hm. apply Hh. by apply Heq.
      - intros h m r Hm. apply Hgone. by apply Heq. }
    destruct (remove c k v) as [c1|] eqn:Hrem; cbn; [|discriminate].
    intros Hloop.
    pose proof (remove_inv c k v c1 Hinv Hv Hrem) as Hinv1.
    apply remove_Ret in Hrem as (Hd&Hc1&Hm1&Hr1&Hs1&Hn1&Hcfg1).
    destruct (IH c1 Hinv1 Hloop) as (Hi&Hcfg&Hg&Hk&Hsub&Hkeep&Hgone).
    assert (forall m, m <> k ->
              pruned c names (k :: ks) m <-> pruned c1 names ks m) as Heq.
    { intros m Hne. unfold pruned. rewrite elem_of_cons, Hr1.
      rewrite lookup_delete_ne by done. split; [|tauto].
      intros ([->|?]&?&?); done. }
    assert (~ pruned c1 names ks k) as Hk1.
    { intros (_&_&Hs). rewrite Hr1, lookup_delete_eq in Hs. by destruct Hs. }
    split_and!.
    + done.
    + by eapply same_config_trans.
    + intros m Hm. destruct (decide (m = k)) as [->|Hne].
      * destruct (Hk k Hk1) as [-> ->].
        by rewrite Hm1, Hr1, !lookup_delete_eq.
      * by apply Hg, Heq.
    + intros m Hm. destruct (decide (m = k)) as [->|Hne].
      * destruct Hm. split_and!; [apply list_elem_of_here|done|eauto].
      * destruct (Hk m) as [-> ->]; [by rewrite <- Heq|].
        by rewrite Hm1, Hr1, !lookup_delete_ne.
    + intros h o Ho%Hsub. rewrite Hc1 in Ho. by case_decide.
    + intros h Hh. rewrite Hkeep.
      * rewrite Hc1. rewrite decide_False; [done|].
        apply (Hh k v); [|done].
        split_and!; [apply list_elem_of_here|done|eauto].
      * intros m r Hm Hr. rewrite (replicaHashes_same c c1) by done.
        destruct (decide (m = k)) as [->|Hne]; [done|].
        apply Hh; [by apply Heq|].
        by rewrite Hr1, lookup_delete_ne in Hr.
    + intros h m r Hm Hr Hin. destruct (decide (m = k)) as [->|Hne].
      * destruct (circle c' !! h) as [o|] eqn:Ho; [|done].
        apply Hsub in Ho. rewrite Hc1 in Ho.
        assert (r = v) as -> by congruence.
        by rewrite decide_True in Ho.
      * apply (Hgone h m r); [by apply Heq| |].
        -- by rewrite Hr1, lookup_delete_ne.
        -- by rewrite (replicaHashes_same c c1).
Qed.
End set_loops.

Section set_loops_add.
Context `{rt : GoRuntime} {A : Type} (name : A -> string) (rep : Z -> A -> Z).

Lemma grow_loop (vs : list A) c c' :
  ring_inv c ->
  forM (fun c v =>
          match members c !! name v with
          | Some _ => Ret c
          | None => add c (name v) (rep (defaultNumberOfReplicas c) v)
          end) c vs = Ret c' ->
  ring_inv c' /\ same_config c c' /\
  dom (members c') = dom (members c) ∪ list_to_set (name <$> vs) /\
  (forall m, is_Some (members c !! m) ->
     membersReplicas c' !! m = membersReplicas c !! m) /\
  (forall m, members c !! m = None -> m ∈ name <$> vs ->
     exists v, v ∈ vs /\ name v = m /\
       membersReplicas c' !! m = Some (rep (defaultNumberOfReplicas c) v)) /\
  (forall h o, circle c' !! h = Some o ->
     circle c !! h = Some o \/ (members c !! o = None /\ o ∈ name <$> vs)) /\
  (forall h,
     (forall m r, members c !! m = None -> m ∈ name <$> vs ->
        membersReplicas c' !! m = Some r -> h ∉ replicaHashes c m r) ->
     circle c' !! h = circle c !! h) /\
  (forall h, is_Some (circle c !! h) -> is_Some (circle c' !! h)) /\
  (forall h m r, members c !! m = None -> m ∈ name <$> vs ->
     membersReplicas c' !! m = Some r -> h ∈ replicaHashes c m r ->
     is_Some (circle c' !! h)).
Proof.
  revert c. induction vs as [|v vs IH]; intros c Hinv; cbn [forM].
  - intros [= <-]. rewrite fmap_nil. split_and!; try done.
    + by rewrite list_to_set_nil, union_empty_r_L.
    + intros m _ Hm. by apply elem_of_nil in Hm.
    + intros h o Ho. by left.
    + intros h m r _ Hm. by apply elem_of_nil in Hm.
  - rewrite fmap_cons. destruct (members c !! name v) as [b|] eqn:Hv; cbn.
    { intros Hloop.
      destruct (IH c Hinv Hloop) as (Hi&Hcfg&Hdom&Hold&Hnew&Hsub&Hkeep&Hmono&Hpos).
      assert (forall m, members c !! m = None -> m ∈ name v :: (name <$> vs) ->
                        m ∈ name <$> vs) as Htail.
      { intros m Hm [->|?]%elem_of_cons; [congruence|done]. }
      split_and!; try done.
      - rewrite Hdom, ?list_to_set_cons. apply elem_of_dom_2 in Hv.
        apply set_eq. intros x.
        rewrite !elem_of_union, elem_of_singleton. split.
        + intros [?|?]; [by left|right; by right].
        + intros [?|[->|?]]; [by left|by left|by right].
      - intros m Hm Hin. destruct (Hnew m Hm (Htail m Hm Hin)) as (v'&?&?&?).
        exists v'. split_and!; try done. by apply list_elem_of_further.
      - intros h o Ho. destruct (Hsub h o Ho) as [?|[? ?]]; [by left|right].
        split; [done|]. by apply list_elem_of_further.
      - intros h Hh. apply Hkeep. intros m r Hm Hin. apply Hh; [done|].
        by apply list_elem_of_further.
      - intros h m r Hm Hin. apply Hpos; [done|]. by apply Htail. }
    destruct (add c (name v) _) as [c1|] eqn:Hadd; cbn; [|discriminate].
    intros Hloop.
    pose proof (add_inv c _ _ c1 Hinv Hv Hadd) as Hinv1.
    apply add_Ret in Hadd as (Hd&Hc1&Hm1&Hr1&Hs1&Hn1&Hcfg1).
    destruct (IH c1 Hinv1 Hloop) as (Hi&Hcfg&Hdom&Hold&Hnew&Hsub&Hkeep&Hmono&Hpos).
    assert (Hdef : defaultNumberOfReplicas c1 = defaultNumberOfReplicas c)
      by apply Hcfg1.
    assert (Hv' : membersReplicas c' !! name v
                  = Some (rep (defaultNumberOfReplicas c) v)).
    { rewrite Hold; [by rewrite Hr1, lookup_insert_eq|].
      rewrite Hm1, lookup_insert_eq. eauto. }
    assert (forall m, members c !! m = None -> m <> name v ->
                      members c1 !! m = None) as Hfresh1.
    { intros m Hm Hne. by rewrite Hm1, lookup_insert_ne. }
    split_and!.
    + done.
    + by eapply same_config_trans.
    + rewrite Hdom, Hm1, dom_insert_L, ?list_to_set_cons.
      apply set_eq. intros x.
      rewrite !elem_of_union, elem_of_singleton. tauto.
    + intros m Hm. assert (m <> name v) by (intros ->; rewrite Hv in Hm; by destruct Hm).
      rewrite Hold; [by rewrite Hr1, lookup_insert_ne|].
      by rewrite Hm1, lookup_insert_ne.
    + intros m Hm Hin. destruct (decide (m = name v)) as [->|Hne].
      * exists v. split_and!; [apply list_elem_of_here|done|done].
      * apply elem_of_cons in Hin as [?|Hin]; [done|].
        destruct (Hnew m (Hfresh1 m Hm Hne) Hin) as (v'&?&?&Hr').
        exists v'. rewrite Hdef in Hr'.
        split_and!; try done. by apply list_elem_of_further.
    + intros h o Ho. destruct (Hsub h o Ho) as [Ho1|[Ho1 Hin]].
      * rewrite Hc1 in Ho1. case_decide; [|by left].
        injection Ho1 as <-. right. split; [done|apply list_elem_of_here].
      * right. split; [|by apply list_elem_of_further].
        destruct (decide (o = name v)) as [->|Hne]; [done|].
        by rewrite Hm1, lookup_insert_ne in Ho1.
    + intros h Hh. rewrite Hkeep.
      * rewrite Hc1, decide_False; [done|].
        apply Hh; [done|apply list_elem_of_here|done].
      * intros m r Hm Hin Hr. rewrite (replicaHashes_same c c1) by done.
        assert (m <> name v) by (intros ->; by rewrite Hm1, lookup_insert_eq in Hm).
        apply Hh; [|by apply list_elem_of_further|done].
        by rewrite Hm1, lookup_insert_ne in Hm.
    + intros h Hh. apply Hmono. rewrite Hc1. case_decide; eauto.
    + intros h m r Hm Hin Hr Hh. destruct (decide (m = name v)) as [->|Hne].
      * apply Hmono. rewrite Hc1. rewrite Hv' in Hr. injection Hr as <-.
        rewrite decide_True by done. eauto.
      * apply elem_of_cons in Hin as [?|Hin]; [done|].
        apply (Hpos h m r); [by apply Hfresh1|done|done|].
        by rewrite (replicaHashes_same c c1).
Qed.
End set_loops_add.

Section reachable_states.
Context `{rt : GoRuntime}.

Lemma Set_inv c elts c' : ring_inv c -> Set_ c elts = Ret c' -> ring_inv c'.
Proof.
  intros Hinv. unfold Set_.
  destruct (forM _ c (rangeMembers (members c))) as [c1|] eqn:H1; cbn;
    [|discriminate].
  apply prune_loop in H1 as (Hinv1&_); [|done].
  intros H2. by apply (grow_loop id (fun d _ => d)) in H2 as (?&_).
Qed.

Lemma SetWithReplicas_inv c elts c' :
  ring_inv c -> SetWithReplicas c elts = Ret c' -> ring_inv c'.
Proof.
  intros Hinv. unfold SetWithReplicas.
  destruct (forM _ c (rangeMembers (members c))) as [c1|] eqn:H1; cbn;
    [|discriminate].
  apply prune_loop in H1 as (Hinv1&_); [|done].
  intros H2.
  by apply (grow_loop Elt
              (fun d v => if decide (NumberOfReplicas v = 0) then d
                          else NumberOfReplicas v)) in H2 as (?&_).
Qed.

Lemma step_inv c o c' : ring_inv c -> step c o = Ret c' -> ring_inv c'.
Proof.
  intros Hinv. destruct o as [elt rs|elt|elts|elts]; cbn.
  - by apply Add_inv.
  - destruct (Remove c elt) as [[c1 b]|] eqn:Hr; cbn; [|discriminate].
    intros [= <-]. by eapply Remove_inv.
  - by apply Set_inv.
  - by apply SetWithReplicas_inv.
Qed.

Lemma reachable_inv c : reachable c -> ring_inv c.
Proof.
  induction 1 as [conf|c o c' _ IH Hstep]; [apply New_inv|].
  by eapply step_inv.
Qed.

Lemma run_reachable c ops c' :
  reachable c -> run c ops = Ret c' -> reachable c'.
Proof.
  unfold run. revert c. induction ops as [|o ops IH]; intros c Hc; cbn.
  - by intros [= <-].
  - destruct (step c o) as [c1|] eqn:Hs; cbn; [|discriminate].
    apply IH. by eapply reachable_step.
Qed.
End reachable_states.

(** ** Binary search *)

Lemma Search_loop_spec (f : nat -> bool) (n : nat) :
  (forall x y, (x <= y < n)%nat -> f x = true -> f y = true) ->
  forall rounds i j,
    (i <= j <= n)%nat -> (j - i <= rounds)%nat ->
    (forall x, (x < i)%nat -> f x = false) ->
    (forall x, (j <= x < n)%nat -> f x = true) ->
    (i <= Search_loop rounds f i j <= j)%nat /\
    (forall x, (x < Search_loop rounds f i j)%nat -> f x = false) /\
    (forall x, (Search_loop rounds f i j <= x < n)%nat -> f x = true).
Proof.
  intros Hmono rounds. induction rounds as [|rounds IH]; intros i j Hij Hfuel Hlo Hhi.
  - cbn. assert (i = j) as -> by lia. split_and!; [lia|lia|done|done].
  - cbn [Search_loop]. destruct (decide (i < j)%nat) as [Hlt|Hge].
    2:{ assert (i = j) as -> by lia. split_and!; [lia|lia|done|done]. }
    pose proof (Nat.div_mod_eq (i + j) 2) as Hdiv.
    pose proof (Nat.mod_upper_bound (i + j) 2) as Hmod.
    set (h := ((i + j) / 2)%nat) in *.
    assert (i <= h < j)%nat as Hh by lia.
    destruct (f h) eqn:Hfh; cbn [negb].
    + destruct (IH i h) as (Hr&Hl&Hu); [lia|lia|done| |].
      { intros x Hx. apply (Hmono h x); [lia|done]. }
      split_and!; [lia|lia|done|done].
    + destruct (IH (h + 1)%nat j) as (Hr&Hl&Hu); [lia|lia| |done|].
      { intros x Hx. destruct (f x) eqn:Hfx; [|done].
        rewrite <- Hfh. symmetry. apply (Hmono x h); [lia|done]. }
      split_and!; [lia|lia|done|done].
Qed.

Lemma Search_spec (f : nat -> bool) (n : nat) :
  (forall x y, (x <= y < n)%nat -> f x = true -> f y = true) ->
  (Search n f <= n)%nat /\
  (forall x, (x < Search n f)%nat -> f x = false) /\
  (forall x, (Search n f <= x < n)%nat -> f x = true).
Proof.
  intros Hmono. unfold Search.
  destruct (Search_loop_spec f n Hmono n 0%nat n) as (Hr&Hl&Hu);
    [lia|lia|intros x Hx; lia|intros x Hx; lia|].
  split_and!; [lia|done|done].
Qed.

Lemma StronglySorted_lt_lookup (l : list Z) (i j : nat) (a b : Z) :
  StronglySorted Z.lt l -> l !! i = Some a -> l !! j = Some b ->
  (i < j)%nat -> a < b.
Proof.
  intros Hs. revert i j. induction Hs as [|x l Hs IH Hall]; intros i j Hi Hj Hij.
  - by rewrite lookup_nil in Hi.
  - destruct j as [|j]; [lia|]. cbn in Hj. destruct i as [|i]; cbn in Hi.
    + injection Hi as ->. rewrite Forall_forall in Hall.
      apply Hall. by eapply list_elem_of_lookup_2.
    + apply (IH i j); [done|done|lia].
Qed.

(** [search] finds the position that serves the key. *)
Lemma search_successor c key :
  data (sortedHashes c) = sorted_keys (circle c) -> circle c <> ∅ ->
  exists p, data (sortedHashes c) !! search c key = Some p /\
            successor (circle c) key p.
Proof.
  intros Hdata Hne. unfold search, len. rewrite Hdata.
  set (l := sorted_keys (circle c)).
  set (f := fun x : nat => match l !! x with
                           | Some v => bool_decide (v > key)
                           | None => false
                           end).
  pose proof (Sorted_lt_sorted_keys (circle c)) as Hsorted. fold l in Hsorted.
  assert (length l <> 0%nat) as Hlen.
  { intros H0. apply Hne, sorted_keys_nil_inv. by apply nil_length_inv. }
  assert (forall x y, (x <= y < length l)%nat -> f x = true -> f y = true) as Hmono.
  { intros x y Hxy. unfold f.
    destruct (l !! x) as [a|] eqn:Ha; [|done].
    destruct (lookup_lt_is_Some_2 l y) as [b Hb]; [lia|]. rewrite Hb.
    intros Hk%bool_decide_eq_true. apply bool_decide_eq_true.
    destruct (decide (x = y)) as [->|]; [congruence|].
    assert (a < b) by (apply (StronglySorted_lt_lookup l x y); [done..|lia]).
    lia. }
  destruct (Search_spec f (length l) Hmono) as (Hr&Hlo&Hhi).
  set (r := Search (length l) f) in *.
  assert (forall q, is_Some (circle c !! q) -> exists x, l !! x = Some q) as Hidx.
  { intros q Hq. apply list_elem_of_lookup_1. by apply elem_of_sorted_keys. }
  destruct (decide (length l <= r)%nat) as [Hwrap|Hin].
  - destruct (lookup_lt_is_Some_2 l 0%nat) as [p Hp]; [lia|].
    exists p. split; [done|]. split.
    + apply elem_of_sorted_keys. by eapply list_elem_of_lookup_2.
    + right. split.
      * intros q Hq. destruct (Hidx q Hq) as [x Hx].
        assert (f x = false) as Hfx.
        { apply Hlo. apply lookup_lt_Some in Hx. lia. }
        unfold f in Hfx. rewrite Hx in Hfx.
        apply bool_decide_eq_false in Hfx. lia.
      * intros q Hq. destruct (Hidx q Hq) as [x Hx].
        destruct x as [|x]; [rewrite Hp in Hx; injection Hx as ->; lia|].
        assert (p < q) by (apply (StronglySorted_lt_lookup l 0%nat (S x)); [done..|lia]).
        lia.
  - destruct (lookup_lt_is_Some_2 l r) as [p Hp]; [lia|].
    exists p. split; [done|]. split.
    + apply elem_of_sorted_keys. by eapply list_elem_of_lookup_2.
    + left. assert (f r = true) as Hfr by (apply Hhi; lia).
      unfold f in Hfr. rewrite Hp in Hfr. apply bool_decide_eq_true in Hfr.
      split; [lia|]. intros q Hq Hkq. destruct (Hidx q Hq) as [x Hx].
      destruct (decide (x < r)%nat) as [Hxr|Hxr].
      * assert (f x = false) as Hfx by (by apply Hlo).
        unfold f in Hfx. rewrite Hx in Hfx.
        apply bool_decide_eq_false in Hfx. lia.
      * destruct (decide (x = r)) as [->|]; [rewrite Hp in Hx; injection Hx as ->; lia|].
        assert (p < q) by (apply (StronglySorted_lt_lookup l r x); [done..|lia]).
        lia.
Qed.

Lemma successor_unique (m : gmap Z string) (key p q : Z) :
  successor m key p -> successor m key q -> p = q.
Proof.
  intros (Hp&[(Hkp&Hpmin)|(Hpall&Hpmin)]) (Hq&[(Hkq&Hqmin)|(Hqall&Hqmin)]).
  - specialize (Hpmin q Hq Hkq). specialize (Hqmin p Hp Hkp). lia.
  - specialize (Hqall p Hp). lia.
  - specialize (Hpall q Hq). lia.
  - specialize (Hpmin q Hq). specialize (Hqmin p Hp). lia.
Qed.

(** ** Lookups on a ring that satisfies the invariant *)

Lemma size_circle_nonempty c : size (circle c) <> 0%nat <-> circle c <> ∅.
Proof.
  split.
  - intros Hs He. by rewrite He, map_size_empty in Hs.
  - intros Hne Hs. by apply Hne, map_size_empty_inv.
Qed.

Lemma Get_successor c name :
  ring_inv c -> size (circle c) <> 0%nat ->
  exists p m, successor (circle c) (hashKey c name) p /\
              data (sortedHashes c) !! search c (hashKey c name) = Some p /\
              circle c !! p = Some m /\
              Get c name = Ret (m, None).
Proof.
  intros Hinv Hsz. unfold Get. rewrite decide_False by done.
  destruct (search_successor c (hashKey c name)) as (p&Hp&Hsucc);
    [apply Hinv|by apply size_circle_nonempty|].
  destruct Hsucc as [[m Hm] Hmin]. exists p, m.
  split_and!; [by split; eauto|done|done|].
  unfold index. rewrite Hp. cbn. unfold owner. by rewrite Hm.
Qed.

Lemma ring_of_reachable `{rt : GoRuntime} conf ops : reachable (ring_of conf ops).
Proof.
  unfold ring_of. destruct (run (New conf) ops) as [c|] eqn:Hrun.
  - eapply run_reachable; [apply reachable_New|done].
  - apply reachable_New.
Qed.

(** * Properties of the ring *)

(** ** [Get] *)

(** C2: on every ring that holds at least one position, [Get] returns
    without error the member that owns the least stored position strictly
    greater than the hash of the key, or, when no stored position is
    greater, the member that owns the least stored position of all. *)
Theorem Get_returns_successor `{rt : GoRuntime} (c : Consistent) (name : string) :
  reachable c -> size (circle c) <> 0%nat ->
  exists p m,
    circle c !! p = Some m /\
    Get c name = Ret (m, None) /\
    ((hashKey c name < p /\
      forall q, is_Some (circle c !! q) -> hashKey c name < q -> p <= q) \/
     ((forall q, is_Some (circle c !! q) -> q <= hashKey c name) /\
      forall q, is_Some (circle c !! q) -> p <= q)).
Proof.
  intros Hreach Hsz.
  destruct (Get_successor c name (reachable_inv c Hreach) Hsz)
    as (p&m&(_&Hsucc)&_&Hm&Hget).
  by exists p, m.
Qed.

Lemma Get_returns_successor_witness :
  exists p m,
    circle ring_ab !! p = Some m /\
    Get ring_ab "foo" = Ret (m, None) /\
    ((hashKey ring_ab "foo" < p /\
      forall q, is_Some (circle ring_ab !! q) -> hashKey ring_ab "foo" < q ->
                p <= q) \/
     ((forall q, is_Some (circle ring_ab !! q) -> q <= hashKey ring_ab "foo") /\
      forall q, is_Some (circle ring_ab !! q) -> p <= q)).
Proof.
  apply (@Get_returns_successor refRuntime ring_ab "foo").
  - apply ring_of_reachable.
  - by_inequality.
Defined.

(** ** [Set] *)

Lemma elem_of_rangeMembers `{rt : GoRuntime} (ms : gmap string bool) (m : string) :
  m ∈ rangeMembers ms <-> is_Some (ms !! m).
Proof.
  rewrite rangeMembers_perm, list_elem_of_fmap. split.
  - intros [[k v] [-> Hin]]. apply elem_of_map_to_list in Hin. eauto.
  - intros [v Hv]. exists (m, v). split; [done|]. by apply elem_of_map_to_list.
Qed.

Lemma inv_replicas_Some c m :
  ring_inv c -> is_Some (members c !! m) <-> is_Some (membersReplicas c !! m).
Proof. intros Hinv. rewrite <- !elem_of_dom. by rewrite (inv_replicas c Hinv). Qed.

(** C7, amended: after [Set(L)] the member set is exactly the set of
    names in [L]; a name of [L] that was not a member gets the default
    replica count; a member that stays keeps its replica count, gains no
    position, and keeps every position of its own whose hash is not a
    replica hash of a removed member (under that member's stored count)
    or of an added member (under the default count); the replica hashes
    of a removed member, taken with its stored count, are deleted, and a
    position found at one of them afterwards belongs to an added member;
    every replica hash of an added member is a stored position. *)
Theorem Set_reconciles `{rt : GoRuntime} (c : Consistent) (elts : list string) c' :
  reachable c -> Set_ c elts = Ret c' ->
  dom (members c') = list_to_set elts /\
  (forall m, m ∈ elts -> members c !! m = None ->
     membersReplicas c' !! m = Some (defaultNumberOfReplicas c)) /\
  (forall m, m ∈ elts -> is_Some (members c !! m) ->
     membersReplicas c' !! m = membersReplicas c !! m) /\
  (forall m, m ∉ elts -> membersReplicas c' !! m = None) /\
  (forall h m, is_Some (members c !! m) -> circle c' !! h = Some m ->
     circle c !! h = Some m) /\
  (forall h m, circle c !! h = Some m -> m ∈ elts ->
     (forall x r, x ∉ elts -> membersReplicas c !! x = Some r ->
                  h ∉ replicaHashes c x r) ->
     (forall x, x ∈ elts -> members c !! x = None ->
                h ∉ replicaHashes c x (defaultNumberOfReplicas c)) ->
     circle c' !! h = Some m) /\
  (forall h x r, x ∉ elts -> membersReplicas c !! x = Some r ->
     h ∈ replicaHashes c x r ->
     forall o, circle c' !! h = Some o -> members c !! o = None /\ o ∈ elts) /\
  (forall h x, x ∈ elts -> members c !! x = None ->
     h ∈ replicaHashes c x (defaultNumberOfReplicas c) ->
     is_Some (circle c' !! h)).
Proof.
  intros Hinv%reachable_inv. unfold Set_.
  destruct (forM _ c (rangeMembers (members c))) as [c1|] eqn:H1; cbn;
    [|discriminate].
  apply prune_loop in H1 as (Hinv1&Hcfg1&Hg1&Hk1&Hsub1&Hkeep1&Hgone1); [|done].
  intros H2.
  apply (grow_loop id (fun d _ => d)) in H2
    as (Hinv2&Hcfg2&Hdom2&Hold2&Hnew2&Hsub2&Hkeep2&Hmono2&Hpos2); [|done].
  rewrite list_fmap_id in Hdom2.
  assert (Hdef : defaultNumberOfReplicas c1 = defaultNumberOfReplicas c)
    by apply Hcfg1.
  assert (forall m, pruned c elts (rangeMembers (members c)) m <->
                    is_Some (members c !! m) /\ m ∉ elts) as Hpr.
  { intros m. unfold pruned. rewrite elem_of_rangeMembers.
    rewrite <- (inv_replicas_Some c m Hinv). tauto. }
  assert (forall m, m ∈ elts -> members c1 !! m = members c !! m /\
                    membersReplicas c1 !! m = membersReplicas c !! m) as Hin1.
  { intros m Hm. apply Hk1. rewrite Hpr. tauto. }
  assert (forall m, m ∉ elts -> members c1 !! m = None /\
                    membersReplicas c1 !! m = None) as Hout1.
  { intros m Hm. destruct (members c !! m) as [b|] eqn:Hb.
    - apply Hg1, Hpr. eauto.
    - destruct (Hk1 m) as [-> ->]; [rewrite Hpr; intros [[? ?] _]; congruence|].
      split; [done|]. by apply (inv_member_replicas c m Hinv). }
  split_and!.
  - rewrite Hdom2. apply set_eq. intros m.
    rewrite elem_of_union, elem_of_dom, elem_of_list_to_set. split; [|tauto].
    intros [Hm|Hm]; [|done]. destruct (decide (m ∈ elts)) as [|Hno]; [done|].
    destruct (Hout1 m Hno) as [Hn _]. rewrite Hn in Hm. by destruct Hm.
  - intros m Hm Hfresh. destruct (Hin1 m Hm) as [Hm1 _].
    destruct (Hnew2 m) as (v&_&_&Hv); [congruence|by rewrite list_fmap_id|].
    by rewrite Hv, Hdef.
  - intros m Hm Hold. destruct (Hin1 m Hm) as [Hm1 Hr1].
    rewrite Hold2; [done|by rewrite Hm1].
  - intros m Hm. destruct (Hout1 m Hm) as [Hm1 Hr1].
    apply (inv_member_replicas c' m Hinv2). apply not_elem_of_dom.
    rewrite Hdom2, elem_of_union, elem_of_dom, elem_of_list_to_set, Hm1.
    intros [[? ?]|?]; done.
  - intros h m Hold Hh. apply Hsub1.
    destruct (Hsub2 h m Hh) as [?|[Hfresh Hm]]; [done|].
    rewrite list_fmap_id in Hm.
    destruct (Hin1 m Hm) as [Hm1 _]. rewrite Hm1 in Hfresh.
    rewrite Hfresh in Hold. by destruct Hold.
  - intros h m Hh Hm Hrem Hadd. rewrite Hkeep2.
    + rewrite Hkeep1; [done|].
      intros x r [_ Hx]%Hpr Hr. by apply Hrem.
    + intros x r Hfresh Hx Hr. rewrite list_fmap_id in Hx.
      destruct (Hin1 x Hx) as [Hx1 _].
      destruct (Hnew2 x Hfresh) as (v&_&_&Hv); [by rewrite list_fmap_id|].
      rewrite (replicaHashes_same c c1) by done.
      assert (r = defaultNumberOfReplicas c) as -> by congruence.
      apply Hadd; [done|congruence].
  - intros h x r Hx Hr Hh o Ho.
    assert (circle c1 !! h = None) as Hnone.
    { apply (Hgone1 h x r); [|done|done]. apply Hpr. split; [|done].
      apply (inv_replicas_Some c x Hinv). eauto. }
    destruct (Hsub2 h o Ho) as [?|[Hfresh Hm]]; [congruence|].
    rewrite list_fmap_id in Hm. destruct (Hin1 o Hm) as [Ho1 _].
    split; [congruence|done].
  - intros h x Hx Hfresh Hh. destruct (Hin1 x Hx) as [Hx1 _].
    destruct (Hnew2 x) as (v&_&_&Hv); [congruence|by rewrite list_fmap_id|].
    apply (Hpos2 h x (defaultNumberOfReplicas c)).
    + congruence.
    + by rewrite list_fmap_id.
    + by rewrite Hv, Hdef.
    + by rewrite (replicaHashes_same c c1).
Qed.

Lemma Set_reconciles_witness :
  reachable (rt := refRuntime) ring_ab /\
  @Set_ refRuntime ring_ab ["bb"; "c"] =
    Ret (@ring_of refRuntime conf0
           [OpAdd "a" [2]; OpAdd "bb" [3]; OpSet ["bb"; "c"]]) /\
  dom (members (@ring_of refRuntime conf0
                  [OpAdd "a" [2]; OpAdd "bb" [3]; OpSet ["bb"; "c"]]))
    = list_to_set ["bb"; "c"].
Proof.
  assert (reachable (rt := refRuntime) ring_ab) as Hreach
    by apply ring_of_reachable.
  assert (@Set_ refRuntime ring_ab ["bb"; "c"] =
          Ret (@ring_of refRuntime conf0
                 [OpAdd "a" [2]; OpAdd "bb" [3]; OpSet ["bb"; "c"]])) as Hset
    by (vm_compute; reflexivity).
  split_and!; [done|done|].
  exact (proj1 (@Set_reconciles refRuntime ring_ab ["bb"; "c"] _ Hreach Hset)).
Defined.

(** C7 as first stated fails: [Set] keeps "buckeroo" and removes
    "plumless", whose replica hash is the position that "buckeroo" owns;
    the member that stays loses its only position. *)
Lemma Set_drops_position_of_kept_member :
  circle ring_collide !! 3770746672 = Some "buckeroo" /\
  exists c', @Set_ refRuntime ring_collide ["buckeroo"] = Ret c' /\
             members c' !! "buckeroo" = Some true /\
             circle c' !! 3770746672 = None.
Proof.
  split; [vm_compute; reflexivity|].
  eexists. split; [vm_compute; reflexivity|].
  split; vm_compute; reflexivity.
Qed.

(** ** Removing a member *)

Lemma Get_error_iff c name :
  ring_inv c ->
  (size (circle c) = 0%nat -> Get c name = Ret ("", Some ErrEmptyCircle)) /\
  (size (circle c) <> 0%nat ->
   exists p m, successor (circle c) (hashKey c name) p /\
               circle c !! p = Some m /\ Get c name = Ret (m, None)).
Proof.
  intros Hinv. split.
  - intros Hs. unfold Get. by rewrite decide_True.
  - intros Hs. destruct (Get_successor c name Hinv Hs) as (p&m&?&_&?&?). eauto.
Qed.

(** C1, amended: when a member is removed and every stored position that
    is one of its replica hashes belongs to it (no other member's
    position collides with them), a key either was served by the removed
    member or is served exactly as before; in particular, on a ring with
    members A, B and C, keys served by A or B before [Remove("C")] are
    still served by A or B. *)
Theorem Remove_remaps_only_own_keys `{rt : GoRuntime}
    (c : Consistent) (elt : string) (c' : Consistent) (name : string) :
  reachable c ->
  (forall r, membersReplicas c !! elt = Some r ->
             Forall (fun h => circle c !! h = None \/ circle c !! h = Some elt)
                    (replicaHashes c elt r)) ->
  Remove c elt = Ret (c', true) ->
  Get c name = Ret (elt, None) \/ Get c' name = Get c name.
Proof.
  intros Hinv%reachable_inv Hown. unfold Remove.
  destruct (members c !! elt) as [b|] eqn:Hb; [|discriminate].
  destruct (membersReplicas c !! elt) as [r|] eqn:Hr; [|discriminate].
  destruct (remove c elt r) as [c1|] eqn:Hrem; cbn; [|discriminate].
  intros [= ->].
  pose proof (remove_inv c elt r c' Hinv Hr Hrem) as Hinv'.
  apply remove_Ret in Hrem as (_&Hc'&_&_&_&_&Hcfg).
  assert (forall q, is_Some (circle c' !! q) -> is_Some (circle c !! q)) as Hsub.
  { intros q. rewrite Hc'. case_decide; [by intros [? ?]|done]. }
  destruct (Get_error_iff c name Hinv) as [Hempty Hfull].
  destruct (decide (size (circle c) = 0%nat)) as [Hs|Hs].
  - right. rewrite (Hempty Hs).
    apply (Get_error_iff c' name Hinv').
    apply map_size_empty_inv in Hs. apply map_size_empty_iff, map_empty.
    intros q. destruct (circle c' !! q) eqn:Hq; [|done].
    destruct (Hsub q) as [? Hq']; [eauto|]. by rewrite Hs, lookup_empty in Hq'.
  - destruct (Hfull Hs) as (p&m&Hsucc&Hm&Hget).
    destruct (decide (m = elt)) as [->|Hne]; [by left|right].
    assert (circle c' !! p = Some m) as Hm'.
    { rewrite Hc', decide_False; [done|]. intros Hin.
      specialize (Hown r eq_refl). rewrite Forall_forall in Hown.
      destruct (Hown p Hin) as [Hp|Hp]; congruence. }
    assert (size (circle c') <> 0%nat) as Hs'.
    { intros H0%map_size_empty_inv. by rewrite H0, lookup_empty in Hm'. }
    destruct (Get_error_iff c' name Hinv') as [_ Hfull'].
    destruct (Hfull' Hs') as (p'&m'&Hsucc'&Hmp'&Hget').
    rewrite (hashKey_same c c') in Hsucc' by done.
    assert (successor (circle c') (hashKey c name) p) as Hsuccp.
    { destruct Hsucc as (_&[(Hk&Hmin)|(Hall&Hmin)]).
      - split; [eauto|]. left. split; [done|]. intros q Hq. by apply Hmin, Hsub.
      - split; [eauto|]. right. split; intros q Hq; [apply Hall|apply Hmin];
          by apply Hsub. }
    assert (p' = p) as -> by (by eapply successor_unique).
    rewrite Hget, Hget'. congruence.
Qed.

Lemma Remove_remaps_only_own_keys_witness :
  @Remove refRuntime ring_abc "C" =
    Ret (@ring_of refRuntime conf0
           [OpAdd "A" [2]; OpAdd "B" [2]; OpAdd "C" [2]; OpRemove "C"], true) /\
  (Get ring_abc "foo" = Ret ("C", None) \/
   Get (@ring_of refRuntime conf0
          [OpAdd "A" [2]; OpAdd "B" [2]; OpAdd "C" [2]; OpRemove "C"]) "foo"
   = Get ring_abc "foo").
Proof.
  assert (@Remove refRuntime ring_abc "C" =
          Ret (@ring_of refRuntime conf0
                 [OpAdd "A" [2]; OpAdd "B" [2]; OpAdd "C" [2]; OpRemove "C"],
               true)) as Hrem by (vm_compute; reflexivity).
  split; [exact Hrem|].
  apply (@Remove_remaps_only_own_keys refRuntime ring_abc "C" _ "foo").
  - apply ring_of_reachable.
  - intros r Hr. vm_compute in Hr. injection Hr as <-.
    by_evaluation.
  - exact Hrem.
Defined.

(** C1 as first stated fails: "buckeroo" was added after "plumless" and
    owns the position on which both hash; the key "foo" is served by
    "buckeroo" before "plumless" is removed and by "b" afterwards. *)
Lemma Remove_remaps_key_of_other_member :
  Get ring_collide3 "foo" = Ret ("buckeroo", None) /\
  exists c', @Remove refRuntime ring_collide3 "plumless" = Ret (c', true) /\
             Get c' "foo" = Ret ("b", None).
Proof.
  split; [vm_compute; reflexivity|].
  eexists. split; vm_compute; reflexivity.
Qed.

(** ** The empty ring *)

(** C3: while the ring holds no position (a fresh ring holds none),
    [Get], [GetTwo] and [GetN] return the empty-circle error and no
    member, for every key, every [n] and every amount of fuel; once a
    position exists, no result of theirs carries that error. *)
Theorem empty_circle_error (c : Consistent) (name : string) :
  (forall conf, size (circle (New conf)) = 0%nat) /\
  (size (circle c) = 0%nat ->
     Get c name = Ret ("", Some ErrEmptyCircle) /\
     (forall fuel, GetTwo fuel c name = Some (Ret ("", "", Some ErrEmptyCircle))) /\
     (forall fuel n, GetN fuel c name n = Some (Ret ([], Some ErrEmptyCircle)))) /\
  (size (circle c) <> 0%nat ->
     (forall m e, Get c name = Ret (m, e) -> e = None) /\
     (forall fuel a b e, GetTwo fuel c name = Some (Ret (a, b, e)) -> e = None) /\
     (forall fuel n res e, GetN fuel c name n = Some (Ret (res, e)) -> e = None)).
Proof.
  split_and!.
  - intros conf. cbn. apply map_size_empty.
  - intros Hs. unfold Get, GetTwo, GetN.
    destruct (decide (size (circle c) = 0%nat)); done.
  - intros Hs. unfold Get, GetTwo, GetN.
    destruct (decide (size (circle c) = 0%nat)) as [|_]; [done|].
    split_and!.
    + intros m e. destruct (index _ _); cbn; congruence.
    + intros fuel a b e.
      repeat first
        [ case_decide
        | match goal with
          | |- context [match ?x with _ => _ end] => destruct x
          end ]; congruence.
    + intros fuel n res e.
      repeat first
        [ case_decide
        | match goal with
          | |- context [match ?x with _ => _ end] => destruct x
          end ]; congruence.
Qed.

Lemma empty_circle_error_witness :
  Get (New conf0) "k" = Ret ("", Some ErrEmptyCircle) /\
  (forall m e, Get ring_ab "k" = Ret (m, e) -> e = None).
Proof.
  split.
  - apply (empty_circle_error (New conf0) "k"). reflexivity.
  - apply (empty_circle_error ring_ab "k"). by_inequality.
Defined.

(** ** Adding a member twice *)

(** C6: [Add] of a name that is already a member returns the ring as it
    was, whatever replica count is passed; so a second [Add] of the same
    name changes nothing. *)
Theorem Add_existing_member_noop `{rt : GoRuntime} (c : Consistent) (x : string) :
  (is_Some (members c !! x) -> forall rs, Add c x rs = Ret c) /\
  (forall rs rs' c1, Add c x rs = Ret c1 -> Add c1 x rs' = Ret c1).
Proof.
  assert (forall c0, is_Some (members c0 !! x) -> forall rs, Add c0 x rs = Ret c0)
    as Hnoop.
  { intros c0 [b Hb] rs. unfold Add. by rewrite Hb. }
  split; [apply Hnoop|].
  intros rs rs' c1 Hadd. apply Hnoop. revert Hadd. unfold Add.
  destruct (members c !! x) as [b|] eqn:Hb.
  - intros [= <-]. eauto.
  - intros (_&_&Hm&_)%add_Ret. rewrite Hm, lookup_insert_eq. eauto.
Qed.

Lemma Add_existing_member_noop_witness :
  @Add refRuntime (@ring_of refRuntime conf0 [OpAdd "x" [10]]) "x" [10]
  = Ret (@ring_of refRuntime conf0 [OpAdd "x" [10]]) /\
  @Add refRuntime ring_ab "a" [7] = Ret ring_ab.
Proof.
  split.
  - apply (proj2 (@Add_existing_member_noop refRuntime (New conf0) "x") [10] [10]).
    vm_compute. reflexivity.
  - apply (proj1 (@Add_existing_member_noop refRuntime ring_ab "a")).
    vm_compute. eauto.
Defined.

(** ** The sorted hashes and the position map *)



(** ** Replica positions *)

Lemma Remove_member `{rt : GoRuntime} c elt r :
  members c !! elt = Some true -> membersReplicas c !! elt = Some r ->
  Remove c elt = (c' ← remove c elt r; Ret (c', true)).
Proof. intros Hm Hr. unfold Remove. by rewrite Hm, Hr. Qed.



(** ** Members without positions *)

Lemma Add_nonpositive `{rt : GoRuntime} c name r c1 :
  r <= 0 -> members c !! name = None -> Add c name [r] = Ret c1 ->
  circle c1 = circle c /\ members c1 = <[name := true]> (members c) /\
  membersReplicas c1 = <[name := r]> (membersReplicas c) /\
  count c1 = wrap64 (count c + 1).
Proof.
  intros Hr Hfresh. unfold Add. rewrite Hfresh.
  intros (_&Hc1&Hm1&Hr1&_&Hn1&_)%add_Ret. split_and!; try done.
  apply map_eq. intros h. rewrite Hc1, replicaHashes_nonpos by done.
  rewrite decide_False; [done|apply not_elem_of_nil].
Qed.

(** C10: [Add] of a new name with a replica count [r <= 0] records the
    name as a member (it is among [Members], the counter grows by one,
    [r] is its stored count) and inserts no position; after any sequence
    of such calls on a fresh ring the member set is not empty and [Get],
    [GetTwo] and [GetN] still return the empty-circle error. *)
Theorem Add_without_positions `{rt : GoRuntime} :
  (forall c name r c1,
     r <= 0 -> members c !! name = None -> Add c name [r] = Ret c1 ->
     circle c1 = circle c /\
     members c1 !! name = Some true /\
     name ∈ Members c1 /\
     membersReplicas c1 !! name = Some r /\
     count c1 = wrap64 (count c + 1)) /\
  (forall conf (adds : list (string * Z)) c key,
     Forall (fun a => a.2 <= 0) adds -> adds <> [] ->
     run (New conf) ((fun a => OpAdd a.1 [a.2]) <$> adds) = Ret c ->
     members c <> ∅ /\
     Get c key = Ret ("", Some ErrEmptyCircle) /\
     (forall fuel, GetTwo fuel c key = Some (Ret ("", "", Some ErrEmptyCircle))) /\
     (forall fuel n, GetN fuel c key n = Some (Ret ([], Some ErrEmptyCircle)))).
Proof.
  split.
  - intros c name r c1 Hr Hfresh Hadd.
    destruct (Add_nonpositive c name r c1 Hr Hfresh Hadd) as (Hc&Hm&Hmr&Hn).
    split_and!; try done.
    + by rewrite Hm, lookup_insert_eq.
    + unfold Members. apply elem_of_rangeMembers.
      rewrite Hm, lookup_insert_eq. eauto.
    + by rewrite Hmr, lookup_insert_eq.
  - intros conf adds c key Hall Hne Hrun.
    assert (forall c0, circle c0 = ∅ ->
              run c0 ((fun a => OpAdd a.1 [a.2]) <$> adds) = Ret c ->
              circle c = ∅ /\
              forall a, a ∈ adds -> is_Some (members c !! a.1)) as Hgen.
    { clear Hrun Hne. induction Hall as [|[name r] adds Hr Hall IH];
        intros c0 Hc0; unfold run; cbn.
      - intros [= <-]. split; [done|]. by intros a ?%elem_of_nil.
      - destruct (Add c0 name [r]) as [c1|] eqn:Hadd; cbn; [|discriminate].
        intros Hrun.
        assert (circle c1 = ∅ /\ is_Some (members c1 !! name)) as [Hc1 Hm1].
        { revert Hadd. unfold Add. destruct (members c0 !! name) as [b|] eqn:Hb.
          - intros [= <-]. eauto.
          - intros Hadd. pose proof Hadd as (_&_&Hm&_)%add_Ret.
            assert (Add c0 name [r] = Ret c1) as Hadd'
              by (unfold Add; by rewrite Hb).
            destruct (Add_nonpositive c0 name r c1 Hr Hb Hadd') as (Hc&_).
            split; [congruence|]. rewrite Hm, lookup_insert_eq. eauto. }
        destruct (IH c1 Hc1 Hrun) as [Hc Hmem]. split; [done|].
        intros a [->|Ha]%elem_of_cons; [|by apply Hmem]. cbn.
        clear IH Hmem Hc. revert Hm1 Hrun. generalize c1.
        induction adds as [|[name' r'] adds IHa]; intros c2 Hm2; unfold run; cbn.
        + by intros [= <-].
        + destruct (Add c2 name' [r']) as [c3|] eqn:Hadd3; cbn; [|discriminate].
          apply IHa; [by inversion Hall|].
          revert Hadd3. unfold Add. destruct (members c2 !! name') as [b|] eqn:Hb.
          * by intros [= <-].
          * intros (_&_&Hm&_)%add_Ret. rewrite Hm.
            destruct (decide (name' = name)) as [->|Hne'].
            -- rewrite lookup_insert_eq. eauto.
            -- by rewrite lookup_insert_ne. }
    destruct (Hgen (New conf)) as [Hc Hmem]; [done|done|].
    assert (size (circle c) = 0%nat) as Hs by (by rewrite Hc, map_size_empty).
    split.
    + destruct adds as [|a adds]; [done|].
      destruct (Hmem a) as [b Hb]; [apply list_elem_of_here|].
      intros He. by rewrite He, lookup_empty in Hb.
    + unfold Get, GetTwo, GetN.
      destruct (decide (size (circle c) = 0%nat)); done.
Qed.

Lemma Add_without_positions_witness :
  @run refRuntime (New conf0) [OpAdd "x" [0]; OpAdd "y" [-3]]
  = Ret (@ring_of refRuntime conf0 [OpAdd "x" [0]; OpAdd "y" [-3]]) /\
  members (@ring_of refRuntime conf0 [OpAdd "x" [0]; OpAdd "y" [-3]]) <> ∅ /\
  Get (@ring_of refRuntime conf0 [OpAdd "x" [0]; OpAdd "y" [-3]]) "k"
  = Ret ("", Some ErrEmptyCircle).
Proof.
  assert (@run refRuntime (New conf0) [OpAdd "x" [0]; OpAdd "y" [-3]]
          = Ret (@ring_of refRuntime conf0 [OpAdd "x" [0]; OpAdd "y" [-3]]))
    as Hrun by (vm_compute; reflexivity).
  split; [exact Hrun|].
  destruct (proj2 (@Add_without_positions refRuntime) conf0
              [("x", 0); ("y", -3)]
              (@ring_of refRuntime conf0 [OpAdd "x" [0]; OpAdd "y" [-3]]) "k")
    as (Hm&Hget&_).
  - apply Forall_cons; split; [cbn; lia|].
    apply Forall_cons; split; [cbn; lia|]. apply Forall_nil_2.
  - discriminate.
  - exact Hrun.
  - split; [exact Hm|exact Hget].
Defined.

(** ** The walk of [GetTwo] and [GetN] round the ring *)

Lemma Search_loop_bounds (f : nat -> bool) rounds i j :
  (i <= j)%nat -> (i <= Search_loop rounds f i j <= j)%nat.
Proof.
  revert i j. induction rounds as [|rounds IH]; intros i j Hij;
    cbn [Search_loop]; [lia|].
  destruct (decide (i < j)%nat) as [Hlt|]; [|lia].
  pose proof (Nat.div_mod_eq (i + j) 2) as Hdiv.
  pose proof (Nat.mod_upper_bound (i + j) 2) as Hmod.
  destruct (f ((i + j) / 2)%nat); cbn [negb].
  - specialize (IH i ((i + j) / 2)%nat). lia.
  - specialize (IH ((i + j) / 2 + 1)%nat j). lia.
Qed.

Lemma search_lt c key :
  len (sortedHashes c) <> 0%nat -> (search c key < len (sortedHashes c))%nat.
Proof. intros Hlen. unfold search. case_decide; lia. Qed.

Lemma length_ring_from c s : length (ring_from c s) = len (sortedHashes c).
Proof.
  unfold ring_from, len. rewrite length_app, length_drop, length_take. lia.
Qed.

Lemma ring_from_lookup c s j :
  (s < len (sortedHashes c))%nat -> (j < len (sortedHashes c))%nat ->
  ring_from c s !! j =
  data (sortedHashes c) !!
    (if decide (len (sortedHashes c) <= loop_var (len (sortedHashes c)) s j)%nat
     then 0%nat else loop_var (len (sortedHashes c)) s j).
Proof.
  unfold ring_from, loop_var, len. intros Hs Hj.
  set (l := data (sortedHashes c)) in *.
  destruct (decide (j < length l - s)%nat) as [Hlt|Hge].
  - rewrite lookup_app_l by (rewrite length_drop; lia).
    rewrite lookup_drop. repeat case_decide; try lia. done.
  - rewrite lookup_app_r by (rewrite length_drop; lia).
    rewrite length_drop, lookup_take_lt by lia.
    repeat case_decide; try lia; f_equal; lia.
Qed.

(** One step of the walk: the position met at the [j]-th test of the
    loop condition is the one the body reads. *)
Lemma ring_walk_cons c s j q rest :
  (s < len (sortedHashes c))%nat ->
  drop j (ring_from c s) = q :: rest ->
  (j < len (sortedHashes c))%nat /\
  data (sortedHashes c) !!
    (if decide (len (sortedHashes c) <= loop_var (len (sortedHashes c)) s j)%nat
     then 0%nat else loop_var (len (sortedHashes c)) s j) = Some q /\
  drop (j + 1) (ring_from c s) = rest.
Proof.
  intros Hs Hdrop.
  assert (j < len (sortedHashes c))%nat as HjL.
  { rewrite <- (length_ring_from c s).
    destruct (decide (j < length (ring_from c s))%nat); [done|].
    rewrite drop_ge in Hdrop by lia. done. }
  split_and!; [done| |].
  - rewrite <- ring_from_lookup by done.
    rewrite <- (Nat.add_0_r j), <- lookup_drop, Hdrop. done.
  - rewrite <- (drop_drop (ring_from c s) 1 j), Hdrop. done.
Qed.

Lemma loop_var_next L s j :
  (s < L)%nat -> (1 <= j < L)%nat ->
  ((if decide (L <= loop_var L s j)%nat then 0 else loop_var L s j) + 1)%nat
  = loop_var L s (j + 1).
Proof. intros Hs Hj. unfold loop_var. repeat case_decide; lia. Qed.

Lemma loop_var_ne L s j : (s < L)%nat -> (1 <= j < L)%nat -> loop_var L s j <> s.
Proof. intros Hs Hj. unfold loop_var. case_decide; lia. Qed.

Lemma sliceContainsMember_true res x : sliceContainsMember res x = true <-> x ∈ res.
Proof.
  induction res as [|m res IH]; cbn.
  - split; [done|]. by intros ?%elem_of_nil.
  - case_decide as Hm.
    + subst. split; [intros _; apply list_elem_of_here|done].
    + rewrite IH. split; [apply list_elem_of_further|].
      intros [?|?]%elem_of_cons; [congruence|done].
Qed.

(** The loop of [GetN] returns what [collect] computes as soon as the
    wanted number of members is met on the way. *)
Lemma GetN_loop_collect c n s :
  (s < len (sortedHashes c))%nat ->
  forall rest j res fuel,
    (1 <= j)%nat -> drop j (ring_from c s) = rest ->
    Z.of_nat (length res) <> n ->
    Z.of_nat (length (collect n res (owner c <$> rest))) = n ->
    (length rest < fuel)%nat ->
    GetN_loop fuel c n s (loop_var (len (sortedHashes c)) s j) res
    = Some (Ret (collect n res (owner c <$> rest))).
Proof.
  intros Hs rest. induction rest as [|h rest IH];
    intros j res fuel Hj Hdrop Hres Hfin Hfuel.
  - cbn in Hfin. lia.
  - destruct (ring_walk_cons c s j h rest Hs Hdrop) as (HjL&Hh&Hnext).
    destruct fuel as [|fuel]; [cbn in Hfuel; lia|]. cbn [GetN_loop].
    rewrite decide_False by (apply loop_var_ne; lia).
    unfold index. rewrite Hh. cbn [fmap list_fmap collect] in Hfin |- *.
    set (res' := if sliceContainsMember res (owner c h) then res
                 else res ++ [owner c h]) in *.
    destruct (decide (Z.of_nat (length res') = n)) as [Hn|Hn]; [done|].
    rewrite loop_var_next by lia.
    apply IH; [lia|done|done|done|cbn in Hfuel; lia].
Qed.

Lemma visits_prefix (walk res : list string) :
  exists ext,
    foldl (fun res elem => if sliceContainsMember res elem then res
                           else res ++ [elem]) res walk = res ++ ext.
Proof.
  revert res. induction walk as [|x walk IH]; intros res; cbn.
  - exists []. by rewrite app_nil_r.
  - destruct (sliceContainsMember res x); [apply IH|].
    destruct (IH (res ++ [x])) as [ext ->]. exists (x :: ext).
    by rewrite <- app_assoc.
Qed.

Lemma visits_NoDup (walk res : list string) :
  NoDup res ->
  NoDup (foldl (fun res elem => if sliceContainsMember res elem then res
                                else res ++ [elem]) res walk).
Proof.
  revert res. induction walk as [|x walk IH]; intros res Hnd; cbn; [done|].
  destruct (sliceContainsMember res x) eqn:Hx; apply IH; [done|].
  apply NoDup_app. split_and!; [done| |apply NoDup_singleton].
  intros y Hy ->%list_elem_of_singleton.
  apply sliceContainsMember_true in Hy. congruence.
Qed.

Lemma visits_elem_of (walk res : list string) (y : string) :
  y ∈ foldl (fun res elem => if sliceContainsMember res elem then res
                             else res ++ [elem]) res walk
  <-> y ∈ res \/ y ∈ walk.
Proof.
  revert res. induction walk as [|x walk IH]; intros res; cbn.
  - split; [by left|]. intros [?|?%elem_of_nil]; done.
  - rewrite IH, elem_of_cons. destruct (sliceContainsMember res x) eqn:Hx.
    + apply sliceContainsMember_true in Hx. split; [tauto|].
      intros [?|[->|?]]; tauto.
    + rewrite elem_of_app, list_elem_of_singleton. tauto.
Qed.

Lemma collect_take (walk res : list string) (n : nat) :
  (length res < n)%nat ->
  (n <= length (foldl (fun res elem => if sliceContainsMember res elem then res
                                       else res ++ [elem]) res walk))%nat ->
  collect (Z.of_nat n) res walk =
  take n (foldl (fun res elem => if sliceContainsMember res elem then res
                                 else res ++ [elem]) res walk).
Proof.
  revert res. induction walk as [|x walk IH]; intros res Hlt Hle; cbn in *; [lia|].
  set (res' := if sliceContainsMember res x then res else res ++ [x]) in *.
  assert (length res' <= S (length res))%nat as Hstep.
  { unfold res'. destruct (sliceContainsMember res x); [lia|].
    rewrite length_app. cbn. lia. }
  destruct (decide (Z.of_nat (length res') = Z.of_nat n)) as [Hn|Hn].
  - destruct (visits_prefix walk res') as [ext ->].
    rewrite take_app_length'; [done|lia].
  - apply IH; [lia|done].
Qed.

Lemma first_visits_cons (x : string) (walk : list string) :
  first_visits (x :: walk) =
  foldl (fun res elem => if sliceContainsMember res elem then res
                         else res ++ [elem]) [x] walk.
Proof. reflexivity. Qed.

Lemma first_visits_head (x : string) (walk : list string) :
  exists ext, first_visits (x :: walk) = x :: ext.
Proof. rewrite first_visits_cons. apply (visits_prefix walk [x]). Qed.

Lemma first_visits_NoDup (walk : list string) : NoDup (first_visits walk).
Proof. apply visits_NoDup, NoDup_nil_2. Qed.

Lemma first_visits_elem_of (walk : list string) (y : string) :
  y ∈ first_visits walk <-> y ∈ walk.
Proof.
  unfold first_visits. rewrite visits_elem_of. split; [|by right].
  intros [?%elem_of_nil|?]; done.
Qed.

Lemma ring_from_perm c s : ring_from c s ≡ₚ data (sortedHashes c).
Proof.
  unfold ring_from. rewrite (comm (++)), take_drop. done.
Qed.

(** When every member owns a position, the walk round the ring meets
    exactly the members. *)
Lemma length_first_visits c s :
  ring_inv c ->
  (forall m, is_Some (members c !! m) -> exists h, circle c !! h = Some m) ->
  length (first_visits (owner c <$> ring_from c s)) = size (members c).
Proof.
  intros Hinv Hall.
  rewrite <- (length_map_to_list (members c)).
  rewrite <- (length_fmap fst (map_to_list (members c))).
  apply Permutation_length, NoDup_Permutation.
  - apply first_visits_NoDup.
  - apply NoDup_fst_map_to_list.
  - intros m. rewrite first_visits_elem_of, !list_elem_of_fmap. split.
    + intros (h&->&Hh). rewrite ring_from_perm, (inv_sorted c Hinv) in Hh.
      apply elem_of_sorted_keys in Hh as [o Ho].
      destruct (inv_owner c Hinv h o Ho) as (r&Hr&_).
      assert (is_Some (members c !! o)) as [b Hb]
        by (apply (inv_replicas_Some c o Hinv); eauto).
      exists (o, b). split; [|by apply elem_of_map_to_list].
      unfold owner. by rewrite Ho.
    + intros ([k b]&->&Hin). apply elem_of_map_to_list in Hin. cbn.
      destruct (Hall k) as [h Hh]; [eauto|].
      exists h. split; [unfold owner; by rewrite Hh|].
      rewrite ring_from_perm, (inv_sorted c Hinv).
      apply elem_of_sorted_keys. eauto.
Qed.

(** C4, amended: on a ring in which every member owns at least one
    position, for every key and every [n >= 1], [GetN] returns, without
    error, pairwise distinct members, as many as the smaller of [n] and
    the number of members; the first is the result of [Get], and the
    list is a prefix of the members in the order in which a walk
    forward from that position, wrapping round, first meets them. *)
Theorem GetN_distinct_members `{rt : GoRuntime}
    (c : Consistent) (name : string) (n : Z) :
  reachable c ->
  (forall m, is_Some (members c !! m) -> exists h, circle c !! h = Some m) ->
  size (circle c) <> 0%nat ->
  1 <= n ->
  Z.of_nat (size (members c)) < 2 ^ 63 ->
  exists fuel res m,
    (forall fuel', (fuel <= fuel')%nat ->
       GetN fuel' c name n = Some (Ret (res, None))) /\
    NoDup res /\
    Z.of_nat (length res) = Z.min n (Z.of_nat (size (members c))) /\
    Get c name = Ret (m, None) /\
    head res = Some m /\
    res = take (length res)
            (first_visits (owner c <$> ring_from c (search c (hashKey c name)))).
Proof.
  intros Hinv%reachable_inv Hall Hsz Hn Hbound.
  destruct (Get_successor c name Hinv Hsz) as (p&m&_&Hp&Hm&Hget).
  set (s := search c (hashKey c name)) in *.
  assert (s < len (sortedHashes c))%nat as Hs by (by eapply lookup_lt_Some).
  assert (count c = Z.of_nat (size (members c))) as Hcount.
  { rewrite (inv_count c Hinv). apply wrap64_small. lia. }
  assert (owner c p = m) as Hown by (unfold owner; by rewrite Hm).
  assert (ring_from c s = p :: drop 1 (ring_from c s)) as Hwalk.
  { assert (ring_from c s !! 0%nat = Some p) as H0.
    { rewrite ring_from_lookup by lia. unfold loop_var.
      repeat case_decide; try lia. by rewrite Nat.add_0_r. }
    destruct (ring_from c s) as [|q l]; [done|]. cbn in H0 |- *.
    rewrite drop_0. congruence. }
  set (D := first_visits (owner c <$> ring_from c s)).
  assert (length D = size (members c)) as HD by (by apply length_first_visits).
  assert (exists ext, D = m :: ext) as [ext HDm].
  { unfold D. rewrite Hwalk, fmap_cons, Hown. apply first_visits_head. }
  assert (1 <= size (members c))%nat as Hpos by (rewrite <- HD, HDm; cbn; lia).
  set (n' := Z.min n (Z.of_nat (size (members c)))).
  assert ((if decide (count c < n) then count c else n) = n') as Hn'.
  { unfold n'. rewrite Hcount. case_decide; lia. }
  exists (S (len (sortedHashes c))), (take (Z.to_nat n') D), m.
  assert (length (take (Z.to_nat n') D) = Z.to_nat n') as Hlen
    by (rewrite length_take; lia).
  split_and!.
  - intros fuel' Hfuel. unfold GetN. rewrite decide_False by done.
    rewrite Hn'. rewrite decide_False by lia. fold s.
    unfold index. rewrite Hp, Hown. cbn [app length].
    destruct (decide (Z.of_nat 1 = n')) as [H1|H1].
    + do 3 f_equal. replace (Z.to_nat n') with 1%nat by lia. by rewrite HDm.
    + replace (s + 1)%nat with (loop_var (len (sortedHashes c)) s 1)
        by (unfold loop_var; rewrite decide_True; lia).
      assert (collect n' [m] (owner c <$> drop 1 (ring_from c s))
              = take (Z.to_nat n') D) as Hcol.
      { unfold D. rewrite Hwalk at 2. rewrite fmap_cons, Hown, first_visits_cons.
        rewrite <- (Z2Nat.id n') at 1 by lia.
        apply collect_take; [cbn; lia|].
        rewrite <- first_visits_cons, <- Hown, <- fmap_cons, <- Hwalk.
        fold D. lia. }
      rewrite (GetN_loop_collect c n' s Hs (drop 1 (ring_from c s)) 1 [m] fuel');
        [by rewrite Hcol|lia|done|cbn; lia|rewrite Hcol; lia|].
      rewrite length_drop, length_ring_from. lia.
  - eapply sublist_NoDup; [apply first_visits_NoDup|apply sublist_take].
  - lia.
  - done.
  - rewrite HDm. destruct (Z.to_nat n') as [|k] eqn:Hk; [lia|done].
  - by rewrite Hlen.
Qed.

(** A check by computation that every member owns a position. *)
Lemma members_placed_check (c : Consistent) :
  Forall (fun m => m ∈ (map_to_list (circle c)).*2) (map_to_list (members c)).*1 ->
  forall m, is_Some (members c !! m) -> exists h, circle c !! h = Some m.
Proof.
  rewrite Forall_forall. intros Hall m [b Hb].
  assert (m ∈ (map_to_list (circle c)).*2) as Hin.
  { apply Hall, list_elem_of_fmap. exists (m, b). split; [done|].
    by apply elem_of_map_to_list. }
  apply list_elem_of_fmap in Hin as ([h o]&->&Hin).
  apply elem_of_map_to_list in Hin. eauto.
Qed.

Lemma GetN_distinct_members_witness :
  exists fuel res m,
    (forall fuel', (fuel <= fuel')%nat ->
       GetN fuel' ring_ab "foo" 10 = Some (Ret (res, None))) /\
    NoDup res /\
    Z.of_nat (length res) = Z.min 10 (Z.of_nat (size (members ring_ab))) /\
    Get ring_ab "foo" = Ret (m, None) /\
    head res = Some m /\
    res = take (length res)
            (first_visits (owner ring_ab <$>
               ring_from ring_ab (search ring_ab (hashKey ring_ab "foo")))).
Proof.
  apply (@GetN_distinct_members refRuntime ring_ab "foo" 10).
  - apply ring_of_reachable.
  - apply members_placed_check.
    by_evaluation.
  - by_inequality.
  - lia.
  - vm_compute. reflexivity.
Defined.

(** C4 as first stated fails.  With [n = 0] the loop never meets its
    stopping length and the walk returns every member it saw, two
    members for a bound of zero; with a negative [n] the allocation of
    the result panics; and on a ring with a member that owns no
    position the result, one member, is shorter than the number of
    members, two, although [n] exceeds it. *)
Lemma GetN_ignores_nonpositive_bound :
  GetN 10 ring_ab "foo" 0 = Some (Ret (["a"; "bb"], None)) /\
  GetN 10 ring_ab "foo" (-1) = Some Panic /\
  size (members ring_x0aa) = 2%nat /\
  GetN 10 ring_x0aa "fo" 5 = Some (Ret (["a"], None)).
Proof. split_and!; vm_compute; reflexivity. Qed.

(** ** [GetTwo] on a ring whose positions all belong to one member *)

Lemma GetTwo_loop_spins (c : Consistent) (a : string) :
  data (sortedHashes c) <> [] ->
  (forall h, h ∈ data (sortedHashes c) -> owner c h = a) ->
  forall fuel i b, i <> 0%nat -> GetTwo_loop fuel c a 0 i b = None.
Proof.
  intros Hne Hall fuel. induction fuel as [|fuel IH]; intros i b Hi; [done|].
  cbn [GetTwo_loop]. rewrite decide_False by done.
  set (x := if decide (len (sortedHashes c) <= i)%nat then 0%nat else i).
  assert (x < len (sortedHashes c))%nat as Hx.
  { unfold x, len. destruct (data (sortedHashes c)); [done|].
    case_decide; cbn in *; lia. }
  destruct (lookup_lt_is_Some_2 (data (sortedHashes c)) x Hx) as [h Hh].
  unfold index. rewrite Hh.
  rewrite (Hall h) by (by eapply list_elem_of_lookup_2).
  rewrite decide_False by (intros Hc; by apply Hc).
  apply IH. lia.
Qed.

(** C5, at the failing input: a ring with a member that has no position
    ("x", added with zero replicas) beside a member with one position.
    The member counter is 2, so the single-member shortcut is not taken,
    and the walk finds no second owner; started at index 0 it passes the
    reset to 0 and the increment without ever meeting its stopping
    test: [GetTwo] runs out of every amount of fuel, for every key. *)
Theorem GetTwo_never_returns (fuel : nat) (name : string) :
  GetTwo fuel ring_x0a name = None.
Proof.
  assert (data (sortedHashes ring_x0a) = [2754246082]) as Hdata
    by (vm_compute; reflexivity).
  assert (search ring_x0a (hashKey ring_x0a name) = 0%nat) as Hs.
  { pose proof (search_lt ring_x0a (hashKey ring_x0a name)) as Hlt.
    unfold len in Hlt. rewrite Hdata in Hlt. cbn in Hlt. lia. }
  unfold GetTwo. rewrite Hs.
  rewrite decide_False by (vm_compute; discriminate).
  unfold index. rewrite Hdata. cbn [lookup list_lookup].
  rewrite decide_False by (vm_compute; discriminate).
  rewrite GetTwo_loop_spins; [done| | |done].
  - by rewrite Hdata.
  - rewrite Hdata. intros h ->%list_elem_of_singleton. vm_compute. reflexivity.
Qed.

(** ** [GetTwo] in general *)

(** The walk of [GetTwo] stops at the first position whose owner differs
    from [a]. *)
Lemma GetTwo_loop_finds c a s :
  (s < len (sortedHashes c))%nat ->
  forall pre j b fuel h post,
    (1 <= j)%nat -> drop j (ring_from c s) = pre ++ h :: post ->
    Forall (fun q => owner c q = a) pre -> owner c h <> a ->
    (length pre < fuel)%nat ->
    GetTwo_loop fuel c a s (loop_var (len (sortedHashes c)) s j) b
    = Some (Ret (owner c h)).
Proof.
  intros Hs pre. induction pre as [|q pre IH];
    intros j b fuel h post Hj Hdrop Hpre Hh Hfuel.
  - destruct (ring_walk_cons c s j h post Hs Hdrop) as (HjL&Hjh&_).
    destruct fuel as [|fuel]; [cbn in Hfuel; lia|]. cbn [GetTwo_loop].
    rewrite decide_False by (apply loop_var_ne; lia).
    unfold index. rewrite Hjh. by rewrite decide_True.
  - destruct (ring_walk_cons c s j q (pre ++ h :: post) Hs Hdrop)
      as (HjL&Hjq&Hnext).
    apply Forall_cons in Hpre as [Hq Hpre].
    destruct fuel as [|fuel]; [cbn in Hfuel; lia|]. cbn [GetTwo_loop].
    rewrite decide_False by (apply loop_var_ne; lia).
    unfold index. rewrite Hjq, Hq.
    rewrite decide_False by (intros Hc; by apply Hc).
    rewrite loop_var_next by lia.
    apply (IH (j + 1)%nat a fuel h post); [lia|done|done|done|cbn in Hfuel; lia].
Qed.

(** When no other owner is met and the walk did not start at index 0,
    the loop comes back to its start and is left with [b] equal to [a]
    (or untouched when nothing was visited). *)
Lemma GetTwo_loop_comes_back c a s :
  (s < len (sortedHashes c))%nat -> s <> 0%nat ->
  forall rest j b fuel,
    (1 <= j <= len (sortedHashes c))%nat -> drop j (ring_from c s) = rest ->
    Forall (fun q => owner c q = a) rest ->
    (length rest < fuel)%nat ->
    GetTwo_loop fuel c a s (loop_var (len (sortedHashes c)) s j) b
    = Some (Ret (if decide (rest = []) then b else a)).
Proof.
  intros Hs Hs0 rest. induction rest as [|q rest IH];
    intros j b fuel Hj Hdrop Hall Hfuel.
  - assert (j = len (sortedHashes c)) as ->.
    { apply (f_equal length) in Hdrop.
      rewrite length_drop, length_ring_from in Hdrop. cbn in Hdrop. lia. }
    destruct fuel as [|fuel]; [lia|]. cbn [GetTwo_loop].
    assert (loop_var (len (sortedHashes c)) s (len (sortedHashes c)) = s) as ->
      by (unfold loop_var; case_decide; lia).
    by rewrite decide_True.
  - destruct (ring_walk_cons c s j q rest Hs Hdrop) as (HjL&Hjq&Hnext).
    apply Forall_cons in Hall as [Hq Hall].
    destruct fuel as [|fuel]; [cbn in Hfuel; lia|]. cbn [GetTwo_loop].
    rewrite decide_False by (apply loop_var_ne; lia).
    unfold index. rewrite Hjq, Hq.
    rewrite decide_False by (intros Hc; by apply Hc).
    rewrite loop_var_next by lia.
    rewrite (IH (j + 1)%nat a fuel); [|lia|done|done|cbn in Hfuel; lia].
    by repeat case_decide.
Qed.

(** ** Panics of the mutators *)

Section totality.
Context `{rt : GoRuntime}.

Lemma prune_loop_total (names ks : list string) c :
  divisor_ok c ->
  exists c', forM (fun c k =>
                     if found_in k names then Ret c
                     else match membersReplicas c !! k with
                          | Some v => remove c k v
                          | None => Ret c
                          end) c ks = Ret c' /\ same_config c c'.
Proof.
  revert c. induction ks as [|k ks IH]; intros c Hd; cbn [forM].
  - exists c. split; [done|apply same_config_refl].
  - destruct (found_in k names); cbn; [by apply IH|].
    destruct (membersReplicas c !! k) as [v|]; cbn; [|by apply IH].
    destruct (remove_total c k v Hd) as [c1 Hc1]. rewrite Hc1. cbn.
    pose proof Hc1 as (_&_&_&_&_&_&Hcfg)%remove_Ret.
    destruct (IH c1) as (c'&Hc'&Hcfg'); [by eapply divisor_ok_same|].
    exists c'. split; [done|by eapply same_config_trans].
Qed.

Lemma grow_loop_total {A} (name : A -> string) (rep : Z -> A -> Z) vs c :
  divisor_ok c ->
  exists c', forM (fun c v =>
                     match members c !! name v with
                     | Some _ => Ret c
                     | None => add c (name v) (rep (defaultNumberOfReplicas c) v)
                     end) c vs = Ret c'.
Proof.
  revert c. induction vs as [|v vs IH]; intros c Hd; cbn [forM]; [eauto|].
  destruct (members c !! name v); cbn; [by apply IH|].
  destruct (add_total c (name v) (rep (defaultNumberOfReplicas c) v) Hd)
    as [c1 Hc1].
  rewrite Hc1. cbn. pose proof Hc1 as (_&_&_&_&_&_&Hcfg)%add_Ret.
  apply IH. by eapply divisor_ok_same.
Qed.

Lemma step_total c o : divisor_ok c -> exists c', step c o = Ret c'.
Proof.
  intros Hd. destruct o as [elt rs|elt|elts|elts]; cbn.
  - unfold Add. destruct (members c !! elt); [eauto|]. by apply add_total.
  - unfold Remove. destruct (members c !! elt); cbn; [|eauto].
    destruct (membersReplicas c !! elt) as [r|]; cbn; [|eauto].
    destruct (remove_total c elt r Hd) as [c1 ->]. cbn. eauto.
  - unfold Set_.
    destruct (prune_loop_total elts (rangeMembers (members c)) c Hd)
      as (c1&->&Hcfg). cbn.
    apply (grow_loop_total id (fun d _ => d)). by eapply divisor_ok_same.
  - unfold SetWithReplicas.
    destruct (prune_loop_total (Elt <$> elts) (rangeMembers (members c)) c Hd)
      as (c1&->&Hcfg). cbn.
    apply (grow_loop_total Elt
             (fun d v => if decide (NumberOfReplicas v = 0) then d
                         else NumberOfReplicas v)).
    by eapply divisor_ok_same.
Qed.

Lemma step_same_config c o c' :
  ring_inv c -> step c o = Ret c' -> same_config c c'.
Proof.
  intros Hinv. destruct o as [elt rs|elt|elts|elts]; cbn.
  - unfold Add. destruct (members c !! elt).
    + intros [= <-]. apply same_config_refl.
    + by intros (_&_&_&_&_&_&?)%add_Ret.
  - unfold Remove. destruct (members c !! elt); cbn;
      [|intros [= <-]; apply same_config_refl].
    destruct (membersReplicas c !! elt) as [r|]; cbn;
      [|intros [= <-]; apply same_config_refl].
    destruct (remove c elt r) as [c1|] eqn:Hrem; cbn; [|discriminate].
    intros [= <-]. by apply remove_Ret in Hrem as (_&_&_&_&_&_&?).
  - unfold Set_.
    destruct (forM _ c (rangeMembers (members c))) as [c1|] eqn:H1; cbn;
      [|discriminate].
    apply prune_loop in H1 as (Hinv1&Hcfg1&_); [|done].
    intros H2. apply (grow_loop id (fun d _ => d)) in H2 as (_&Hcfg2&_); [|done].
    by eapply same_config_trans.
  - unfold SetWithReplicas.
    destruct (forM _ c (rangeMembers (members c))) as [c1|] eqn:H1; cbn;
      [|discriminate].
    apply prune_loop in H1 as (Hinv1&Hcfg1&_); [|done].
    intros H2.
    apply (grow_loop Elt
             (fun d v => if decide (NumberOfReplicas v = 0) then d
                         else NumberOfReplicas v)) in H2 as (_&Hcfg2&_); [|done].
    by eapply same_config_trans.
Qed.

Lemma run_total c ops :
  ring_inv c -> divisor_ok c -> exists c', run c ops = Ret c'.
Proof.
  unfold run. revert c. induction ops as [|o ops IH]; intros c Hinv Hd;
    cbn [forM]; [eauto|].
  destruct (step_total c o Hd) as [c1 Hc1]. rewrite Hc1. cbn.
  apply IH; [by eapply step_inv|].
  eapply divisor_ok_same; [|done]. by eapply step_same_config.
Qed.
End totality.

(** X1: the mutators return on every ring whose default replica count,
    multiplied by four in 64-bit arithmetic, is not zero; on the other
    rings the index rebuild divides by zero, so every call that changes
    the member set panics. *)
Theorem mutators_return_unless_zero_divisor `{rt : GoRuntime} :
  (forall conf ops,
     wrap64 (defaultNumberOfReplicas (New conf) * 4) <> 0 ->
     exists c, run (New conf) ops = Ret c) /\
  (forall c elt rs,
     wrap64 (defaultNumberOfReplicas c * 4) = 0 ->
     members c !! elt = None -> Add c elt rs = Panic) /\
  (forall c elt r,
     wrap64 (defaultNumberOfReplicas c * 4) = 0 ->
     is_Some (members c !! elt) -> membersReplicas c !! elt = Some r ->
     Remove c elt = Panic).
Proof.
  split_and!.
  - intros conf ops Hd. apply run_total; [apply New_inv|done].
  - intros c elt rs Hd Hfresh. unfold Add. rewrite Hfresh. unfold add.
    rewrite updateSortedHashes_Panic; [done|].
    unfold divisor_ok. rewrite insert_loop. cbn. intros Hc. by apply Hc.
  - intros c elt r Hd [b Hb] Hr. unfold Remove. rewrite Hb, Hr. unfold remove.
    rewrite updateSortedHashes_Panic; [done|].
    unfold divisor_ok. rewrite delete_loop. cbn. intros Hc. by apply Hc.
Qed.

Lemma mutators_return_unless_zero_divisor_witness :
  (exists c, @run refRuntime (New conf0) [OpAdd "a" [2]; OpSet ["b"]] = Ret c) /\
  @Add refRuntime (New conf_zero_divisor) "x" [1] = Panic.
Proof.
  split.
  - apply (proj1 (@mutators_return_unless_zero_divisor refRuntime)).
    by_inequality.
  - apply (proj1 (proj2 (@mutators_return_unless_zero_divisor refRuntime))).
    + vm_compute. reflexivity.
    + reflexivity.
Defined.

(** ** What [GetTwo] returns *)

(** X2: on a ring with a position, [GetTwo] returns the result of [Get] and,
    when the member counter is 1, the empty string; otherwise the owner
    of the first position, walking forward from the one that serves the
    key and wrapping round, whose owner is another member. *)
Theorem GetTwo_returns_next_distinct `{rt : GoRuntime}
    (c : Consistent) (name : string) :
  reachable c -> size (circle c) <> 0%nat ->
  exists a,
    Get c name = Ret (a, None) /\
    (count c = 1 ->
       forall fuel, GetTwo fuel c name = Some (Ret (a, "", None))) /\
    (count c <> 1 ->
       forall pre h post,
         drop 1 (ring_from c (search c (hashKey c name))) = pre ++ h :: post ->
         Forall (fun q => owner c q = a) pre -> owner c h <> a ->
         forall fuel, (length pre < fuel)%nat ->
           GetTwo fuel c name = Some (Ret (a, owner c h, None))).
Proof.
  intros Hinv%reachable_inv Hsz.
  destruct (Get_successor c name Hinv Hsz) as (p&a&_&Hp&Ha&Hget).
  assert (owner c p = a) as Hown by (unfold owner; by rewrite Ha).
  assert (search c (hashKey c name) < len (sortedHashes c))%nat as Hs
    by (by eapply lookup_lt_Some).
  exists a. split_and!; [done| |].
  - intros Hone fuel. unfold GetTwo. rewrite decide_False by done.
    unfold index. rewrite Hp, Hown. by rewrite decide_True.
  - intros Hmany pre h post Hdrop Hpre Hh fuel Hfuel. unfold GetTwo.
    rewrite decide_False by done. unfold index. rewrite Hp, Hown.
    rewrite decide_False by done.
    replace (search c (hashKey c name) + 1)%nat
      with (loop_var (len (sortedHashes c)) (search c (hashKey c name)) 1)
      by (unfold loop_var; rewrite decide_True; lia).
    by rewrite (GetTwo_loop_finds c a _ Hs pre 1 "" fuel h post).
Qed.

Lemma GetTwo_returns_next_distinct_witness :
  exists a,
    Get ring_ab "foo" = Ret (a, None) /\
    (count ring_ab = 1 ->
       forall fuel, GetTwo fuel ring_ab "foo" = Some (Ret (a, "", None))) /\
    (count ring_ab <> 1 ->
       forall pre h post,
         drop 1 (ring_from ring_ab (search ring_ab (hashKey ring_ab "foo")))
         = pre ++ h :: post ->
         Forall (fun q => owner ring_ab q = a) pre -> owner ring_ab h <> a ->
         forall fuel, (length pre < fuel)%nat ->
           GetTwo fuel ring_ab "foo" = Some (Ret (a, owner ring_ab h, None))).
Proof.
  apply (@GetTwo_returns_next_distinct refRuntime ring_ab "foo").
  - apply ring_of_reachable.
  - by_inequality.
Defined.

(** X3: on a ring whose positions all belong to one member [a] while the
    member counter is not 1, [GetTwo] does not return when the walk
    starts at index 0, and returns [a] twice when it starts elsewhere. *)
Theorem GetTwo_single_owner `{rt : GoRuntime}
    (c : Consistent) (name : string) (a : string) :
  reachable c -> size (circle c) <> 0%nat -> count c <> 1 ->
  Forall (fun q => owner c q = a) (data (sortedHashes c)) ->
  (search c (hashKey c name) = 0%nat ->
     forall fuel, GetTwo fuel c name = None) /\
  (search c (hashKey c name) <> 0%nat ->
     forall fuel, (len (sortedHashes c) <= fuel)%nat ->
       GetTwo fuel c name = Some (Ret (a, a, None))).
Proof.
  intros Hinv%reachable_inv Hsz Hmany Hall.
  destruct (Get_successor c name Hinv Hsz) as (p&a'&_&Hp&Ha&Hget).
  assert (owner c p = a) as Hown.
  { rewrite Forall_forall in Hall. apply Hall. by eapply list_elem_of_lookup_2. }
  assert (search c (hashKey c name) < len (sortedHashes c))%nat as Hs
    by (by eapply lookup_lt_Some).
  split.
  - intros H0 fuel. unfold GetTwo. rewrite decide_False by done.
    unfold index. rewrite Hp, Hown. rewrite decide_False by done.
    rewrite H0. rewrite GetTwo_loop_spins; [done| |by apply Forall_forall|done].
    intros Hnil. rewrite Hnil in Hp. by rewrite lookup_nil in Hp.
  - intros H0 fuel Hfuel. unfold GetTwo. rewrite decide_False by done.
    unfold index. rewrite Hp, Hown. rewrite decide_False by done.
    set (s := search c (hashKey c name)) in *.
    replace (s + 1)%nat with (loop_var (len (sortedHashes c)) s 1)
      by (unfold loop_var; rewrite decide_True; lia).
    rewrite (GetTwo_loop_comes_back c a s Hs H0 (drop 1 (ring_from c s)) 1 "" fuel);
      [|lia|done| |].
    + rewrite decide_False; [done|].
      intros Hnil%(f_equal length).
      rewrite length_drop, length_ring_from in Hnil. cbn in Hnil. lia.
    + apply Forall_forall. intros q Hq. rewrite Forall_forall in Hall.
      apply Hall. rewrite <- (ring_from_perm c s).
      rewrite <- (take_drop 1 (ring_from c s)). apply elem_of_app. by right.
    + rewrite length_drop, length_ring_from. lia.
Qed.

Lemma GetTwo_single_owner_witness :
  (search ring_x0aa (hashKey ring_x0aa "foo") = 0%nat ->
     forall fuel, GetTwo fuel ring_x0aa "foo" = None) /\
  (search ring_x0aa (hashKey ring_x0aa "fo") <> 0%nat ->
     forall fuel, (len (sortedHashes ring_x0aa) <= fuel)%nat ->
       GetTwo fuel ring_x0aa "fo" = Some (Ret ("a", "a", None))).
Proof.
  split.
  - apply (@GetTwo_single_owner refRuntime ring_x0aa "foo" "a").
    + apply ring_of_reachable.
    + by_inequality.
    + by_inequality.
    + by_evaluation.
  - apply (@GetTwo_single_owner refRuntime ring_x0aa "fo" "a").
    + apply ring_of_reachable.
    + by_inequality.
    + by_inequality.
    + by_evaluation.
Defined.

(** ** [GetN] when the wanted number of members cannot be met *)

Lemma GetN_loop_spins (c : Consistent) (n : Z) :
  data (sortedHashes c) <> [] ->
  (n < 1 \/
   Z.of_nat (length (first_visits (owner c <$> data (sortedHashes c)))) < n) ->
  forall fuel i res,
    i <> 0%nat -> res <> [] -> NoDup res ->
    (forall x, x ∈ res -> x ∈ owner c <$> data (sortedHashes c)) ->
    GetN_loop fuel c n 0 i res = None.
Proof.
  intros Hne Hn fuel. induction fuel as [|fuel IH];
    intros i res Hi Hres Hnd Hsub; [done|].
  cbn [GetN_loop]. rewrite decide_False by done.
  set (x := if decide (len (sortedHashes c) <= i)%nat then 0%nat else i).
  assert (x < len (sortedHashes c))%nat as Hx.
  { unfold x, len. destruct (data (sortedHashes c)); [done|].
    case_decide; cbn in *; lia. }
  destruct (lookup_lt_is_Some_2 (data (sortedHashes c)) x Hx) as [h Hh].
  unfold index. rewrite Hh.
  set (res' := if sliceContainsMember res (owner c h) then res
               else res ++ [owner c h]).
  assert (res' <> [] /\ NoDup res' /\
          forall y, y ∈ res' -> y ∈ owner c <$> data (sortedHashes c))
    as (Hres'&Hnd'&Hsub').
  { unfold res'. destruct (sliceContainsMember res (owner c h)) eqn:Hc;
      [done|]. split_and!.
    - by destruct res.
    - apply NoDup_app. split_and!; [done| |apply NoDup_singleton].
      intros y Hy ->%list_elem_of_singleton.
      apply sliceContainsMember_true in Hy. congruence.
    - intros y [Hy| ->%list_elem_of_singleton]%elem_of_app; [by apply Hsub|].
      apply list_elem_of_fmap_2. by eapply list_elem_of_lookup_2. }
  assert (1 <= length res' <=
          length (first_visits (owner c <$> data (sortedHashes c))))%nat as Hlen.
  { split; [destruct res'; [done|cbn; lia]|].
    apply submseteq_length, NoDup_submseteq; [done|].
    intros y Hy. apply first_visits_elem_of. by apply Hsub'. }
  rewrite decide_False by lia.
  apply IH; [lia|done..].
Qed.

(** X4: when the walk of [GetN] starts at index 0 and the wanted number of
    members, [n] capped by the member counter, is zero or exceeds the
    number of members that own a position, [GetN] does not return. *)
Theorem GetN_never_returns_from_index_0 `{rt : GoRuntime}
    (c : Consistent) (name : string) (n : Z) :
  reachable c -> size (circle c) <> 0%nat ->
  search c (hashKey c name) = 0%nat ->
  (Z.min n (count c) = 0 \/
   Z.of_nat (length (first_visits (owner c <$> data (sortedHashes c))))
   < Z.min n (count c)) ->
  forall fuel, GetN fuel c name n = None.
Proof.
  intros Hinv%reachable_inv Hsz H0 Hn fuel.
  destruct (Get_successor c name Hinv Hsz) as (p&a&_&Hp&Ha&Hget).
  assert (data (sortedHashes c) <> []) as Hne.
  { intros Hnil. rewrite Hnil in Hp. by rewrite lookup_nil in Hp. }
  unfold GetN. rewrite decide_False by done.
  assert ((if decide (count c < n) then count c else n) = Z.min n (count c))
    as -> by (case_decide; lia).
  rewrite decide_False by lia. unfold index. rewrite Hp. cbn [app length].
  assert (1 <= length (first_visits (owner c <$> data (sortedHashes c))))%nat.
  { destruct (data (sortedHashes c)) as [|q l]; [done|]. rewrite fmap_cons.
    destruct (first_visits_head (owner c q) (owner c <$> l)) as [ext ->].
    cbn. lia. }
  rewrite decide_False by lia. rewrite H0.
  rewrite GetN_loop_spins; [done|done|lia|done|done|apply NoDup_singleton|].
  intros x ->%list_elem_of_singleton.
  apply list_elem_of_fmap_2. by eapply list_elem_of_lookup_2.
Qed.

Lemma GetN_never_returns_from_index_0_witness :
  GetN 1000 ring_x0a "k" 2 = None /\ GetN 1000 ring_x0a "k" 0 = None.
Proof.
  split.
  - apply (@GetN_never_returns_from_index_0 refRuntime ring_x0a "k" 2).
    + apply ring_of_reachable.
    + by_inequality.
    + vm_compute. reflexivity.
    + right. vm_compute. reflexivity.
  - apply (@GetN_never_returns_from_index_0 refRuntime ring_x0a "k" 0).
    + apply ring_of_reachable.
    + by_inequality.
    + vm_compute. reflexivity.
    + left. vm_compute. reflexivity.
Defined.

(** ** Further properties of the mutators *)

(** X5: in every state of a ring the members are exactly the names with a
    stored replica count, the counter is the number of members (in
    64-bit arithmetic), and every position belongs to a member and is
    one of the replica hashes of that member under its stored count. *)
Theorem ring_state_consistent `{rt : GoRuntime} (c : Consistent) :
  reachable c ->
  dom (members c) = dom (membersReplicas c) /\
  count c = wrap64 (Z.of_nat (size (members c))) /\
  (forall h m, circle c !! h = Some m ->
     is_Some (members c !! m) /\
     exists r i, membersReplicas c !! m = Some r /\ 0 <= i < r /\
                 h = hashKey c (Itoa i +:+ m)).
Proof.
  intros Hinv%reachable_inv. split_and!.
  - apply Hinv.
  - apply Hinv.
  - intros h m Hh. destruct (inv_owner c Hinv h m Hh) as (r&Hr&Hin).
    split; [apply (inv_replicas_Some c m Hinv); eauto|].
    apply elem_of_replicaHashes in Hin as (i&Hi&->). eauto.
Qed.

Lemma ring_state_consistent_witness :
  dom (members ring_collide3) = dom (membersReplicas ring_collide3) /\
  count ring_collide3 = wrap64 (Z.of_nat (size (members ring_collide3))).
Proof.
  destruct (@ring_state_consistent refRuntime ring_collide3) as (H1&H2&_).
  - apply ring_of_reachable.
  - split; [exact H1|exact H2].
Defined.



(** X7: [SetWithReplicas] makes the member set exactly the set of names of
    the entries; a name that was not a member gets the replica count of
    an entry that names it, the default count standing for zero; a
    member that stays keeps its replica count. *)
Theorem SetWithReplicas_reconciles `{rt : GoRuntime}
    (c : Consistent) (elts : list SetElt) (c' : Consistent) :
  reachable c -> SetWithReplicas c elts = Ret c' ->
  dom (members c') = list_to_set (Elt <$> elts) /\
  (forall m, m ∈ Elt <$> elts -> members c !! m = None ->
     exists v, v ∈ elts /\ Elt v = m /\
       membersReplicas c' !! m =
       Some (if decide (NumberOfReplicas v = 0) then defaultNumberOfReplicas c
             else NumberOfReplicas v)) /\
  (forall m, m ∈ Elt <$> elts -> is_Some (members c !! m) ->
     membersReplicas c' !! m = membersReplicas c !! m) /\
  (forall m, m ∉ Elt <$> elts -> membersReplicas c' !! m = None).
Proof.
  intros Hinv%reachable_inv. unfold SetWithReplicas.
  destruct (forM _ c (rangeMembers (members c))) as [c1|] eqn:H1; cbn;
    [|discriminate].
  apply prune_loop in H1 as (Hinv1&Hcfg1&Hg1&Hk1&_); [|done].
  intros H2.
  apply (grow_loop Elt
           (fun d v => if decide (NumberOfReplicas v = 0) then d
                       else NumberOfReplicas v)) in H2
    as (Hinv2&Hcfg2&Hdom2&Hold2&Hnew2&_); [|done].
  assert (Hdef : defaultNumberOfReplicas c1 = defaultNumberOfReplicas c)
    by apply Hcfg1.
  assert (forall m, pruned c (Elt <$> elts) (rangeMembers (members c)) m <->
                    is_Some (members c !! m) /\ m ∉ Elt <$> elts) as Hpr.
  { intros m. unfold pruned. rewrite elem_of_rangeMembers.
    rewrite <- (inv_replicas_Some c m Hinv). tauto. }
  assert (forall m, m ∈ Elt <$> elts -> members c1 !! m = members c !! m /\
                    membersReplicas c1 !! m = membersReplicas c !! m) as Hin1.
  { intros m Hm. apply Hk1. rewrite Hpr. tauto. }
  assert (forall m, m ∉ Elt <$> elts -> members c1 !! m = None /\
                    membersReplicas c1 !! m = None) as Hout1.
  { intros m Hm. destruct (members c !! m) as [b|] eqn:Hb.
    - apply Hg1, Hpr. eauto.
    - destruct (Hk1 m) as [-> ->]; [rewrite Hpr; intros [[? ?] _]; congruence|].
      split; [done|]. by apply (inv_member_replicas c m Hinv). }
  split_and!.
  - rewrite Hdom2. apply set_eq. intros m.
    rewrite elem_of_union, elem_of_dom, elem_of_list_to_set. split; [|tauto].
    intros [Hm|Hm]; [|done].
    destruct (decide (m ∈ Elt <$> elts)) as [|Hno]; [done|].
    destruct (Hout1 m Hno) as [Hn _]. rewrite Hn in Hm. by destruct Hm.
  - intros m Hm Hfresh. destruct (Hin1 m Hm) as [Hm1 _].
    destruct (Hnew2 m) as (v&Hv&Hname&Hr); [congruence|done|].
    exists v. rewrite Hdef in Hr. by split_and!.
  - intros m Hm Hold. destruct (Hin1 m Hm) as [Hm1 Hr1].
    rewrite Hold2; [done|by rewrite Hm1].
  - intros m Hm. destruct (Hout1 m Hm) as [Hm1 Hr1].
    apply (inv_member_replicas c' m Hinv2). apply not_elem_of_dom.
    rewrite Hdom2, elem_of_union, elem_of_dom, elem_of_list_to_set, Hm1.
    intros [[? ?]|?]; done.
Qed.

Lemma SetWithReplicas_reconciles_witness :
  dom (members (@ring_of refRuntime conf0
                  [OpAdd "a" [2];
                   OpSetWithReplicas [{| Elt := "b"; NumberOfReplicas := 3 |}]]))
  = list_to_set (Elt <$> [{| Elt := "b"; NumberOfReplicas := 3 |}]).
Proof.
  assert (@SetWithReplicas refRuntime (@ring_of refRuntime conf0 [OpAdd "a" [2]])
            [{| Elt := "b"; NumberOfReplicas := 3 |}]
          = Ret (@ring_of refRuntime conf0
                   [OpAdd "a" [2];
                    OpSetWithReplicas [{| Elt := "b"; NumberOfReplicas := 3 |}]]))
    as Hset by (vm_compute; reflexivity).
  exact (proj1 (@SetWithReplicas_reconciles refRuntime _ _ _
                  (ring_of_reachable _ _) Hset)).
Defined.

(** X8: [Members] lists every member once, and [MemberReplicas] is a copy of
    the replica counts. *)
Theorem snapshots `{rt : GoRuntime} (c : Consistent) :
  NoDup (Members c) /\
  (forall m, m ∈ Members c <-> is_Some (members c !! m)) /\
  MemberReplicas c = membersReplicas c.
Proof.
  unfold Members, MemberReplicas. split_and!.
  - rewrite rangeMembers_perm. apply NoDup_fst_map_to_list.
  - apply elem_of_rangeMembers.
  - apply list_to_map_to_list.
Qed.

(** ** Independence of the runtime

    Neither the order in which [range] walks a map nor the capacity that
    [append] picks has an effect that a caller can see. *)

Lemma obs_eq_refl c : obs_eq c c.
Proof. by repeat split. Qed.

Lemma obs_eq_sym c1 c2 : obs_eq c1 c2 -> obs_eq c2 c1.
Proof. unfold obs_eq. intros (?&?&?&?&?&?&?&?). by split_and!. Qed.

Lemma obs_eq_trans c1 c2 c3 : obs_eq c1 c2 -> obs_eq c2 c3 -> obs_eq c1 c3.
Proof.
  unfold obs_eq. intros (?&?&?&?&?&?&?&?) (?&?&?&?&?&?&?&?).
  split_and!; congruence.
Qed.

Lemma same_outcome_refl o : same_outcome o o.
Proof. destruct o; [apply obs_eq_refl|done]. Qed.

Lemma same_outcome_sym o1 o2 : same_outcome o1 o2 -> same_outcome o2 o1.
Proof. destruct o1, o2; cbn; try done. apply obs_eq_sym. Qed.

Lemma same_outcome_trans o1 o2 o3 :
  same_outcome o1 o2 -> same_outcome o2 o3 -> same_outcome o1 o3.
Proof. destruct o1, o2, o3; cbn; try done. apply obs_eq_trans. Qed.

Lemma obs_eq_hashKey c1 c2 key : obs_eq c1 c2 -> hashKey c1 key = hashKey c2 key.
Proof. intros (_&_&_&_&_&_&Hh&Hf). unfold hashKey. by rewrite Hh, Hf. Qed.

Lemma obs_eq_replicaHashes c1 c2 elt r :
  obs_eq c1 c2 -> replicaHashes c1 elt r = replicaHashes c2 elt r.
Proof.
  intros Ho. unfold replicaHashes. apply list_fmap_ext.
  intros _ i _. by apply obs_eq_hashKey.
Qed.

Section runtimes.
Context (rt1 rt2 : GoRuntime).

Lemma add_obs_eq c1 c2 elt r :
  obs_eq c1 c2 -> same_outcome (@add rt1 c1 elt r) (@add rt2 c2 elt r).
Proof.
  intros Ho. pose proof Ho as (Hc&Hm&Hr&Hd&Hn&Hdef&Hh&Hf).
  destruct (decide (divisor_ok c1)) as [Hok|Hbad].
  - destruct (@add_total rt1 c1 elt r Hok) as [c1' H1].
    destruct (@add_total rt2 c2 elt r) as [c2' H2].
    { unfold divisor_ok in *. by rewrite <- Hdef. }
    rewrite H1, H2. cbn.
    apply add_Ret in H1 as (_&Hc1&Hm1&Hr1&Hs1&Hn1&Hd1&Hh1&Hf1).
    apply add_Ret in H2 as (_&Hc2&Hm2&Hr2&Hs2&Hn2&Hd2&Hh2&Hf2).
    assert (circle c1' = circle c2') as Hcc.
    { apply map_eq. intros h.
      by rewrite Hc1, Hc2, Hc, (obs_eq_replicaHashes c1 c2). }
    unfold obs_eq. split_and!; congruence.
  - unfold add. rewrite !insert_loop.
    rewrite (@updateSortedHashes_Panic rt1) by done.
    rewrite (@updateSortedHashes_Panic rt2); [done|].
    unfold divisor_ok in *. cbn. by rewrite <- Hdef.
Qed.

Lemma remove_obs_eq c1 c2 elt r :
  obs_eq c1 c2 -> same_outcome (@remove rt1 c1 elt r) (@remove rt2 c2 elt r).
Proof.
  intros Ho. pose proof Ho as (Hc&Hm&Hr&Hd&Hn&Hdef&Hh&Hf).
  destruct (decide (divisor_ok c1)) as [Hok|Hbad].
  - destruct (@remove_total rt1 c1 elt r Hok) as [c1' H1].
    destruct (@remove_total rt2 c2 elt r) as [c2' H2].
    { unfold divisor_ok in *. by rewrite <- Hdef. }
    rewrite H1, H2. cbn.
    apply remove_Ret in H1 as (_&Hc1&Hm1&Hr1&Hs1&Hn1&Hd1&Hh1&Hf1).
    apply remove_Ret in H2 as (_&Hc2&Hm2&Hr2&Hs2&Hn2&Hd2&Hh2&Hf2).
    assert (circle c1' = circle c2') as Hcc.
    { apply map_eq. intros h.
      by rewrite Hc1, Hc2, Hc, (obs_eq_replicaHashes c1 c2). }
    unfold obs_eq. split_and!; congruence.
  - unfold remove. rewrite !delete_loop.
    rewrite (@updateSortedHashes_Panic rt1) by done.
    rewrite (@updateSortedHashes_Panic rt2); [done|].
    unfold divisor_ok in *. cbn. by rewrite <- Hdef.
Qed.
End runtimes.

Lemma bind_same_outcome (o1 o2 : outcome Consistent)
    (k1 k2 : Consistent -> outcome Consistent) :
  same_outcome o1 o2 ->
  (forall c1 c2, obs_eq c1 c2 -> same_outcome (k1 c1) (k2 c2)) ->
  same_outcome (o1 ≫= k1) (o2 ≫= k2).
Proof. destruct o1, o2; cbn; try done. intros Ho Hk. by apply Hk. Qed.

Lemma forM_same_outcome {A} (f1 f2 : Consistent -> A -> outcome Consistent)
    (l : list A) :
  (forall c1 c2 x, obs_eq c1 c2 -> same_outcome (f1 c1 x) (f2 c2 x)) ->
  forall c1 c2, obs_eq c1 c2 -> same_outcome (forM f1 c1 l) (forM f2 c2 l).
Proof.
  intros Hf. induction l as [|x l IH]; intros c1 c2 Ho; cbn [forM]; [done|].
  apply bind_same_outcome; [by apply Hf|done].
Qed.

Section prune_order.
Context (rt : GoRuntime) (names : list string).

(** Two rounds of the first loop of [Set] commute. *)
Lemma prune_rounds_commute c x y :
  same_outcome
    ((if found_in x names then Ret c
      else match membersReplicas c !! x with
           | Some v => remove c x v
           | None => Ret c
           end) ≫=
     fun c => if found_in y names then Ret c
              else match membersReplicas c !! y with
                   | Some v => remove c y v
                   | None => Ret c
                   end)
    ((if found_in y names then Ret c
      else match membersReplicas c !! y with
           | Some v => remove c y v
           | None => Ret c
           end) ≫=
     fun c => if found_in x names then Ret c
              else match membersReplicas c !! x with
                   | Some v => remove c x v
                   | None => Ret c
                   end).
Proof.
  assert (forall o : outcome Consistent,
            same_outcome o (o ≫= fun c0 => Ret c0)) as Hid.
  { intros [c0|]; cbn; [apply obs_eq_refl|done]. }
  destruct (decide (x = y)) as [->|Hxy]; [apply same_outcome_refl|].
  destruct (found_in x names) eqn:Hfx, (found_in y names) eqn:Hfy; cbn.
  - apply obs_eq_refl.
  - apply Hid.
  - apply same_outcome_sym, Hid.
  - destruct (membersReplicas c !! x) as [vx|] eqn:Hx,
             (membersReplicas c !! y) as [vy|] eqn:Hy; cbn.
    + destruct (remove c x vx) as [cx|] eqn:Hrx.
      2:{ cbn. destruct (remove c y vy) as [cy|] eqn:Hry; [|done].
          apply remove_Ret in Hry as (Hok&_).
          destruct (remove_total c x vx Hok) as [? ?]. congruence. }
      destruct (remove c y vy) as [cy|] eqn:Hry.
      2:{ apply remove_Ret in Hrx as (Hok&_).
          destruct (remove_total c y vy Hok) as [? ?]. congruence. }
      cbn.
      apply remove_Ret in Hrx as (Hok&Hcx&Hmx&Hrx&Hsx&Hnx&Hcfgx).
      apply remove_Ret in Hry as (_&Hcy&Hmy&Hry&Hsy&Hny&Hcfgy).
      rewrite Hrx, Hry, !lookup_delete_ne, Hx, Hy by done.
      destruct (remove_total cx y vy) as [cxy Hxy']; [by eapply divisor_ok_same|].
      destruct (remove_total cy x vx) as [cyx Hyx']; [by eapply divisor_ok_same|].
      rewrite Hxy', Hyx'. cbn.
      apply remove_Ret in Hxy' as (_&Hc1&Hm1&Hr1&Hs1&Hn1&Hd1&Hh1&Hf1).
      apply remove_Ret in Hyx' as (_&Hc2&Hm2&Hr2&Hs2&Hn2&Hd2&Hh2&Hf2).
      assert (circle cxy = circle cyx) as Hcc.
      { apply map_eq. intros h. rewrite Hc1, Hc2, Hcx, Hcy.
        rewrite (replicaHashes_same c cx), (replicaHashes_same c cy) by done.
        by repeat case_decide. }
      destruct Hcfgx as (Hdx&Hhx&Hfx'). destruct Hcfgy as (Hdy&Hhy&Hfy').
      unfold obs_eq. split_and!; try congruence.
      * rewrite Hm1, Hm2, Hmx, Hmy. apply delete_delete.
      * rewrite Hr1, Hr2, Hrx, Hry. apply delete_delete.
    + rewrite Hx. destruct (remove c x vx) as [cx|] eqn:Hrx; cbn; [|done].
      apply remove_Ret in Hrx as (_&_&_&Hrx&_).
      rewrite Hrx, lookup_delete_ne, Hy by done. apply obs_eq_refl.
    + rewrite Hy. destruct (remove c y vy) as [cy|] eqn:Hry; cbn; [|done].
      apply remove_Ret in Hry as (_&_&_&Hry&_).
      rewrite Hry, lookup_delete_ne, Hx by done. apply obs_eq_refl.
    + rewrite Hx, Hy. apply obs_eq_refl.
Qed.
End prune_order.

Section runtime_independence.
Context (rt1 rt2 : GoRuntime).

Lemma prune_round_obs_eq (names : list string) c1 c2 k :
  obs_eq c1 c2 ->
  same_outcome
    (if found_in k names then Ret c1
     else match membersReplicas c1 !! k with
          | Some v => @remove rt1 c1 k v
          | None => Ret c1
          end)
    (if found_in k names then Ret c2
     else match membersReplicas c2 !! k with
          | Some v => @remove rt2 c2 k v
          | None => Ret c2
          end).
Proof.
  intros Ho. destruct (found_in k names); [done|].
  assert (membersReplicas c1 = membersReplicas c2) as -> by apply Ho.
  destruct (membersReplicas c2 !! k); [by apply remove_obs_eq|done].
Qed.

Lemma outcome_bind_assoc (o : outcome Consistent)
    (k1 k2 : Consistent -> outcome Consistent) :
  (o ≫= k1) ≫= k2 = o ≫= fun c => k1 c ≫= k2.
Proof. by destruct o. Qed.

(** The first loop of [Set] gives the same result in whatever order the
    members are visited. *)
Lemma prune_loop_order (names ks1 ks2 : list string) :
  ks1 ≡ₚ ks2 ->
  forall c1 c2, obs_eq c1 c2 ->
    same_outcome
      (forM (fun c k =>
               if found_in k names then Ret c
               else match membersReplicas c !! k with
                    | Some v => @remove rt1 c k v
                    | None => Ret c
                    end) c1 ks1)
      (forM (fun c k =>
               if found_in k names then Ret c
               else match membersReplicas c !! k with
                    | Some v => @remove rt2 c k v
                    | None => Ret c
                    end) c2 ks2).
Proof.
  induction 1 as [|x l1 l2 Hp IH|x y l|l1 l2 l3 Hp1 IH1 Hp2 IH2];
    intros c1 c2 Ho.
  - done.
  - cbn [forM]. apply bind_same_outcome; [by apply prune_round_obs_eq|done].
  - cbn [forM]. rewrite <- !outcome_bind_assoc.
    apply bind_same_outcome.
    + eapply same_outcome_trans; [apply prune_rounds_commute|].
      apply bind_same_outcome; [by apply prune_round_obs_eq|].
      intros. by apply prune_round_obs_eq.
    + intros. apply forM_same_outcome; [|done].
      intros. by apply prune_round_obs_eq.
  - eapply same_outcome_trans; [apply (IH1 c1 c1), obs_eq_refl|].
    eapply same_outcome_trans; [|apply (IH2 c1 c2 Ho)].
    apply same_outcome_sym, forM_same_outcome; [|apply obs_eq_refl].
    intros. by apply prune_round_obs_eq.
Qed.

Lemma grow_round_obs_eq {A} (name : A -> string) (rep : Z -> A -> Z) c1 c2 v :
  obs_eq c1 c2 ->
  same_outcome
    (match members c1 !! name v with
     | Some _ => Ret c1
     | None => @add rt1 c1 (name v) (rep (defaultNumberOfReplicas c1) v)
     end)
    (match members c2 !! name v with
     | Some _ => Ret c2
     | None => @add rt2 c2 (name v) (rep (defaultNumberOfReplicas c2) v)
     end).
Proof.
  intros Ho.
  assert (members c1 = members c2) as -> by apply Ho.
  assert (defaultNumberOfReplicas c1 = defaultNumberOfReplicas c2) as ->
    by apply Ho.
  destruct (members c2 !! name v); [done|by apply add_obs_eq].
Qed.

Lemma step_obs_eq c1 c2 o :
  obs_eq c1 c2 -> same_outcome (@step rt1 c1 o) (@step rt2 c2 o).
Proof.
  intros Ho. destruct o as [elt rs|elt|elts|elts]; cbn.
  - unfold Add. assert (members c1 = members c2) as -> by apply Ho.
    assert (defaultNumberOfReplicas c1 = defaultNumberOfReplicas c2) as ->
      by apply Ho.
    destruct (members c2 !! elt); [done|by apply add_obs_eq].
  - unfold Remove. assert (members c1 = members c2) as -> by apply Ho.
    assert (membersReplicas c1 = membersReplicas c2) as -> by apply Ho.
    destruct (members c2 !! elt); cbn; [|done].
    destruct (membersReplicas c2 !! elt) as [r|]; cbn; [|done].
    pose proof (remove_obs_eq rt1 rt2 c1 c2 elt r Ho) as Hrem.
    destruct (@remove rt1 c1 elt r), (@remove rt2 c2 elt r); done.
  - unfold Set_. apply bind_same_outcome.
    + apply prune_loop_order; [|done].
      assert (members c1 = members c2) as -> by apply Ho.
      by rewrite (@rangeMembers_perm rt1), (@rangeMembers_perm rt2).
    + intros. apply forM_same_outcome; [|done].
      intros. by apply (grow_round_obs_eq id (fun d _ => d)).
  - unfold SetWithReplicas. apply bind_same_outcome.
    + apply prune_loop_order; [|done].
      assert (members c1 = members c2) as -> by apply Ho.
      by rewrite (@rangeMembers_perm rt1), (@rangeMembers_perm rt2).
    + intros. apply forM_same_outcome; [|done].
      intros c1' c2' v Ho'.
      pose (rep := fun (d : Z) (v : SetElt) =>
                     if decide (NumberOfReplicas v = 0) then d
                     else NumberOfReplicas v).
      exact (grow_round_obs_eq Elt rep c1' c2' v Ho').
Qed.

Lemma run_obs_eq c1 c2 ops :
  obs_eq c1 c2 -> same_outcome (@run rt1 c1 ops) (@run rt2 c2 ops).
Proof.
  intros Ho. unfold run. apply forM_same_outcome; [|done].
  intros. by apply step_obs_eq.
Qed.
End runtime_independence.

Lemma search_obs_eq c1 c2 key : obs_eq c1 c2 -> search c1 key = search c2 key.
Proof.
  intros (_&_&_&Hd&_). unfold search, len. by rewrite Hd.
Qed.

Lemma owner_obs_eq c1 c2 h : obs_eq c1 c2 -> owner c1 h = owner c2 h.
Proof. intros (Hc&_). unfold owner. by rewrite Hc. Qed.

Lemma GetTwo_loop_obs_eq c1 c2 fuel a start i b :
  obs_eq c1 c2 ->
  GetTwo_loop fuel c1 a start i b = GetTwo_loop fuel c2 a start i b.
Proof.
  intros Ho. pose proof Ho as (_&_&_&Hd&_).
  revert i b. induction fuel as [|fuel IH]; intros i b; [done|].
  cbn [GetTwo_loop]. unfold index, len. rewrite Hd.
  case_decide; [done|].
  destruct (data (sortedHashes c2) !! _) as [h|]; [|done].
  rewrite (owner_obs_eq c1 c2 h Ho). case_decide; [done|]. apply IH.
Qed.

Lemma GetN_loop_obs_eq c1 c2 fuel n start i res :
  obs_eq c1 c2 ->
  GetN_loop fuel c1 n start i res = GetN_loop fuel c2 n start i res.
Proof.
  intros Ho. pose proof Ho as (_&_&_&Hd&_).
  revert i res. induction fuel as [|fuel IH]; intros i res; [done|].
  cbn [GetN_loop]. unfold index, len. rewrite Hd.
  case_decide; [done|].
  destruct (data (sortedHashes c2) !! _) as [h|]; [|done].
  rewrite (owner_obs_eq c1 c2 h Ho). case_decide; [done|]. apply IH.
Qed.

(** X9: the same calls under two runtimes either both panic or end in
    states with the same positions, members, replica counts, sorted
    hashes and counter; and on such states [Get], [GetTwo] and [GetN]
    give the same results. *)
Theorem runtime_independent (rt1 rt2 : GoRuntime) :
  (forall conf ops,
     same_outcome (@run rt1 (New conf) ops) (@run rt2 (New conf) ops)) /\
  (forall c1 c2 name,
     obs_eq c1 c2 ->
     Get c1 name = Get c2 name /\
     (forall fuel, GetTwo fuel c1 name = GetTwo fuel c2 name) /\
     (forall fuel n, GetN fuel c1 name n = GetN fuel c2 name n)).
Proof.
  split.
  - intros conf ops. apply run_obs_eq, obs_eq_refl.
  - intros c1 c2 name Ho. pose proof Ho as (Hc&_&_&Hd&Hn&_).
    unfold Get, GetTwo, GetN, index.
    rewrite (obs_eq_hashKey c1 c2 name Ho), (search_obs_eq c1 c2 _ Ho), Hc, Hd, Hn.
    split_and!.
    + case_decide; [done|].
      destruct (data (sortedHashes c2) !! _) as [h|]; [|done]. cbn.
      by rewrite (owner_obs_eq c1 c2 h Ho).
    + intros fuel. case_decide; [done|].
      destruct (data (sortedHashes c2) !! _) as [h|]; [|done].
      rewrite (owner_obs_eq c1 c2 h Ho).
      by rewrite (GetTwo_loop_obs_eq c1 c2 _ _ _ _ _ Ho).
    + intros fuel n. case_decide; [done|]. case_decide; [done|].
      destruct (data (sortedHashes c2) !! _) as [h|]; [|done].
      rewrite (owner_obs_eq c1 c2 h Ho).
      by rewrite (GetN_loop_obs_eq c1 c2 _ _ _ _ _ Ho).
Qed.

(** ** Hashing and construction *)

(** The scratch buffer of the CRC-32 path is an optimisation only: the
    hash of a key is the checksum of its bytes whatever its length. *)
Lemma hashKeyCRC32_plain (key : string) :
  hashKeyCRC32 key = ChecksumIEEE (bytes key).
Proof.
  unfold hashKeyCRC32, copy. case_decide as Hlen; [|done].
  rewrite length_replicate. rewrite (take_ge (bytes key)) by lia.
  by rewrite take_app_length.
Qed.

(** X10: the hash strategy is chosen by the configuration: a custom hasher
    first, then FNV-1a when asked for, CRC-32 otherwise; and a fresh ring
    is empty, with 43 replicas by default when the configuration gives
    zero. *)
Theorem New_configuration (conf : Config) :
  (forall h key, CustomHasher conf = Some h ->
     hashKey (New conf) key = HashFunc h key) /\
  (forall key, CustomHasher conf = None -> UseFnv conf = true ->
     hashKey (New conf) key = Sum32a (bytes key)) /\
  (forall key, CustomHasher conf = None -> UseFnv conf = false ->
     hashKey (New conf) key = ChecksumIEEE (bytes key)) /\
  circle (New conf) = ∅ /\ members (New conf) = ∅ /\
  membersReplicas (New conf) = ∅ /\ data (sortedHashes (New conf)) = [] /\
  count (New conf) = 0 /\
  (DefaultNumberOfReplicas conf = 0 -> defaultNumberOfReplicas (New conf) = 43) /\
  (DefaultNumberOfReplicas conf <> 0 ->
     defaultNumberOfReplicas (New conf) = DefaultNumberOfReplicas conf).
Proof.
  split_and!; try done.
  - intros h key Hh. unfold hashKey. cbn. by rewrite Hh.
  - intros key Hh Hf. unfold hashKey. cbn. by rewrite Hh, Hf.
  - intros key Hh Hf. unfold hashKey. cbn. rewrite Hh, Hf.
    apply hashKeyCRC32_plain.
  - intros Hd. cbn. by rewrite decide_True.
  - intros Hd. cbn. by rewrite decide_False.
Qed.

Lemma New_configuration_witness :
  hashKey (New conf0) "123456789" = 0xcbf43926 /\
  hashKey (New {| DefaultNumberOfReplicas := 0; UseFnv := true;
                  CustomHasher := None |}) "foobar" = 0xbf9cf968 /\
  defaultNumberOfReplicas (New conf0) = 43.
Proof.
  split_and!.
  - rewrite (proj1 (proj2 (proj2 (New_configuration conf0))) "123456789");
      [vm_compute; reflexivity|reflexivity|reflexivity].
  - vm_compute. reflexivity.
  - apply (New_configuration conf0). reflexivity.
Defined.

(** X11: [Add] of a name that is not yet a member, with any replica
    count (the default one when none is passed), records the member and
    its count, advances the counter, stores the member at its replica
    hashes and nowhere else, and rebuilds the sorted hashes. *)
Theorem Add_new_member `{rt : GoRuntime}
    (c : Consistent) (elt : string) (rs : list Z) (c' : Consistent) :
  members c !! elt = None -> Add c elt rs = Ret c' ->
  members c' = <[elt := true]> (members c) /\
  membersReplicas c' =
    <[elt := match rs with
             | r :: _ => r
             | [] => defaultNumberOfReplicas c
             end]> (membersReplicas c) /\
  count c' = wrap64 (count c + 1) /\
  (forall h, circle c' !! h =
     if decide (h ∈ replicaHashes c elt
                      match rs with
                      | r :: _ => r
                      | [] => defaultNumberOfReplicas c
                      end)
     then Some elt else circle c !! h) /\
  data (sortedHashes c') = sorted_keys (circle c').
Proof.
  intros Hfresh. unfold Add. rewrite Hfresh.
  intros (_&Hc&Hm&Hr&Hs&Hn&_)%add_Ret. by split_and!.
Qed.

Lemma Add_new_member_witness :
  members (@ring_of refRuntime conf0 [OpAdd "a" []])
  = <["a" := true]> (members (New conf0)) /\
  membersReplicas (@ring_of refRuntime conf0 [OpAdd "a" []]) !! "a" = Some 43.
Proof.
  assert (@Add refRuntime (New conf0) "a" []
          = Ret (@ring_of refRuntime conf0 [OpAdd "a" []])) as Hadd
    by (vm_compute; reflexivity).
  destruct (@Add_new_member refRuntime (New conf0) "a" [] _ eq_refl Hadd)
    as (Hm&Hr&_).
  split; [exact Hm|]. rewrite Hr. reflexivity.
Defined.

(** The binary search never needs more rounds than the length of the
    slice: further rounds change nothing. *)
Lemma Search_loop_enough (f : nat -> bool) (rounds extra i j : nat) :
  (j - i <= rounds)%nat ->
  Search_loop (rounds + extra) f i j = Search_loop rounds f i j.
Proof.
  revert i j. induction rounds as [|rounds IH]; intros i j Hfuel.
  - cbn [Nat.add Search_loop]. destruct extra as [|extra]; [done|].
    cbn [Search_loop]. rewrite decide_False by lia. done.
  - cbn [Nat.add Search_loop]. destruct (decide (i < j)%nat) as [Hlt|]; [|done].
    pose proof (Nat.div_mod_eq (i + j) 2) as Hdiv.
    pose proof (Nat.mod_upper_bound (i + j) 2) as Hmod.
    destruct (f ((i + j) / 2)%nat); cbn [negb]; apply IH; lia.
Qed.

(** ** The model at work *)

(** Both branches of the storage test in the index rebuild are live:
    with one replica by default the slice that held a hundred positions
    is dropped when the ring gets empty, with the default of 43 it is
    kept. *)
Example rebuild_shrinks_or_reuses :
  cap (sortedHashes (@ring_of refRuntime conf1 [OpAdd "a" [100]; OpRemove "a"])) = 0 /\
  cap (sortedHashes (@ring_of refRuntime conf0 [OpAdd "a" [100]; OpRemove "a"])) = 128 /\
  data (sortedHashes (@ring_of refRuntime conf0 [OpAdd "a" [100]; OpRemove "a"])) = [].
Proof. split_and!; vm_compute; reflexivity. Qed.

(** Two runtimes give slices of different capacity and nothing else
    that differs. *)
Example runtimes_differ_in_capacity_only :
  cap (sortedHashes (@ring_of refRuntime conf0 [OpAdd "a" [3]])) = 4 /\
  cap (sortedHashes (@ring_of revRuntime conf0 [OpAdd "a" [3]])) = 3 /\
  obs_eq (@ring_of refRuntime conf0 [OpAdd "a" [3]; OpSet ["b"; "c"]])
         (@ring_of revRuntime conf0 [OpAdd "a" [3]; OpSet ["b"; "c"]]).
Proof.
  split_and!; [vm_compute; reflexivity..|].
  pose proof (run_obs_eq refRuntime revRuntime (New conf0) (New conf0)
                [OpAdd "a" [3]; OpSet ["b"; "c"]] (obs_eq_refl _)) as Hsame.
  unfold ring_of.
  destruct (@run refRuntime _ _), (@run revRuntime _ _); try done.
Qed.

(** The keys of the replicas: index first, then the name. *)
Example eltKey_index_first :
  eltKey "cacheA" 0 = "0cacheA" /\ eltKey "cacheA" 12 = "12cacheA" /\
  Itoa 43 = "43".
Proof. split_and!; reflexivity. Qed.

(** * Further properties: how the operations compose *)

(** ** Adding a member moves keys to that member only *)

(** X12: when a new member is added, every key is served as before or
    by the new member, whatever positions collide; no key moves between
    two old members. *)
Theorem Add_moves_keys_to_new_member_only `{rt : GoRuntime}
    (c : Consistent) (elt : string) (rs : list Z) (c' : Consistent)
    (name : string) :
  reachable c -> members c !! elt = None -> Add c elt rs = Ret c' ->
  Get c' name = Get c name \/ Get c' name = Ret (elt, None).
Proof.
  intros Hinv%reachable_inv Hfresh Hadd.
  pose proof (Add_inv c elt rs c' Hinv Hadd) as Hinv'.
  revert Hadd. unfold Add. rewrite Hfresh.
  set (r := match rs with r :: _ => r | [] => defaultNumberOfReplicas c end).
  intros (_&Hc'&_&_&_&_&Hcfg)%add_Ret.
  assert (forall q, is_Some (circle c !! q) -> is_Some (circle c' !! q)) as Hsub.
  { intros q Hq. rewrite Hc'. case_decide; eauto. }
  destruct (Get_error_iff c name Hinv) as [Hempty Hfull].
  destruct (Get_error_iff c' name Hinv') as [Hempty' Hfull'].
  destruct (decide (size (circle c') = 0%nat)) as [Hs'|Hs'].
  - left. rewrite (Hempty' Hs'). symmetry. apply Hempty.
    apply map_size_empty_inv in Hs'. apply map_size_empty_iff, map_empty.
    intros q. destruct (circle c !! q) eqn:Hq; [|done].
    destruct (Hsub q) as [? Hq']; [eauto|]. by rewrite Hs', lookup_empty in Hq'.
  - destruct (Hfull' Hs') as (p&m&Hsucc&Hm&Hget).
    rewrite (hashKey_same c c') in Hsucc by done.
    destruct (decide (m = elt)) as [->|Hne]; [by right|left].
    assert (circle c !! p = Some m) as Hm0.
    { rewrite Hc' in Hm. case_decide; [congruence|done]. }
    assert (size (circle c) <> 0%nat) as Hs.
    { intros H0%map_size_empty_inv. by rewrite H0, lookup_empty in Hm0. }
    destruct (Hfull Hs) as (p0&m0&Hsucc0&Hmp0&Hget0).
    assert (successor (circle c) (hashKey c name) p) as Hsuccp.
    { destruct Hsucc as (_&[(Hk&Hmin)|(Hall&Hmin)]).
      - split; [eauto|]. left. split; [done|]. intros q Hq. by apply Hmin, Hsub.
      - split; [eauto|]. right. split; intros q Hq; [apply Hall|apply Hmin];
          by apply Hsub. }
    assert (p0 = p) as -> by (by eapply successor_unique).
    rewrite Hget, Hget0. congruence.
Qed.

Lemma Add_moves_keys_to_new_member_only_witness :
  Get (@ring_of refRuntime conf0 [OpAdd "a" [2]; OpAdd "bb" [3]; OpAdd "c" [4]]) "foo"
  = Get ring_ab "foo" \/
  Get (@ring_of refRuntime conf0 [OpAdd "a" [2]; OpAdd "bb" [3]; OpAdd "c" [4]]) "foo"
  = Ret ("c", None).
Proof.
  apply (@Add_moves_keys_to_new_member_only refRuntime ring_ab "c" [4]).
  - apply ring_of_reachable.
  - vm_compute. reflexivity.
  - vm_compute. reflexivity.
Defined.

(** ** Adding and removing again *)

(** X13: adding a new member and removing it again brings the ring back
    to where it was (positions, members, replica counts, sorted hashes
    and counter), provided none of the replica hashes of the member was
    a position before; a position that was one is gone afterwards. *)
Theorem Add_Remove_round_trip `{rt : GoRuntime}
    (c : Consistent) (elt : string) (r : Z) (c1 : Consistent)
    (out : Consistent * bool) :
  reachable c -> members c !! elt = None ->
  Add c elt [r] = Ret c1 -> Remove c1 elt = Ret out ->
  out.2 = true /\
  (forall h, circle out.1 !! h =
     if decide (h ∈ replicaHashes c elt r) then None else circle c !! h) /\
  (Forall (fun h => circle c !! h = None) (replicaHashes c elt r) ->
   obs_eq c out.1).
Proof.
  intros Hinv%reachable_inv Hfresh Hadd.
  pose proof (Add_inv c elt [r] c1 Hinv Hadd) as Hinv1.
  revert Hadd. unfold Add. rewrite Hfresh.
  intros (_&Hc1&Hm1&Hr1&Hs1&Hn1&Hcfg1)%add_Ret.
  destruct out as [c2 b]. rewrite (Remove_member c1 elt r);
    [|by rewrite Hm1, lookup_insert_eq|by rewrite Hr1, lookup_insert_eq].
  destruct (remove c1 elt r) as [c2'|] eqn:Hrem; cbn; [|discriminate].
  intros [= <- <-].
  apply remove_Ret in Hrem as (_&Hc2&Hm2&Hr2&Hs2&Hn2&Hcfg2).
  rewrite (replicaHashes_same c c1) in Hc2 by done.
  assert (forall h, circle c2' !! h =
            if decide (h ∈ replicaHashes c elt r) then None else circle c !! h)
    as Hcirc.
  { intros h. rewrite Hc2, Hc1. by case_decide. }
  split_and!; [done|done|].
  intros Hfree. rewrite Forall_forall in Hfree.
  assert (circle c2' = circle c) as Hcc.
  { apply map_eq. intros h. rewrite Hcirc. case_decide; [|done].
    symmetry. by apply Hfree. }
  destruct Hcfg1 as (Hd1&Hh1&Hf1). destruct Hcfg2 as (Hd2&Hh2&Hf2).
  assert (count c2' = count c) as Hcount.
  { rewrite Hn2, Hn1, (inv_count c Hinv).
    replace (wrap64 (wrap64 (Z.of_nat (size (members c))) + 1) - 1)
      with (wrap64 (wrap64 (Z.of_nat (size (members c))) + 1) + -1) by lia.
    rewrite wrap64_add_l.
    replace (wrap64 (Z.of_nat (size (members c))) + 1 + -1)
      with (wrap64 (Z.of_nat (size (members c))) + 0) by lia.
    rewrite wrap64_add_l. f_equal. lia. }
  assert (members c2' = members c) as Hmem.
  { rewrite Hm2, Hm1. by apply delete_insert_id. }
  assert (membersReplicas c2' = membersReplicas c) as Hrep.
  { rewrite Hr2, Hr1. apply delete_insert_id.
    by apply (inv_member_replicas c elt Hinv). }
  assert (data (sortedHashes c2') = data (sortedHashes c)) as Hdata.
  { by rewrite Hs2, Hcc, (inv_sorted c Hinv). }
  unfold obs_eq. split_and!; congruence.
Qed.

Lemma Add_Remove_round_trip_witness :
  obs_eq ring_ab
    (@ring_of refRuntime conf0
       [OpAdd "a" [2]; OpAdd "bb" [3]; OpAdd "c" [4]; OpRemove "c"]).
Proof.
  assert (@Add refRuntime ring_ab "c" [4]
          = Ret (@ring_of refRuntime conf0
                   [OpAdd "a" [2]; OpAdd "bb" [3]; OpAdd "c" [4]])) as Hadd
    by (vm_compute; reflexivity).
  assert (@Remove refRuntime
            (@ring_of refRuntime conf0
               [OpAdd "a" [2]; OpAdd "bb" [3]; OpAdd "c" [4]]) "c"
          = Ret (@ring_of refRuntime conf0
                   [OpAdd "a" [2]; OpAdd "bb" [3]; OpAdd "c" [4]; OpRemove "c"],
                 true)) as Hrem
    by (vm_compute; reflexivity).
  apply (@Add_Remove_round_trip refRuntime ring_ab "c" 4 _ _
           (ring_of_reachable _ _) eq_refl Hadd Hrem).
  by_evaluation.
Defined.

(** ** Lookups name members only *)

Lemma owner_member c h :
  ring_inv c -> h ∈ data (sortedHashes c) -> is_Some (members c !! owner c h).
Proof.
  intros Hinv Hh. rewrite (inv_sorted c Hinv) in Hh.
  apply elem_of_sorted_keys in Hh as [m Hm].
  unfold owner. rewrite Hm. cbn.
  destruct (inv_owner c Hinv h m Hm) as (r&Hr&_).
  apply (elem_of_dom (members c)). rewrite (inv_replicas c Hinv).
  apply elem_of_dom. eauto.
Qed.

Lemma index_elem_of (x : uints) (i : nat) (h : Z) :
  index x i = Ret h -> h ∈ data x.
Proof.
  unfold index. destruct (data x !! i) as [v|] eqn:Hv; [|discriminate].
  intros [= <-]. by eapply list_elem_of_lookup_2.
Qed.

Lemma GetTwo_loop_owner c a s (P : string -> Prop) :
  (forall h, h ∈ data (sortedHashes c) -> P (owner c h)) ->
  forall fuel i b out,
    P b -> GetTwo_loop fuel c a s i b = Some (Ret out) -> P out.
Proof.
  intros HP fuel. induction fuel as [|fuel IH]; intros i b out Hb; [done|].
  cbn [GetTwo_loop]. case_decide; [by intros [= <-]|].
  destruct (index _ _) as [h|] eqn:Hh; [|done].
  apply index_elem_of in Hh. case_decide.
  - intros [= <-]. by apply HP.
  - apply IH. by apply HP.
Qed.

Lemma GetTwo_loop_owner_first c a s (P : string -> Prop) :
  (forall h, h ∈ data (sortedHashes c) -> P (owner c h)) ->
  forall fuel i b out,
    i <> s -> GetTwo_loop fuel c a s i b = Some (Ret out) -> P out.
Proof.
  intros HP fuel i b out Hi. destruct fuel as [|fuel]; [done|].
  cbn [GetTwo_loop]. rewrite decide_False by done.
  destruct (index _ _) as [h|] eqn:Hh; [|done].
  apply index_elem_of in Hh. case_decide.
  - intros [= <-]. by apply HP.
  - apply (GetTwo_loop_owner c a s P HP). by apply HP.
Qed.

Lemma GetN_loop_sound c n s (P : string -> Prop) :
  (forall h, h ∈ data (sortedHashes c) -> P (owner c h)) ->
  forall fuel i res out,
    NoDup res -> Forall P res ->
    GetN_loop fuel c n s i res = Some (Ret out) ->
    NoDup out /\ Forall P out /\ res `prefix_of` out.
Proof.
  intros HP fuel. induction fuel as [|fuel IH];
    intros i res out Hnd Hres; [done|].
  cbn [GetN_loop]. case_decide; [by intros [= <-]|].
  destruct (index _ _) as [h|] eqn:Hh; [|done].
  apply index_elem_of in Hh.
  set (res' := if sliceContainsMember res (owner c h) then res
               else res ++ [owner c h]).
  assert (NoDup res' /\ Forall P res' /\ res `prefix_of` res')
    as (Hnd'&Hres'&Hpre).
  { unfold res'. destruct (sliceContainsMember _ _) eqn:Hin; [done|].
    split_and!.
    - apply NoDup_app. split_and!; [done| |apply NoDup_singleton].
      intros y Hy ->%list_elem_of_singleton.
      apply sliceContainsMember_true in Hy. congruence.
    - apply Forall_app. split; [done|]. apply Forall_singleton. by apply HP.
    - by apply prefix_app_r. }
  case_decide.
  - by intros [= <-].
  - intros Hrec. destruct (IH _ _ _ Hnd' Hres' Hrec) as (?&?&?).
    split_and!; [done|done|]. by etrans.
Qed.

(** X14: on every reachable ring, whatever [Get], [GetTwo] and [GetN]
    return without error names members only: [Get] returns a member;
    [GetTwo] returns the result of [Get] and either the empty string (when
    the counter is 1) or a member; [GetN] returns pairwise distinct
    members, the result of [Get] first. *)
Theorem lookups_return_members `{rt : GoRuntime}
    (c : Consistent) (name : string) :
  reachable c ->
  (forall m, Get c name = Ret (m, None) -> is_Some (members c !! m)) /\
  (forall fuel a b, GetTwo fuel c name = Some (Ret (a, b, None)) ->
     Get c name = Ret (a, None) /\
     if decide (count c = 1) then b = String.EmptyString
     else is_Some (members c !! b)) /\
  (forall fuel n res, GetN fuel c name n = Some (Ret (res, None)) ->
     NoDup res /\ Forall (fun m => is_Some (members c !! m)) res /\
     exists a rest, Get c name = Ret (a, None) /\ res = a :: rest).
Proof.
  intros Hinv%reachable_inv.
  pose proof (fun h => owner_member c h Hinv) as HP.
  split_and!.
  - intros m. unfold Get. case_decide; [done|].
    destruct (index _ _) as [h|] eqn:Hh; [|done]. cbn. intros [= <-].
    eapply HP, index_elem_of, Hh.
  - intros fuel a b. unfold GetTwo, Get. case_decide; [done|].
    destruct (index _ _) as [h|] eqn:Hh; [|done]. cbn.
    case_decide.
    + by intros [= <- <-].
    + destruct (GetTwo_loop _ _ _ _ _ _) as [[out|]|] eqn:Hloop; [|done..].
      intros [= <- <-]. split; [done|].
      apply (GetTwo_loop_owner_first c (owner c h) _
               (fun x => is_Some (members c !! x)) HP) in Hloop; [done|lia].
  - intros fuel n res. unfold GetN, Get.
    destruct (decide (size (circle c) = 0%nat)); [done|].
    generalize (if decide (count c < n) then count c else n). intros n'.
    destruct (decide (n' < 0)); [done|].
    destruct (index _ _) as [h|] eqn:Hh; [|done]. cbn.
    assert (is_Some (members c !! owner c h)) as Hm
      by eapply HP, index_elem_of, Hh.
    case_decide.
    + intros [= <-]. split_and!; [apply NoDup_singleton|by apply Forall_singleton|].
      by exists (owner c h), [].
    + destruct (GetN_loop _ _ _ _ _ _) as [[out|]|] eqn:Hloop; [|done..].
      intros [= <-].
      apply (GetN_loop_sound c _ _ (fun m => is_Some (members c !! m)) HP)
        in Hloop as (Hnd&Hall&[rest ->]);
        [|apply NoDup_singleton|by apply Forall_singleton].
      split_and!; [done|done|]. by exists (owner c h), rest.
Qed.

Lemma lookups_return_members_witness :
  (forall m, Get ring_ab "foo" = Ret (m, None) ->
     is_Some (members ring_ab !! m)) /\
  (forall fuel a b, GetTwo fuel ring_ab "foo" = Some (Ret (a, b, None)) ->
     Get ring_ab "foo" = Ret (a, None) /\
     if decide (count ring_ab = 1) then b = String.EmptyString
     else is_Some (members ring_ab !! b)) /\
  (forall fuel n res, GetN fuel ring_ab "foo" n = Some (Ret (res, None)) ->
     NoDup res /\ Forall (fun m => is_Some (members ring_ab !! m)) res /\
     exists a rest, Get ring_ab "foo" = Ret (a, None) /\ res = a :: rest).
Proof.
  apply (@lookups_return_members refRuntime ring_ab "foo").
  apply ring_of_reachable.
Defined.

(** ** A ring with one member *)

(** X15: on a reachable ring with a position whose only member is [M],
    every key is served by [M]: [Get] returns [M], [GetTwo] returns [M]
    and the empty string, and [GetN] returns the one-element list [M] for
    every [n >= 1], whatever the fuel. *)
Theorem single_member_serves_every_key `{rt : GoRuntime}
    (c : Consistent) (M : string) (name : string) :
  reachable c -> dom (members c) = {[ M ]} -> size (circle c) <> 0%nat ->
  Get c name = Ret (M, None) /\
  (forall fuel, GetTwo fuel c name = Some (Ret (M, String.EmptyString, None))) /\
  (forall fuel n, 1 <= n -> GetN fuel c name n = Some (Ret ([M], None))).
Proof.
  intros Hinv%reachable_inv Hdom Hsz.
  destruct (Get_successor c name Hinv Hsz) as (p&m&_&Hp&Hm&Hget).
  assert (m = M) as ->.
  { destruct (inv_owner c Hinv p m Hm) as (r&Hr&_).
    assert (m ∈ dom (members c)) as Hin
      by (rewrite (inv_replicas c Hinv); apply elem_of_dom; eauto).
    rewrite Hdom in Hin. by apply elem_of_singleton in Hin. }
  assert (owner c p = M) as Hown by (unfold owner; by rewrite Hm).
  assert (count c = 1) as Hcount.
  { rewrite (inv_count c Hinv), <- size_dom, Hdom, size_singleton. done. }
  split_and!; [done| |].
  - intros fuel. unfold GetTwo. rewrite decide_False by done.
    unfold index. rewrite Hp, Hown. by rewrite decide_True.
  - intros fuel n Hn. unfold GetN.
    destruct (decide (size (circle c) = 0%nat)); [done|].
    assert ((if decide (count c < n) then count c else n) = 1) as ->
      by (case_decide; lia).
    destruct (decide (1 < 0)); [lia|].
    unfold index. rewrite Hp, Hown. cbn.
    by destruct (decide (1 = 1)).
Qed.

Lemma single_member_serves_every_key_witness :
  Get (@ring_of refRuntime conf0 [OpAdd "a" [2]]) "foo" = Ret ("a", None) /\
  (forall fuel, GetTwo fuel (@ring_of refRuntime conf0 [OpAdd "a" [2]]) "foo"
                = Some (Ret ("a", String.EmptyString, None))) /\
  (forall fuel n, 1 <= n ->
     GetN fuel (@ring_of refRuntime conf0 [OpAdd "a" [2]]) "foo" n
     = Some (Ret (["a"], None))).
Proof.
  apply (@single_member_serves_every_key refRuntime
           (@ring_of refRuntime conf0 [OpAdd "a" [2]]) "a" "foo").
  - apply ring_of_reachable.
  - by_evaluation.
  - by_inequality.
Defined.

(** ** Reconciling twice *)

Lemma forM_unchanged {A S : Type} (body : S -> A -> outcome S) (s : S)
    (xs : list A) :
  (forall x, x ∈ xs -> body s x = Ret s) -> forM body s xs = Ret s.
Proof.
  induction xs as [|x xs IH]; intros Hx; cbn [forM]; [done|].
  rewrite Hx by apply list_elem_of_here. cbn.
  apply IH. intros y Hy. apply Hx. by apply list_elem_of_further.
Qed.

Lemma reconcile_dom `{rt : GoRuntime} {A : Type} (name : A -> string)
    (rep : Z -> A -> Z) (vs : list A) c c1 c' :
  ring_inv c ->
  forM (fun c k =>
          if found_in k (name <$> vs) then Ret c
          else match membersReplicas c !! k with
               | Some v => remove c k v
               | None => Ret c
               end) c (rangeMembers (members c)) = Ret c1 ->
  forM (fun c v =>
          match members c !! name v with
          | Some _ => Ret c
          | None => add c (name v) (rep (defaultNumberOfReplicas c) v)
          end) c1 vs = Ret c' ->
  dom (members c') = list_to_set (name <$> vs).
Proof.
  intros Hinv H1 H2.
  apply prune_loop in H1 as (Hinv1&_&Hg1&Hk1&_); [|done].
  apply (grow_loop name rep) in H2 as (_&_&Hdom2&_); [|done].
  rewrite Hdom2. apply set_eq. intros m.
  rewrite elem_of_union, elem_of_dom, elem_of_list_to_set. split; [|tauto].
  intros [Hm|Hm]; [|done].
  destruct (decide (m ∈ name <$> vs)) as [|Hno]; [done|].
  destruct (members c !! m) as [b|] eqn:Hb.
  - destruct (Hg1 m) as [Hn _]; [|rewrite Hn in Hm; by destruct Hm].
    unfold pruned. rewrite elem_of_rangeMembers.
    rewrite <- (inv_replicas_Some c m Hinv). split_and!; eauto.
  - destruct (Hk1 m) as [Hn _]; [|rewrite Hn, Hb in Hm; by destruct Hm].
    intros (_&_&Hr). apply (inv_replicas_Some c m Hinv) in Hr.
    rewrite Hb in Hr. by destruct Hr.
Qed.

Section unchanged.
Context `{rt : GoRuntime}.

Lemma Set_unchanged (c : Consistent) (elts : list string) :
  dom (members c) = list_to_set elts -> Set_ c elts = Ret c.
Proof.
  intros Hdom. unfold Set_. rewrite forM_unchanged; cbn.
  - apply forM_unchanged. intros v Hv.
    assert (is_Some (members c !! v)) as [b ->]; [|done].
    apply (elem_of_dom (members c)). rewrite Hdom.
    by apply elem_of_list_to_set.
  - intros k Hk.
    apply elem_of_rangeMembers, (elem_of_dom (members c)) in Hk.
    rewrite Hdom in Hk. apply elem_of_list_to_set, found_in_true in Hk.
    by rewrite Hk.
Qed.

Lemma SetWithReplicas_unchanged (c : Consistent) (elts : list SetElt) :
  dom (members c) = list_to_set (Elt <$> elts) -> SetWithReplicas c elts = Ret c.
Proof.
  intros Hdom. unfold SetWithReplicas. rewrite forM_unchanged; cbn.
  - apply forM_unchanged. intros v Hv.
    assert (is_Some (members c !! Elt v)) as [b ->]; [|done].
    apply (elem_of_dom (members c)). rewrite Hdom.
    apply elem_of_list_to_set, list_elem_of_fmap. eauto.
  - intros k Hk.
    apply elem_of_rangeMembers, (elem_of_dom (members c)) in Hk.
    rewrite Hdom in Hk. apply elem_of_list_to_set, found_in_true in Hk.
    by rewrite Hk.
Qed.

End unchanged.

(** X16: [Set] and [SetWithReplicas] leave a ring whose members are exactly
    the given names as it is, field by field: nothing is removed, nothing
    is added, the sorted hashes are not rebuilt, and the replica counts
    given in the entries are ignored, so [SetWithReplicas] cannot change
    the replica count of a member. *)
Theorem reconcile_same_members_unchanged `{rt : GoRuntime}
    (c : Consistent) (elts : list SetElt) :
  dom (members c) = list_to_set (Elt <$> elts) ->
  Set_ c (Elt <$> elts) = Ret c /\ SetWithReplicas c elts = Ret c.
Proof.
  intros Hdom. split.
  - by apply Set_unchanged.
  - by apply SetWithReplicas_unchanged.
Qed.

Lemma reconcile_same_members_unchanged_witness :
  @Set_ refRuntime ring_ab
    (Elt <$> [ {| Elt := "a"; NumberOfReplicas := 7 |};
               {| Elt := "bb"; NumberOfReplicas := 0 |} ]) = Ret ring_ab /\
  @SetWithReplicas refRuntime ring_ab
    [ {| Elt := "a"; NumberOfReplicas := 7 |};
      {| Elt := "bb"; NumberOfReplicas := 0 |} ] = Ret ring_ab.
Proof.
  apply (@reconcile_same_members_unchanged refRuntime ring_ab).
  by_evaluation.
Defined.

(** X17: [Set] and [SetWithReplicas] are idempotent on reachable rings: a
    second call with the same argument returns the state the first call
    left, field by field. *)
Theorem reconcile_idempotent `{rt : GoRuntime}
    (c : Consistent) (names : list string) (entries : list SetElt)
    (c1 c2 : Consistent) :
  reachable c ->
  Set_ c names = Ret c1 -> SetWithReplicas c entries = Ret c2 ->
  Set_ c1 names = Ret c1 /\ SetWithReplicas c2 entries = Ret c2.
Proof.
  intros Hinv%reachable_inv HSet HSetW. split.
  - revert HSet. unfold Set_ at 1.
    destruct (forM _ c (rangeMembers (members c))) as [c0|] eqn:H1; cbn;
      [|discriminate].
    intros H2. apply Set_unchanged.
    rewrite <- (list_fmap_id names) in H1.
    pose proof (reconcile_dom id (fun d _ => d) names c c0 c1 Hinv H1 H2)
      as Hdom.
    by rewrite list_fmap_id in Hdom.
  - revert HSetW. unfold SetWithReplicas at 1.
    destruct (forM _ c (rangeMembers (members c))) as [c0|] eqn:H1; cbn;
      [|discriminate].
    intros H2. apply SetWithReplicas_unchanged.
    pose (rep := fun (d : Z) (v : SetElt) =>
                   if decide (NumberOfReplicas v = 0) then d
                   else NumberOfReplicas v).
    exact (reconcile_dom Elt rep entries c c0 c2 Hinv H1 H2).
Qed.

Lemma reconcile_idempotent_witness :
  @Set_ refRuntime
    (@ring_of refRuntime conf0 [OpAdd "a" [2]; OpAdd "bb" [3]; OpSet ["bb"; "c"]])
    ["bb"; "c"]
  = Ret (@ring_of refRuntime conf0
           [OpAdd "a" [2]; OpAdd "bb" [3]; OpSet ["bb"; "c"]]) /\
  @SetWithReplicas refRuntime
    (@ring_of refRuntime conf0
       [OpAdd "a" [2]; OpAdd "bb" [3];
        OpSetWithReplicas [ {| Elt := "c"; NumberOfReplicas := 2 |} ]])
    [ {| Elt := "c"; NumberOfReplicas := 2 |} ]
  = Ret (@ring_of refRuntime conf0
           [OpAdd "a" [2]; OpAdd "bb" [3];
            OpSetWithReplicas [ {| Elt := "c"; NumberOfReplicas := 2 |} ]]).
Proof.
  apply (@reconcile_idempotent refRuntime ring_ab).
  - apply ring_of_reachable.
  - vm_compute. reflexivity.
  - vm_compute. reflexivity.
Defined.

(** ** [GetTwo] and [GetN] walk alike *)

Lemma GetTwo_loop_start_value c a s fuel i b b' :
  i <> s -> GetTwo_loop fuel c a s i b = GetTwo_loop fuel c a s i b'.
Proof.
  intros Hi. destruct fuel as [|fuel]; [done|]. cbn [GetTwo_loop].
  by destruct (decide (i = s)).
Qed.

Lemma GetN_loop_two c a s :
  forall fuel i,
    GetN_loop fuel c 2 s i [a] =
    match GetTwo_loop fuel c a s i a with
    | None => None
    | Some Panic => Some Panic
    | Some (Ret b) => Some (Ret (if decide (b = a) then [a] else [a; b]))
    end.
Proof.
  intros fuel. induction fuel as [|fuel IH]; intros i; [done|].
  cbn [GetN_loop GetTwo_loop]. case_decide.
  - by rewrite decide_True.
  - destruct (index _ _) as [h|]; [|done].
    cbn [sliceContainsMember]. destruct (decide (a = owner c h)) as [Heq|Hne].
    + rewrite <- Heq. rewrite (decide_False (P := a <> a)) by (by intros ?).
      cbn. apply IH.
    + cbn. rewrite (decide_True (P := owner c h <> a)) by congruence.
      destruct (decide (Z.of_nat 2 = 2)); [|lia].
      by rewrite decide_False by congruence.
Qed.

(** X18: on a ring with a position whose counter is at least 2,
    [GetN(name, 2)] and [GetTwo(name)] walk the ring alike: one returns
    when the other does, and when [GetTwo] returns [(a, b)], [GetN]
    returns [a] and [b] if they differ and [a] alone if [b] is [a]
    again. *)
Theorem GetN_two_is_GetTwo (fuel : nat) (c : Consistent) (name : string) :
  size (circle c) <> 0%nat -> 2 <= count c ->
  GetN fuel c name 2 =
  match GetTwo fuel c name with
  | None => None
  | Some Panic => Some Panic
  | Some (Ret (a, b, e)) =>
      Some (Ret (if decide (b = a) then [a] else [a; b], e))
  end.
Proof.
  intros Hsz Hcount. unfold GetN, GetTwo.
  destruct (decide (size (circle c) = 0%nat)); [done|].
  assert ((if decide (count c < 2) then count c else 2) = 2) as ->
    by (case_decide; lia).
  destruct (decide (2 < 0)); [lia|].
  destruct (index _ _) as [h|]; [|done]. cbn.
  destruct (decide (count c = 1)); [lia|].
  destruct (decide (Z.of_nat 1 = 2)); [lia|].
  rewrite (GetTwo_loop_start_value c (owner c h) _ fuel _ String.EmptyString
             (owner c h)) by lia.
  rewrite GetN_loop_two.
  by destruct (GetTwo_loop _ _ _ _ _ _) as [[b|]|].
Qed.

Lemma GetN_two_is_GetTwo_witness :
  GetN 10 ring_ab "foo" 2 =
  match GetTwo 10 ring_ab "foo" with
  | None => None
  | Some Panic => Some Panic
  | Some (Ret (a, b, e)) =>
      Some (Ret (if decide (b = a) then [a] else [a; b], e))
  end.
Proof.
  apply (GetN_two_is_GetTwo 10 ring_ab "foo").
  - by_inequality.
  - vm_compute. discriminate.
Defined.

(** ** Lookups and panics *)

Lemma index_wrapped c (i : nat) :
  data (sortedHashes c) <> [] ->
  exists h, index (sortedHashes c)
              (if decide (len (sortedHashes c) <= i)%nat then 0%nat else i)
            = Ret h.
Proof.
  intros Hne. unfold index.
  destruct (lookup_lt_is_Some_2 (data (sortedHashes c))
              (if decide (len (sortedHashes c) <= i)%nat then 0%nat else i))
    as [h ->]; [|eauto].
  unfold len. destruct (data (sortedHashes c)); [done|].
  case_decide; cbn in *; lia.
Qed.

Lemma GetTwo_loop_no_panic c a s :
  data (sortedHashes c) <> [] ->
  forall fuel i b, GetTwo_loop fuel c a s i b <> Some Panic.
Proof.
  intros Hne fuel. induction fuel as [|fuel IH]; intros i b; [done|].
  cbn [GetTwo_loop]. case_decide; [done|].
  destruct (index_wrapped c i Hne) as [h ->].
  case_decide; [done|apply IH].
Qed.

Lemma GetN_loop_no_panic c n s :
  data (sortedHashes c) <> [] ->
  forall fuel i res, GetN_loop fuel c n s i res <> Some Panic.
Proof.
  intros Hne fuel. induction fuel as [|fuel IH]; intros i res; [done|].
  cbn [GetN_loop]. case_decide; [done|].
  destruct (index_wrapped c i Hne) as [h ->].
  case_decide; [done|apply IH].
Qed.

(** X19: on a reachable ring with fewer than [2^63] members no lookup
    reads the sorted hashes out of range: [Get] and [GetTwo] never panic,
    and [GetN] panics exactly when the ring has a position and [n] is
    negative ([make] with a negative capacity). *)
Theorem lookups_panic_only_on_negative_bound `{rt : GoRuntime}
    (c : Consistent) (name : string) :
  reachable c -> Z.of_nat (size (members c)) < 2 ^ 63 ->
  Get c name <> Panic /\
  (forall fuel, GetTwo fuel c name <> Some Panic) /\
  (forall fuel n, GetN fuel c name n = Some Panic <->
                  size (circle c) <> 0%nat /\ n < 0).
Proof.
  intros Hinv%reachable_inv Hsmall.
  assert (0 <= count c) as Hcount.
  { rewrite (inv_count c Hinv), wrap64_small; lia. }
  destruct (decide (size (circle c) = 0%nat)) as [Hz|Hnz].
  { unfold Get, GetTwo, GetN. split_and!.
    - by rewrite decide_True.
    - intros fuel. by rewrite decide_True.
    - intros fuel n. rewrite decide_True by done. split; [done|tauto]. }
  destruct (Get_successor c name Hinv Hnz) as (p&m&_&Hp&Hm&Hget).
  assert (data (sortedHashes c) <> []) as Hne by (by intros Hnil; rewrite Hnil in Hp).
  split_and!.
  - by rewrite Hget.
  - intros fuel. unfold GetTwo. rewrite decide_False by done.
    unfold index. rewrite Hp. case_decide; [done|].
    pose proof (GetTwo_loop_no_panic c (owner c p) (search c (hashKey c name))
                  Hne fuel (search c (hashKey c name) + 1) String.EmptyString).
    by destruct (GetTwo_loop _ _ _ _ _ _) as [[b|]|].
  - intros fuel n. unfold GetN.
    destruct (decide (size (circle c) = 0%nat)); [done|].
    set (n' := if decide (count c < n) then count c else n).
    assert (n' < 0 <-> n < 0) as Hcap by (unfold n'; case_decide; lia).
    clearbody n'.
    destruct (decide (n' < 0)) as [Hneg|Hpos].
    + split; [|done]. intros _. split; [done|]. by apply Hcap.
    + unfold index. rewrite Hp. cbn. split; [|intros [_ Hn]; tauto].
      case_decide; [done|].
      pose proof (GetN_loop_no_panic c n' (search c (hashKey c name)) Hne fuel
                    (search c (hashKey c name) + 1) [owner c p]).
      by destruct (GetN_loop _ _ _ _ _ _) as [[b|]|].
Qed.

Lemma lookups_panic_only_on_negative_bound_witness :
  Get ring_ab "foo" <> Panic /\
  (forall fuel, GetTwo fuel ring_ab "foo" <> Some Panic) /\
  (forall fuel n, GetN fuel ring_ab "foo" n = Some Panic <->
                  size (circle ring_ab) <> 0%nat /\ n < 0).
Proof.
  apply (@lookups_panic_only_on_negative_bound refRuntime ring_ab "foo").
  - apply ring_of_reachable.
  - vm_compute. reflexivity.
Defined.

(** ** What a call leaves alone *)


Lemma kept_as_is_refl c : kept_as_is c c.
Proof. split; [by left|done]. Qed.

Lemma reconcile_kept `{rt : GoRuntime} {A : Type} (name : A -> string)
    (rep : Z -> A -> Z) (vs : list A) c c1 c' :
  ring_inv c ->
  forM (fun c k =>
          if found_in k (name <$> vs) then Ret c
          else match membersReplicas c !! k with
               | Some v => remove c k v
               | None => Ret c
               end) c (rangeMembers (members c)) = Ret c1 ->
  forM (fun c v =>
          match members c !! name v with
          | Some _ => Ret c
          | None => add c (name v) (rep (defaultNumberOfReplicas c) v)
          end) c1 vs = Ret c' ->
  kept_as_is c c'.
Proof.
  intros Hinv H1 H2.
  pose proof (reconcile_dom name rep vs c c1 c' Hinv H1 H2) as Hdom.
  apply prune_loop in H1 as (Hinv1&_&Hg1&Hk1&Hsub1&_); [|done].
  apply (grow_loop name rep) in H2 as (Hinv2&_&_&Hold2&_&Hsub2&_); [|done].
  assert (forall m, is_Some (members c !! m) -> m ∈ name <$> vs ->
                    ~ pruned c (name <$> vs) (rangeMembers (members c)) m)
    as Hstay by (intros m _ Hm (_&Hno&_); done).
  split.
  - intros m r Hr.
    assert (is_Some (members c !! m)) as Hm
      by (apply (inv_replicas_Some c m Hinv); eauto).
    destruct (decide (m ∈ name <$> vs)) as [Hin|Hout].
    + left. destruct (Hk1 m (Hstay m Hm Hin)) as [Hm1 Hr1].
      rewrite Hold2; [by rewrite Hr1|by rewrite Hm1].
    + right. assert (members c' !! m = None) as Hgone.
      { apply (not_elem_of_dom (members c')). rewrite Hdom.
        by rewrite elem_of_list_to_set. }
      split; [done|]. by apply (inv_member_replicas c' m Hinv2).
  - intros h m Hm Hh. apply Hsub1.
    destruct (Hsub2 h m Hh) as [|[Hnew Hin]]; [done|].
    destruct (Hk1 m (Hstay m Hm Hin)) as [Hm1 _].
    rewrite Hm1 in Hnew. rewrite Hnew in Hm. by destruct Hm.
Qed.

(** X20: a call of [Add], [Remove], [Set] or [SetWithReplicas] on a
    reachable ring leaves the members that stay as they are: a member
    keeps its stored replica count or is gone from both member maps, and
    a name that was a member owns no position afterwards that it did not
    own before.  A replica count changes only by removing the member and
    adding it again. *)
Theorem call_keeps_staying_members `{rt : GoRuntime}
    (c : Consistent) (o : op) (c' : Consistent) :
  reachable c -> step c o = Ret c' -> kept_as_is c c'.
Proof.
  intros Hinv%reachable_inv. destruct o as [elt rs|elt|elts|elts]; cbn.
  - unfold Add. destruct (members c !! elt) eqn:Hfresh.
    { intros [= <-]. apply kept_as_is_refl. }
    intros (_&Hc&Hm&Hr&_)%add_Ret. split.
    + intros m r Hmr. left. rewrite Hr, lookup_insert_ne; [done|].
      intros <-. apply (inv_member_replicas c elt Hinv) in Hfresh. congruence.
    + intros h m Hmem. rewrite Hc. case_decide; [|done].
      intros [= <-]. rewrite Hfresh in Hmem. by destruct Hmem.
  - unfold Remove. destruct (members c !! elt) eqn:Hmem; cbn;
      [|intros [= <-]; apply kept_as_is_refl].
    destruct (membersReplicas c !! elt) as [r|] eqn:Hrep; cbn;
      [|intros [= <-]; apply kept_as_is_refl].
    destruct (remove c elt r) as [c1|] eqn:Hrem; cbn; [|discriminate].
    intros [= <-]. apply remove_Ret in Hrem as (_&Hc&Hm&Hr&_). split.
    + intros m r' Hmr. rewrite Hm, Hr. destruct (decide (m = elt)) as [->|Hne].
      * right. by rewrite !lookup_delete_eq.
      * left. by rewrite lookup_delete_ne.
    + intros h m _. rewrite Hc. by case_decide.
  - unfold Set_.
    destruct (forM _ c (rangeMembers (members c))) as [c1|] eqn:H1; cbn;
      [|discriminate].
    intros H2. rewrite <- (list_fmap_id elts) in H1.
    exact (reconcile_kept id (fun d _ => d) elts c c1 c' Hinv H1 H2).
  - unfold SetWithReplicas.
    destruct (forM _ c (rangeMembers (members c))) as [c1|] eqn:H1; cbn;
      [|discriminate].
    intros H2.
    pose (rep := fun (d : Z) (v : SetElt) =>
                   if decide (NumberOfReplicas v = 0) then d
                   else NumberOfReplicas v).
    exact (reconcile_kept Elt rep elts c c1 c' Hinv H1 H2).
Qed.

Lemma call_keeps_staying_members_witness :
  kept_as_is ring_ab
    (@ring_of refRuntime conf0 [OpAdd "a" [2]; OpAdd "bb" [3]; OpSet ["bb"; "c"]]).
Proof.
  apply (@call_keeps_staying_members refRuntime ring_ab (OpSet ["bb"; "c"])).
  - apply ring_of_reachable.
  - vm_compute. reflexivity.
Defined.

(** ** The order of two additions *)

(** X21: adding two new members in either order gives the same members,
    replica counts and counter; the positions differ only where a replica
    hash of one is a replica hash of the other, which goes to the member
    added last; when there is no such hash the two rings cannot be told
    apart. *)
Theorem Add_order `{rt : GoRuntime}
    (c : Consistent) (a b : string) (ra rb : Z) (ca cab cb cba : Consistent) :
  a <> b -> members c !! a = None -> members c !! b = None ->
  Add c a [ra] = Ret ca -> Add ca b [rb] = Ret cab ->
  Add c b [rb] = Ret cb -> Add cb a [ra] = Ret cba ->
  members cab = members cba /\
  membersReplicas cab = membersReplicas cba /\
  count cab = count cba /\
  (forall h, h ∈ replicaHashes c a ra -> h ∈ replicaHashes c b rb ->
     circle cab !! h = Some b /\ circle cba !! h = Some a) /\
  (forall h, ~ (h ∈ replicaHashes c a ra /\ h ∈ replicaHashes c b rb) ->
     circle cab !! h = circle cba !! h) /\
  (Forall (fun h => h ∉ replicaHashes c b rb) (replicaHashes c a ra) ->
   obs_eq cab cba).
Proof.
  intros Hab Ha Hb. unfold Add. rewrite Ha, Hb. cbn.
  intros (_&Hc1&Hm1&Hr1&Hs1&Hn1&Hcfg1)%add_Ret.
  rewrite Hm1, lookup_insert_ne by done. rewrite Hb.
  intros (_&Hc2&Hm2&Hr2&Hs2&Hn2&Hcfg2)%add_Ret.
  intros (_&Hc3&Hm3&Hr3&Hs3&Hn3&Hcfg3)%add_Ret.
  rewrite Hm3, lookup_insert_ne by done. rewrite Ha.
  intros (_&Hc4&Hm4&Hr4&Hs4&Hn4&Hcfg4)%add_Ret.
  rewrite (replicaHashes_same c ca) in Hc2 by done.
  rewrite (replicaHashes_same c cb) in Hc4 by done.
  assert (members cab = members cba) as Hmem.
  { rewrite Hm2, Hm1, Hm4, Hm3. by apply insert_insert_ne. }
  assert (membersReplicas cab = membersReplicas cba) as Hrep.
  { rewrite Hr2, Hr1, Hr4, Hr3. by apply insert_insert_ne. }
  assert (count cab = count cba) as Hcount.
  { rewrite Hn2, Hn1, Hn4, Hn3. done. }
  assert (forall h, ~ (h ∈ replicaHashes c a ra /\ h ∈ replicaHashes c b rb) ->
                    circle cab !! h = circle cba !! h) as Hagree.
  { intros h Hno. rewrite Hc2, Hc1, Hc4, Hc3. repeat case_decide; tauto. }
  split_and!; [done|done|done| |done|].
  - intros h Hha Hhb. rewrite Hc2, Hc4. by rewrite !decide_True.
  - intros Hdisj. rewrite Forall_forall in Hdisj.
    assert (circle cab = circle cba) as Hcirc.
    { apply map_eq. intros h. apply Hagree. intros [? ?]. by eapply Hdisj. }
    destruct Hcfg1 as (?&?&?), Hcfg2 as (?&?&?), Hcfg3 as (?&?&?),
      Hcfg4 as (?&?&?).
    unfold obs_eq. split_and!; try congruence.
Qed.

Lemma Add_order_witness :
  obs_eq (@ring_of refRuntime conf0 [OpAdd "a" [2]; OpAdd "bb" [3]])
         (@ring_of refRuntime conf0 [OpAdd "bb" [3]; OpAdd "a" [2]]).
Proof.
  assert (@Add refRuntime (New conf0) "a" [2]
          = Ret (@ring_of refRuntime conf0 [OpAdd "a" [2]])) as H1
    by (vm_compute; reflexivity).
  assert (@Add refRuntime (@ring_of refRuntime conf0 [OpAdd "a" [2]]) "bb" [3]
          = Ret (@ring_of refRuntime conf0 [OpAdd "a" [2]; OpAdd "bb" [3]]))
    as H2 by (vm_compute; reflexivity).
  assert (@Add refRuntime (New conf0) "bb" [3]
          = Ret (@ring_of refRuntime conf0 [OpAdd "bb" [3]])) as H3
    by (vm_compute; reflexivity).
  assert (@Add refRuntime (@ring_of refRuntime conf0 [OpAdd "bb" [3]]) "a" [2]
          = Ret (@ring_of refRuntime conf0 [OpAdd "bb" [3]; OpAdd "a" [2]]))
    as H4 by (vm_compute; reflexivity).
  assert ("a" <> "bb") as Hne by discriminate.
  destruct (@Add_order refRuntime (New conf0) "a" "bb" 2 3 _ _ _ _
              Hne eq_refl eq_refl H1 H2 H3 H4) as (_&_&_&_&_&Hobs).
  apply Hobs. by_evaluation.
Defined.

(** ** Emptying the ring *)

Lemma no_members_no_positions c :
  ring_inv c -> members c = ∅ ->
  circle c = ∅ /\ membersReplicas c = ∅ /\
  data (sortedHashes c) = [] /\ count c = 0.
Proof.
  intros Hinv Hm.
  assert (circle c = ∅) as Hc.
  { apply map_empty. intros h. destruct (circle c !! h) as [m|] eqn:Hh; [|done].
    destruct (inv_owner c Hinv h m Hh) as (r&Hr&_).
    assert (is_Some (members c !! m)) as [b Hb]
      by (apply (inv_replicas_Some c m Hinv); eauto).
    by rewrite Hm, lookup_empty in Hb. }
  split_and!; [done| | |].
  - apply map_empty. intros m. apply (inv_member_replicas c m Hinv).
    by rewrite Hm, lookup_empty.
  - by rewrite (inv_sorted c Hinv), Hc, sorted_keys_empty.
  - by rewrite (inv_count c Hinv), Hm, map_size_empty.
Qed.

(** X22: [Set] with no names empties a reachable ring: afterwards there
    is no member, no replica count, no position (none is left over from
    a collision), no sorted hash, the counter is 0, and every lookup
    reports the empty circle. *)
Theorem Set_nil_empties `{rt : GoRuntime}
    (c : Consistent) (c' : Consistent) :
  reachable c -> Set_ c [] = Ret c' ->
  members c' = ∅ /\ circle c' = ∅ /\ membersReplicas c' = ∅ /\
  data (sortedHashes c') = [] /\ count c' = 0 /\
  (forall name, Get c' name = Ret (String.EmptyString, Some ErrEmptyCircle)) /\
  (forall fuel name,
     GetTwo fuel c' name
     = Some (Ret (String.EmptyString, String.EmptyString, Some ErrEmptyCircle))) /\
  (forall fuel name n,
     GetN fuel c' name n = Some (Ret ([], Some ErrEmptyCircle))).
Proof.
  intros Hinv%reachable_inv HSet.
  pose proof (Set_inv c [] c' Hinv HSet) as Hinv'.
  assert (members c' = ∅) as Hm.
  { revert HSet. unfold Set_.
    destruct (forM _ c (rangeMembers (members c))) as [c1|] eqn:H1; cbn;
      [|discriminate].
    intros H2.
    pose proof (reconcile_dom id (fun d _ => d) [] c c1 c' Hinv H1 H2) as Hdom.
    apply dom_empty_inv_L. by rewrite Hdom. }
  destruct (no_members_no_positions c' Hinv' Hm) as (Hc&Hr&Hd&Hn).
  assert (size (circle c') = 0%nat) as Hsz by (by rewrite Hc, map_size_empty).
  split_and!; try done.
  - intros name. unfold Get. by rewrite decide_True.
  - intros fuel name. unfold GetTwo. by rewrite decide_True.
  - intros fuel name n. unfold GetN. by rewrite decide_True.
Qed.

Lemma Set_nil_empties_witness :
  members (@ring_of refRuntime conf0
             [OpAdd "a" [2]; OpAdd "bb" [3]; OpSet []]) = ∅ /\
  circle (@ring_of refRuntime conf0
            [OpAdd "a" [2]; OpAdd "bb" [3]; OpSet []]) = ∅.
Proof.
  destruct (@Set_nil_empties refRuntime ring_ab
              (@ring_of refRuntime conf0
                 [OpAdd "a" [2]; OpAdd "bb" [3]; OpSet []]))
    as (Hm&Hc&_).
  - apply ring_of_reachable.
  - vm_compute. reflexivity.
  - by split.
Defined.

(** ** Names that differ by a leading digit *)

Lemma string_append_assoc (a b c : string) : (a +:+ b) +:+ c = a +:+ (b +:+ c).
Proof.
  induction a as [|x a IH]; [done|].
  change (String x ((a +:+ b) +:+ c) = String x (a +:+ (b +:+ c))).
  by rewrite IH.
Qed.

Lemma Itoa_two_digits (i d : Z) :
  1 <= i <= 9 -> 0 <= d <= 9 -> Itoa (10 * i + d) = Itoa i +:+ Itoa d.
Proof.
  intros Hi Hd.
  assert (Forall (fun i => Forall (fun d => Itoa (10 * i + d) = Itoa i +:+ Itoa d)
                             (seqZ 0 10)) (seqZ 1 9)) as Hall
    by by_evaluation.
  rewrite Forall_forall in Hall.
  assert (i ∈ seqZ 1 9) as Hi' by (apply elem_of_seqZ; lia).
  specialize (Hall i Hi'). rewrite Forall_forall in Hall.
  apply Hall. apply elem_of_seqZ. lia.
Qed.

(** X23: the replica key is the index in decimal followed by the name,
    with nothing between them, so the key of replica [10*i + d] of a name
    is the key of replica [i] of that name with the digit [d] put in
    front ([1 <= i <= 9]): two such members with enough replicas share
    that position under every hash function, custom ones included. *)
Theorem digit_prefixed_name_shares_positions
    (c : Consistent) (elt : string) (i d r1 r2 : Z) :
  1 <= i <= 9 -> 0 <= d <= 9 -> 10 * i + d < r1 -> i < r2 ->
  eltKey (Itoa d +:+ elt) i = eltKey elt (10 * i + d) /\
  hashKey c (eltKey elt (10 * i + d)) ∈ replicaHashes c elt r1 /\
  hashKey c (eltKey elt (10 * i + d)) ∈ replicaHashes c (Itoa d +:+ elt) r2.
Proof.
  intros Hi Hd Hr1 Hr2.
  assert (eltKey (Itoa d +:+ elt) i = eltKey elt (10 * i + d)) as Hkey.
  { unfold eltKey. by rewrite Itoa_two_digits, string_append_assoc. }
  split_and!; [done| |].
  - apply elem_of_replicaHashes. exists (10 * i + d). split; [lia|done].
  - apply elem_of_replicaHashes. exists i. split; [lia|]. by rewrite <- Hkey.
Qed.

Lemma digit_prefixed_name_shares_positions_witness :
  eltKey (Itoa 1 +:+ "a") 1 = eltKey "a" (10 * 1 + 1) /\
  hashKey (New conf0) (eltKey "a" (10 * 1 + 1))
    ∈ replicaHashes (New conf0) "a" 43 /\
  hashKey (New conf0) (eltKey "a" (10 * 1 + 1))
    ∈ replicaHashes (New conf0) (Itoa 1 +:+ "a") 43.
Proof.
  apply (digit_prefixed_name_shares_positions (New conf0) "a" 1 1 43 43); lia.
Defined.

(** ** CRC-32 collisions between names of one length *)

Lemma lxor_swap (a b c d : Z) :
  Z.lxor (Z.lxor a b) (Z.lxor c d) = Z.lxor (Z.lxor a c) (Z.lxor b d).
Proof.
  apply Z.bits_inj'. intros n _. rewrite !Z.lxor_spec.
  by destruct (Z.testbit a n), (Z.testbit b n), (Z.testbit c n),
    (Z.testbit d n).
Qed.

Lemma lxor_cancel (a b p : Z) :
  Z.lxor (Z.lxor a p) (Z.lxor b p) = Z.lxor a b.
Proof.
  apply Z.bits_inj'. intros n _. rewrite !Z.lxor_spec.
  by destruct (Z.testbit a n), (Z.testbit b n), (Z.testbit p n).
Qed.

Lemma crc32_bit_lxor (x y : Z) :
  crc32_bit (Z.lxor x y) = Z.lxor (crc32_bit x) (crc32_bit y).
Proof.
  unfold crc32_bit. rewrite Z.lxor_spec, Z.shiftr_lxor.
  destruct (Z.testbit x 0), (Z.testbit y 0); cbn [xorb].
  - by rewrite lxor_cancel.
  - apply Z.bits_inj'. intros n _. rewrite !Z.lxor_spec.
    by destruct (Z.testbit (Z.shiftr x 1) n), (Z.testbit (Z.shiftr y 1) n),
      (Z.testbit 3988292384 n).
  - by rewrite Z.lxor_assoc.
  - done.
Qed.

Lemma crc32_bits_lxor (n : nat) (x y : Z) :
  Nat.iter n crc32_bit (Z.lxor x y)
  = Z.lxor (Nat.iter n crc32_bit x) (Nat.iter n crc32_bit y).
Proof.
  induction n as [|n IH]; [done|]. rewrite !Nat.iter_succ.
  by rewrite IH, crc32_bit_lxor.
Qed.

Lemma crc32_byte_lxor (s t x y : Z) :
  Z.lxor (crc32_byte s x) (crc32_byte t y)
  = Nat.iter 8 crc32_bit (Z.lxor (Z.lxor s t) (Z.lxor x y)).
Proof. unfold crc32_byte. by rewrite <- crc32_bits_lxor, lxor_swap. Qed.

(** The difference of two runs of the checksum over inputs of one length
    depends on the difference of the two start values only. *)
Lemma crc32_difference (a : list Z) :
  forall (b : list Z) (s1 s2 t1 t2 : Z),
    length a = length b -> Z.lxor s1 s2 = Z.lxor t1 t2 ->
    Z.lxor (foldl crc32_byte s1 a) (foldl crc32_byte s2 b)
    = Z.lxor (foldl crc32_byte t1 a) (foldl crc32_byte t2 b).
Proof.
  induction a as [|x a IH]; intros [|y b] s1 s2 t1 t2 Hlen Hs;
    cbn in Hlen; try lia; cbn [foldl]; [done|].
  apply IH; [lia|]. by rewrite !crc32_byte_lxor, Hs.
Qed.

Lemma bytes_append (p a : string) : bytes (p +:+ a) = bytes p ++ bytes a.
Proof.
  induction p as [|x p IH]; [done|].
  change (bytes (String x (p +:+ a)) = bytes (String x p) ++ bytes a).
  unfold bytes in *. cbn. by rewrite IH.
Qed.

Lemma length_bytes (a : string) : length (bytes a) = String.length a.
Proof.
  unfold bytes. rewrite length_fmap.
  induction a as [|x a IH]; cbn; [done|]. by rewrite IH.
Qed.

(** X24: CRC-32 is linear, so a collision between two names of the same
    length carries over to every common prefix put in front of them; as
    the replica key is the index followed by the name, two such members
    collide at every replica index: on a ring with the default hash they
    have the same replica hashes. *)
Theorem crc32_collision_at_every_replica
    (c : Consistent) (a b : string) :
  customHasher c = None -> useFnv c = false ->
  String.length a = String.length b -> hashKeyCRC32 a = hashKeyCRC32 b ->
  (forall p, hashKeyCRC32 (p +:+ a) = hashKeyCRC32 (p +:+ b)) /\
  (forall r, replicaHashes c a r = replicaHashes c b r).
Proof.
  intros Hcustom Hfnv Hlen Hcoll.
  assert (length (bytes a) = length (bytes b)) as Hlen'
    by (by rewrite !length_bytes).
  assert (forall s, foldl crc32_byte s (bytes a) = foldl crc32_byte s (bytes b))
    as Hsame.
  { intros s. apply Z.lxor_eq.
    rewrite (crc32_difference (bytes a) (bytes b) s s 0xffffffff 0xffffffff Hlen')
      by (by rewrite !Z.lxor_nilpotent).
    rewrite !hashKeyCRC32_plain in Hcoll. unfold ChecksumIEEE in Hcoll.
    rewrite <- (lxor_cancel _ _ 4294967295), Hcoll.
    apply Z.lxor_nilpotent. }
  assert (forall p, hashKeyCRC32 (p +:+ a) = hashKeyCRC32 (p +:+ b)) as Hext.
  { intros p. rewrite !hashKeyCRC32_plain. unfold ChecksumIEEE.
    by rewrite !bytes_append, !foldl_app, Hsame. }
  split; [done|]. intros r. unfold replicaHashes. apply list_fmap_ext.
  intros _ i _. unfold hashKey, eltKey. rewrite Hcustom, Hfnv. apply Hext.
Qed.

Lemma crc32_collision_at_every_replica_witness :
  (forall p, hashKeyCRC32 (p +:+ "plumless") = hashKeyCRC32 (p +:+ "buckeroo")) /\
  (forall r, replicaHashes (New conf0) "plumless" r
             = replicaHashes (New conf0) "buckeroo" r).
Proof.
  apply (crc32_collision_at_every_replica (New conf0) "plumless" "buckeroo").
  - reflexivity.
  - reflexivity.
  - reflexivity.
  - vm_compute. reflexivity.
Defined.

(** ** The sort interface of [uints] *)

Lemma insert_Permutation (l : list Z) (i : nat) (x y : Z) :
  l !! i = Some y -> <[i := x]> l ≡ₚ x :: delete i l.
Proof.
  intros Hi. apply lookup_lt_Some in Hi as Hlt.
  rewrite insert_take_drop by done. rewrite delete_take_drop.
  by rewrite <- Permutation_middle.
Qed.

Lemma Swap_Ret (x x' : uints) (i j : nat) :
  Swap x i j = Ret x' ->
  exists xi xj, data x !! i = Some xi /\ data x !! j = Some xj /\
    data x' = <[j := xi]> (<[i := xj]> (data x)) /\ cap x' = cap x /\
    data x' ≡ₚ data x.
Proof.
  unfold Swap, index.
  destruct (data x !! j) as [xj|] eqn:Hj; cbn; [|discriminate].
  destruct (data x !! i) as [xi|] eqn:Hi; cbn; [|discriminate].
  intros [= <-]. cbn. exists xi, xj. split_and!; try done.
  assert (<[i := xj]> (data x) !! j = Some xj) as Hj'.
  { destruct (decide (i = j)) as [->|Hne].
    - rewrite list_lookup_insert_eq; [done|by eapply lookup_lt_Some].
    - by rewrite list_lookup_insert_ne. }
  etrans; [apply (insert_Permutation _ j xi xj Hj')|].
  etrans; [|symmetry; apply (delete_Permutation (data x) i xi Hi)].
  apply Permutation_cons; [done|].
  apply (Permutation_cons_inv (a := xj)).
  etrans; [symmetry; apply (delete_Permutation _ j xj Hj')|].
  apply (insert_Permutation _ i xj xi Hi).
Qed.

Lemma swaps_Permutation (x x' : uints) :
  swaps x x' -> data x' ≡ₚ data x /\ cap x' = cap x.
Proof.
  induction 1 as [x|x i j x' x'' Hswap _ [IHp IHc]]; [done|].
  apply Swap_Ret in Hswap as (xi&xj&_&_&_&Hc&Hp).
  split; [by rewrite IHp|congruence].
Qed.

Lemma swaps_trans (x y z : uints) : swaps x y -> swaps y z -> swaps x z.
Proof.
  induction 1 as [x|x i j x' x'' Hswap _ IH]; [done|].
  intros Hz. eapply swaps_step; [done|by apply IH].
Qed.

Lemma swaps_cons (a : Z) (x x' : uints) :
  swaps x x' ->
  swaps {| data := a :: data x; cap := cap x |}
        {| data := a :: data x'; cap := cap x' |}.
Proof.
  induction 1 as [x|x i j x' x'' Hswap _ IH]; [apply swaps_refl|].
  apply (swaps_step _ (S i) (S j) _ _) with (2 := IH).
  revert Hswap. unfold Swap, index. cbn.
  destruct (data x !! j) as [xj|]; cbn; [|discriminate].
  destruct (data x !! i) as [xi|]; cbn; [|discriminate].
  by intros [= <-].
Qed.

Lemma swaps_reach (l l' : list Z) (cp : Z) :
  l ≡ₚ l' -> swaps {| data := l; cap := cp |} {| data := l'; cap := cp |}.
Proof.
  induction 1 as [|a l l' _ IH|a b l|l l' l'' _ IH1 _ IH2].
  - apply swaps_refl.
  - exact (swaps_cons a _ _ IH).
  - eapply (swaps_step _ 0 1); [|apply swaps_refl]. done.
  - by eapply swaps_trans.
Qed.

Lemma StronglySorted_le_iff_lookup (l : list Z) :
  StronglySorted Z.le l <->
  forall i j a b, (i < j)%nat -> l !! i = Some a -> l !! j = Some b -> a <= b.
Proof.
  induction l as [|x l IH].
  - split; [|constructor]. intros _ i j a b _ Hi. by rewrite lookup_nil in Hi.
  - split.
    + intros [Hs Hall]%StronglySorted_inv i j a b Hij Hi Hj.
      destruct j as [|j]; [lia|]. cbn in Hj. destruct i as [|i]; cbn in Hi.
      * injection Hi as ->. rewrite Forall_forall in Hall.
        apply Hall. by eapply list_elem_of_lookup_2.
      * apply (proj1 IH Hs i j); [lia|done|done].
    + intros Hl. constructor.
      * apply (proj2 IH). intros i j a b Hij Hi Hj.
        apply (Hl (S i) (S j)); [lia|done|done].
      * apply Forall_lookup. intros k b Hk. by apply (Hl 0%nat (S k)); [lia|..].
Qed.

Lemma no_inversion_iff_sorted (x : uints) :
  (forall i j, (i < j)%nat -> Z.of_nat j < Len x -> Less x j i = Ret false)
  <-> StronglySorted Z.le (data x).
Proof.
  rewrite StronglySorted_le_iff_lookup. unfold Len, len, Less, index. split.
  - intros Hless i j a b Hij Hi Hj.
    apply lookup_lt_Some in Hj as Hlt.
    specialize (Hless i j Hij ltac:(lia)). rewrite Hi, Hj in Hless. cbn in Hless.
    injection Hless as Hless. apply bool_decide_eq_false in Hless. lia.
  - intros Hsorted i j Hij Hj.
    destruct (lookup_lt_is_Some_2 (data x) j) as [b Hb]; [lia|].
    destruct (lookup_lt_is_Some_2 (data x) i) as [a Ha]; [lia|].
    rewrite Hb, Ha. cbn. f_equal. apply bool_decide_eq_false.
    specialize (Hsorted i j a b Hij Ha Hb). lia.
Qed.

(** X25: the methods [Len], [Less] and [Swap] fix what [sort.Sort] does to
    a slice of hashes: the slices that can be reached by calls of [Swap]
    and on which [Less(j, i)] is false for all [i < j < Len()] are exactly
    one, the ascending arrangement of the elements in the same backing
    array. *)
Theorem Sort_fixed_by_Less_and_Swap (x x' : uints) :
  (swaps x x' /\
   forall i j, (i < j)%nat -> Z.of_nat j < Len x' -> Less x' j i = Ret false)
  <-> x' = Sort x.
Proof.
  rewrite no_inversion_iff_sorted. split.
  - intros [[Hp Hc]%swaps_Permutation Hs].
    destruct x' as [l' cp']. unfold Sort. cbn in *. f_equal; [|done].
    apply (Sorted_unique Z.le).
    + by apply StronglySorted_Sorted.
    + apply Sorted_merge_sort; apply _.
    + by rewrite merge_sort_Permutation.
  - intros ->. split.
    + destruct x as [l cp]. unfold Sort. cbn. apply swaps_reach.
      by rewrite merge_sort_Permutation.
    + unfold Sort. cbn. apply StronglySorted_merge_sort; apply _.
Qed.

(** ** Hash values are 32-bit *)

Lemma lxor_uint32 (a b : Z) :
  0 <= a < 2 ^ 32 -> 0 <= b < 2 ^ 32 -> 0 <= Z.lxor a b < 2 ^ 32.
Proof.
  intros Ha Hb.
  assert (0 <= Z.lxor a b) as Hnn by (apply Z.lxor_nonneg; lia).
  split; [done|].
  apply (Z.bounded_iff_bits_nonneg 32); [lia|done|]. intros l Hl.
  rewrite Z.lxor_spec.
  rewrite (proj1 (Z.bounded_iff_bits_nonneg 32 a ltac:(lia) ltac:(lia))) by lia.
  by rewrite (proj1 (Z.bounded_iff_bits_nonneg 32 b ltac:(lia) ltac:(lia))) by lia.
Qed.

Lemma crc32_bit_uint32 (x : Z) : 0 <= x < 2 ^ 32 -> 0 <= crc32_bit x < 2 ^ 32.
Proof.
  intros Hx.
  assert (0 <= Z.shiftr x 1 < 2 ^ 32) as Hs.
  { rewrite Z.shiftr_div_pow2 by lia. split.
    - apply Z.div_pos; lia.
    - apply Z.div_lt_upper_bound; lia. }
  unfold crc32_bit. destruct (Z.testbit x 0); [|done].
  apply lxor_uint32; [done|lia].
Qed.

Lemma crc32_byte_uint32 (crc b : Z) :
  0 <= crc < 2 ^ 32 -> 0 <= b < 2 ^ 32 -> 0 <= crc32_byte crc b < 2 ^ 32.
Proof.
  intros Hc Hb. unfold crc32_byte.
  pose proof (lxor_uint32 crc b Hc Hb) as Hx. revert Hx.
  generalize (Z.lxor crc b). intros x Hx.
  do 8 (rewrite Nat.iter_succ; apply crc32_bit_uint32). done.
Qed.

Lemma bytes_uint8 (s : string) : Forall (fun b => 0 <= b < 256) (bytes s).
Proof.
  unfold bytes. apply Forall_fmap, Forall_forall. intros a _. cbn.
  pose proof (Ascii.N_ascii_bounded a). lia.
Qed.

Lemma ChecksumIEEE_uint32 (bs : list Z) :
  Forall (fun b => 0 <= b < 256) bs -> 0 <= ChecksumIEEE bs < 2 ^ 32.
Proof.
  intros Hbs. unfold ChecksumIEEE. apply lxor_uint32; [|lia].
  assert (0 <= 4294967295 < 2 ^ 32) as Hinit by lia. revert Hinit.
  generalize 4294967295. induction Hbs as [|b bs Hb _ IH]; intros s Hs; [done|].
  cbn [foldl]. apply IH. apply crc32_byte_uint32; [done|lia].
Qed.

Lemma Sum32a_uint32 (bs : list Z) : 0 <= Sum32a bs < 2 ^ 32.
Proof.
  unfold Sum32a.
  assert (0 <= 2166136261 < 2 ^ 32) as Hinit by lia. revert Hinit.
  generalize 2166136261. induction bs as [|b bs IH]; intros s Hs; [done|].
  cbn [foldl]. apply IH. unfold fnv32a_byte, wrap32.
  apply Z.mod_pos_bound. lia.
Qed.

(** X26: with a built-in hash strategy (CRC-32 or FNV-1a) every hash is a
    32-bit value, and so is every position and every sorted hash of a
    reachable ring: the keys of [circle] are what a [uint32] can hold. *)
Theorem positions_are_uint32 `{rt : GoRuntime} (c : Consistent) :
  reachable c -> customHasher c = None ->
  (forall key, 0 <= hashKey c key < 2 ^ 32) /\
  (forall h, is_Some (circle c !! h) -> 0 <= h < 2 ^ 32) /\
  Forall (fun h => 0 <= h < 2 ^ 32) (data (sortedHashes c)).
Proof.
  intros Hinv%reachable_inv Hcustom.
  assert (forall key, 0 <= hashKey c key < 2 ^ 32) as Hhash.
  { intros key. unfold hashKey. rewrite Hcustom. destruct (useFnv c).
    - apply Sum32a_uint32.
    - rewrite hashKeyCRC32_plain. apply ChecksumIEEE_uint32, bytes_uint8. }
  assert (forall h, is_Some (circle c !! h) -> 0 <= h < 2 ^ 32) as Hpos.
  { intros h [m Hm]. destruct (inv_owner c Hinv h m Hm) as (r&_&Hin).
    apply elem_of_replicaHashes in Hin as (i&_&->). apply Hhash. }
  split_and!; [done|done|]. apply Forall_forall. intros h Hh.
  apply Hpos. rewrite (inv_sorted c Hinv) in Hh.
  by apply elem_of_sorted_keys.
Qed.

Lemma positions_are_uint32_witness :
  (forall key, 0 <= hashKey ring_ab key < 2 ^ 32) /\
  (forall h, is_Some (circle ring_ab !! h) -> 0 <= h < 2 ^ 32) /\
  Forall (fun h => 0 <= h < 2 ^ 32) (data (sortedHashes ring_ab)).
Proof.
  apply (@positions_are_uint32 refRuntime ring_ab).
  - apply ring_of_reachable.
  - vm_compute. reflexivity.
Defined.
